(** * Unix local sockets of the SlimeVR OpenVR driver bridge

    A shallow embedding of [src/bridge/unix-sockets.hpp]: the syscall result
    wrappers ([SysReturn], [SysCall], [SysCallBlocking]), the poll list
    ([event::Poller]), the owned descriptor ([Socket]) with its cached
    readiness flags, the address record ([LocalAddress]) and the connector and
    acceptor roles built on them.

    The operating system is not part of the program.  It is a parameter [os],
    a function from the calls made so far and the call being made to a
    [Reply] (raw return value, [errno] and the out-parameters the kernel
    fills in).  The state threaded through the program is the trace of calls
    it has issued, so "no syscall was made" is "the trace did not grow". *)

From Stdlib Require Import ZArith Ascii String.
From stdpp Require Import base tactics option list gmap.

Local Open Scope Z_scope.

(** ** Machine integers *)

(** [static_cast<int>(x)]: the value of [x] modulo 2^32, read as signed. *)
Definition static_cast_int (x : Z) : Z := (x + 2 ^ 31) mod 2 ^ 32 - 2 ^ 31.

(** Conversion to [socklen_t], an unsigned 32-bit integer. *)
Definition to_socklen_t (x : Z) : Z := x mod 2 ^ 32.

(** Conversion to [std::size_t], an unsigned 64-bit integer. *)
Definition to_size_t (x : Z) : Z := x mod 2 ^ 64.

Definition INT_MAX : Z := 2 ^ 31 - 1.
Definition INT_MIN : Z := - 2 ^ 31.

(** ** Constants of the system headers

    The header includes <sys/socket.h>, <sys/un.h>, <sys/poll.h>, <fcntl.h>
    and <cerrno>; their values differ between systems, so the embedding takes
    them as a parameter.  [linux] below gives the values of Linux with glibc
    on x86-64. *)
Class Platform := {
  EWOULDBLOCK : Z;
  EAGAIN : Z;
  POLLIN : Z;
  POLLPRI : Z;
  POLLOUT : Z;
  POLLERR : Z;
  POLLHUP : Z;
  POLLNVAL : Z;
  O_NONBLOCK : Z;
  F_GETFL : Z;
  F_SETFL : Z;
  SOL_SOCKET : Z;
  SO_ERROR : Z;
  AF_UNIX : Z;
  SOCK_SEQPACKET : Z;
  (** [sizeof(sockaddr_un)] and [sizeof(sockaddr_un::sun_path)] *)
  sizeof_sockaddr_un : Z;
  sizeof_sun_path : Z;
  sockaddr_un_layout :
    0 < sizeof_sun_path /\ sizeof_sun_path <= sizeof_sockaddr_un /\
    sizeof_sockaddr_un < 2 ^ 31
}.

Definition linux : Platform := {|
  EWOULDBLOCK := 11;
  EAGAIN := 11;
  POLLIN := 1;
  POLLPRI := 2;
  POLLOUT := 4;
  POLLERR := 8;
  POLLHUP := 16;
  POLLNVAL := 32;
  O_NONBLOCK := 2048;
  F_GETFL := 3;
  F_SETFL := 4;
  SOL_SOCKET := 1;
  SO_ERROR := 4;
  AF_UNIX := 1;
  SOCK_SEQPACKET := 5;
  sizeof_sockaddr_un := 110;
  sizeof_sun_path := 108;
  sockaddr_un_layout := ltac:(lia)
|}.

(** ** Exceptions and outcomes *)

(** The exceptions the header throws.  [system_error] carries the [std::errc]
    it was made from; [out_of_range] is what [std::vector::at] throws. *)
Inductive exception :=
| system_error (code : Z)
| invalid_argument (what : string)
| length_error (what : string)
| out_of_range.

(** How a call ends: it returns, it throws, or the C++ standard gives it no
    meaning (an iterator or an array index outside its object). *)
Inductive Outcome (A : Type) :=
| Return (a : A)
| Throw (e : exception)
| Undefined.
Arguments Return {A} a.
Arguments Throw {A} e.
Arguments Undefined {A}.

(** A computation over a state [S] that may throw.  The state survives a
    throw: a member function that clears a flag and then throws leaves the
    flag cleared. *)
Definition Prog (S A : Type) : Type := S -> Outcome A * S.

Definition ret {S A} (a : A) : Prog S A := fun s => (Return a, s).
Definition throw {S A} (e : exception) : Prog S A := fun s => (Throw e, s).
Definition undefined {S A} : Prog S A := fun s => (Undefined, s).
Definition bind {S A B} (m : Prog S A) (k : A -> Prog S B) : Prog S B :=
  fun s =>
    match m s with
    | (Return a, s') => k a s'
    | (Throw e, s') => (Throw e, s')
    | (Undefined, s') => (Undefined, s')
    end.
Definition get {S} : Prog S S := fun s => (Return s, s).
Definition put {S} (s : S) : Prog S unit := fun _ => (Return tt, s).

Declare Scope prog_scope.
Delimit Scope prog_scope with prog.
Notation "x <- m ;; k" := (bind m (fun x => k))
  (at level 100, m at next level, right associativity) : prog_scope.
Notation "m ;;; k" := (bind m (fun _ => k))
  (at level 100, right associativity) : prog_scope.

(** Run [m] on one component of a pair state, the other component fixed. *)
Definition on_fst {S T A} (m : Prog S A) : Prog (S * T) A :=
  fun st => let '(r, s') := m (fst st) in (r, (s', snd st)).
Definition on_snd {S T A} (m : Prog T A) : Prog (S * T) A :=
  fun st => let '(r, t') := m (snd st) in (r, (fst st, t')).

(** ** The address record [sockaddr_un] *)

Definition NUL : ascii := Ascii.zero.

Record sockaddr_un_t := {
  sun_family : Z;
  sun_path : list ascii
}.

(** ** The operating system *)

(** [pollfd]: the descriptor, the requested events and the returned events. *)
Record pollfd_t := {
  fd : Z;
  events : Z;
  revents : Z
}.

(** One system call with the arguments the program passes.  A buffer is the
    address the program hands over; an address record is passed by content. *)
Inductive SysOp :=
| sys_socket (domain type protocol : Z)
| sys_close (descriptor : Z)
| sys_fcntl (descriptor cmd arg : Z)
| sys_getsockopt (descriptor level optname : Z)
| sys_unlink (path : option string)
| sys_bind (descriptor : Z) (addr : sockaddr_un_t) (len : Z)
| sys_listen (descriptor backlog : Z)
| sys_connect (descriptor : Z) (addr : sockaddr_un_t) (len : Z)
| sys_accept (descriptor : Z) (len : Z)
| sys_send (descriptor buf len flags : Z)
| sys_recv (descriptor buf len flags : Z)
| sys_poll (fds : list pollfd_t) (timeoutMs : Z).

(** What the system answers: the raw return value, the value of [errno]
    after the call, and what it wrote through the out-parameters
    ([getsockopt]'s option value, [accept]'s peer address, the length
    either of them stored,
    [poll]'s returned events). *)
Record Reply := {
  r_ret : Z;
  r_errno : Z;
  r_optval : Z;
  r_addr : sockaddr_un_t;
  r_outlen : Z;
  r_revents : list Z
}.

(** The calls the program has made, oldest first. *)
Definition World : Type := list SysOp.

Definition OS : Type := World -> SysOp -> Reply.

(** ** SysReturn *)

Definition sNotAnError : Z := 0.

Record SysReturn := {
  mCode : Z;
  mValue : Z
}.

(** [SysReturn(int value)] *)
Definition SysReturn_value (value : Z) : SysReturn :=
  {| mCode := sNotAnError; mValue := value |}.

(** [SysReturn(std::errc code)]; [mValue()] is value-initialised to 0. *)
Definition SysReturn_code (code : Z) : SysReturn :=
  {| mCode := code; mValue := 0 |}.

Definition IsError (r : SysReturn) : bool := negb (mCode r =? sNotAnError).

Definition GetCode (r : SysReturn) : Z := mCode r.

Definition ThrowCode {S A} (r : SysReturn) : Prog S A :=
  throw (system_error (mCode r)).

Definition Unwrap {S} (r : SysReturn) : Prog S Z :=
  if IsError r then ThrowCode r else ret (mValue r).

Section Program.

Context {platform : Platform}.
Variable os : OS.

(** [func(args...)]: the call is appended to the trace and the system's
    answer is handed back. *)
Definition invoke (call : SysOp) : Prog World Reply :=
  fun w => (Return (os w call), w ++ [call]).

(** What [SysCall] makes of the raw return value and [errno]. *)
Definition SysCall_result (raw errno : Z) : SysReturn :=
  let result := static_cast_int raw in
  if negb (result =? -1) then SysReturn_value result
  else SysReturn_code errno.

(** What [SysCallBlocking] makes of the raw return value and [errno]. *)
Definition SysCallBlocking_result (raw errno : Z) : option SysReturn :=
  let result := static_cast_int raw in
  if negb (result =? -1) then Some (SysReturn_value result)
  else
    let code := errno in
    if (code =? EWOULDBLOCK) || (code =? EAGAIN) then None
    else Some (SysReturn_code code).

(** The system answered that the call would block: -1 with [errno] equal to
    [operation_would_block] or [resource_unavailable_try_again]. *)
Definition would_block (out : Reply) : bool :=
  (static_cast_int (r_ret out) =? -1)
  && ((r_errno out =? EWOULDBLOCK) || (r_errno out =? EAGAIN)).

(** [SysCall(func, args...)].  The reply is returned next to the [SysReturn]
    for the callers that read an out-parameter afterwards. *)
Definition SysCall (call : SysOp) : Prog World (SysReturn * Reply) :=
  (out <- invoke call ;;
   ret (SysCall_result (r_ret out) (r_errno out), out))%prog.

(** [SysCallBlocking(func, args...)] *)
Definition SysCallBlocking (call : SysOp)
  : Prog World (option SysReturn * Reply) :=
  (out <- invoke call ;;
   ret (SysCallBlocking_result (r_ret out) (r_errno out), out))%prog.

End Program.

(** Destructors of the sub-objects already built run while an exception
    leaves a constructor: [unwind m cleanup] runs [cleanup] when [m] throws
    and lets the exception go on. *)
Definition unwind {S A} (m : Prog S A) (cleanup : Prog S unit) : Prog S A :=
  fun s =>
    match m s with
    | (Throw e, s') =>
        match cleanup s' with
        | (Undefined, s'') => (Undefined, s'')
        | (_, s'') => (Throw e, s'')
        end
    | r => r
    end.

(** A pure outcome as a computation. *)
Definition lift_outcome {S A} (o : Outcome A) : Prog S A := fun s => (o, s).

(** ** namespace event *)

Module event.

(** [event::Result]: the returned events of one poll entry. *)
Module Result.
Section WithPlatform.
Context {platform : Platform}.

Record t := Result { v : Z }.

Definition IsReadable (r : t) : bool := negb (Z.land (v r) POLLIN =? 0).
Definition IsWritable (r : t) : bool := negb (Z.land (v r) POLLOUT =? 0).
Definition IsErrored (r : t) : bool := negb (Z.land (v r) POLLERR =? 0).
Definition IsClosed (r : t) : bool := negb (Z.land (v r) POLLHUP =? 0).
Definition IsInvalid (r : t) : bool := negb (Z.land (v r) POLLNVAL =? 0).

End WithPlatform.
End Result.

Section Masks.
Context {platform : Platform}.
Definition Priority : Z := POLLPRI.
End Masks.

(** [event::Poller]: the list handed to [poll]. *)
Module Poller.
Section WithOS.
Context {platform : Platform}.
Variable os : OS.

Record t := { mPollList : list pollfd_t }.

(** A freshly constructed poller: [mPollList{}]. *)
Definition empty : t := {| mPollList := [] |}.

(** The kernel stores the returned events into the entries it was given. *)
Fixpoint write_revents (fds : list pollfd_t) (rs : list Z) : list pollfd_t :=
  match fds, rs with
  | f :: fds', r :: rs' =>
      {| fd := fd f; events := events f; revents := r |} :: write_revents fds' rs'
  | _, _ => fds
  end.

Definition Poll (timeoutMs : Z) : Prog (t * World) unit :=
  (self <- on_fst get ;;
   p <- on_snd (SysCall os (sys_poll (mPollList self) timeoutMs)) ;;
   on_fst (put {| mPollList := write_revents (mPollList self) (r_revents (snd p)) |}) ;;;
   _ <- Unwrap (fst p) ;;
   ret tt)%prog.



(** [mPollList.at(idx)]: the [int] index converts to [size_type]; [at]
    throws when it is not below the size. *)
Definition At (idx : Z) : Prog t Result.t :=
  fun self =>
    match mPollList self !! Z.to_nat (to_size_t idx) with
    | Some entry => (Return (Result.Result (revents entry)), self)
    | None => (Throw out_of_range, self)
    end.

(** [mPollList.erase(mPollList.begin() + idx)]: the iterator must point at
    an element, otherwise the behaviour is undefined. *)
Definition Remove (idx : Z) : Prog t unit :=
  fun self =>
    if (0 <=? idx) && (idx <? Z.of_nat (length (mPollList self)))
    then (Return tt, {| mPollList := delete (Z.to_nat idx) (mPollList self) |})
    else (Undefined, self).

Definition Clear : Prog t unit :=
  fun _ => (Return tt, {| mPollList := [] |}).

Definition GetSize (self : t) : Z :=
  static_cast_int (Z.of_nat (length (mPollList self))).

End WithOS.
End Poller.

End event.

(** ** class Socket: the owned descriptor *)

Module Socket.
Section WithOS.
Context {platform : Platform}.
Variable os : OS.

Definition sInvalidSocket : Z := -1.

Record t := {
  mDescriptor : Z;
  mIsReadable : bool;
  mIsWritable : bool;
  mIsNonBlocking : bool
}.

Definition set_mDescriptor (d : Z) (s : t) : t :=
  {| mDescriptor := d; mIsReadable := mIsReadable s;
     mIsWritable := mIsWritable s; mIsNonBlocking := mIsNonBlocking s |}.
Definition set_mIsReadable (b : bool) (s : t) : t :=
  {| mDescriptor := mDescriptor s; mIsReadable := b;
     mIsWritable := mIsWritable s; mIsNonBlocking := mIsNonBlocking s |}.
Definition set_mIsWritable (b : bool) (s : t) : t :=
  {| mDescriptor := mDescriptor s; mIsReadable := mIsReadable s;
     mIsWritable := b; mIsNonBlocking := mIsNonBlocking s |}.
Definition set_mIsNonBlocking (b : bool) (s : t) : t :=
  {| mDescriptor := mDescriptor s; mIsReadable := mIsReadable s;
     mIsWritable := mIsWritable s; mIsNonBlocking := b |}.

(** The members as they are before a constructor body runs: the descriptor
    from the initialiser list, the flags from their default initialisers. *)
Definition initial (descriptor : Z) : t :=
  {| mDescriptor := descriptor; mIsReadable := false;
     mIsWritable := false; mIsNonBlocking := false |}.

(** A [const] member function reads the object and leaves it as it is. *)
Definition const_method {A} (f : t -> Prog World A) : Prog (t * World) A :=
  fun st => let '(r, w) := f (fst st) (snd st) in (r, (fst st, w)).

Definition GetDescriptor (self : t) : Z := mDescriptor self.

Definition GetStatusFlags (self : t) : Prog World Z :=
  (p <- SysCall os (sys_fcntl (mDescriptor self) F_GETFL 0) ;;
   Unwrap (fst p))%prog.

Definition SetStatusFlags (flags : Z) (self : t) : Prog World unit :=
  (p <- SysCall os (sys_fcntl (mDescriptor self) F_SETFL flags) ;;
   _ <- Unwrap (fst p) ;;
   ret tt)%prog.

Definition SetNonBlocking : Prog (t * World) unit :=
  (self <- on_fst get ;;
   on_fst (put (set_mIsNonBlocking true self)) ;;;
   flags <- const_method GetStatusFlags ;;
   const_method (SetStatusFlags (Z.lor flags O_NONBLOCK)))%prog.

Definition SetBlocking : Prog (t * World) unit :=
  (self <- on_fst get ;;
   on_fst (put (set_mIsNonBlocking false self)) ;;;
   flags <- const_method GetStatusFlags ;;
   const_method (SetStatusFlags (Z.land flags (Z.lnot O_NONBLOCK))))%prog.

(** [GetSockOpt<int>(level, optname)]: the pair of the option value and its
    size after the call; [outValue] and [outSize] are what the system left
    in them. *)
Definition GetSockOpt (level optname : Z) (self : t) : Prog World (Z * Z) :=
  (p <- SysCall os (sys_getsockopt (mDescriptor self) level optname) ;;
   _ <- Unwrap (fst p) ;;
   ret (r_optval (snd p), r_outlen (snd p)))%prog.

Definition GetError (self : t) : Prog World Z :=
  (p <- GetSockOpt SOL_SOCKET SO_ERROR self ;;
   ret (fst p))%prog.

(** [Socket(int domain, int type, int protocol)] *)
Definition open (domain type protocol : Z) : Prog World t :=
  (p <- SysCall os (sys_socket domain type protocol) ;;
   descriptor <- Unwrap (fst p) ;;
   fun w =>
     match SetNonBlocking (initial descriptor, w) with
     | (Return _, (self, w')) => (Return self, w')
     | (Throw e, (_, w')) => (Throw e, w')
     | (Undefined, (_, w')) => (Undefined, w')
     end)%prog.

(** [explicit Socket(Descriptor descriptor)] *)
Definition adopt (descriptor : Z) : Prog World t :=
  if descriptor =? sInvalidSocket
  then throw (invalid_argument "invalid socket descriptor")
  else
    fun w =>
      match SetNonBlocking (initial descriptor, w) with
      | (Return _, (self, w')) => (Return self, w')
      | (Throw e, (_, w')) => (Throw e, w')
      | (Undefined, (_, w')) => (Undefined, w')
      end.

(** [~Socket()]: the result of [close] is discarded. *)
Definition destroy (self : t) : Prog World unit :=
  if negb (mDescriptor self =? sInvalidSocket)
  then (_ <- SysCall os (sys_close (mDescriptor self)) ;; ret tt)%prog
  else ret tt.

(** [Socket(Socket&& other)]: the new object and what is left of [other]. *)
Definition move (other : t) : t * t :=
  (initial (mDescriptor other), set_mDescriptor sInvalidSocket other).

(** [operator=(Socket&& rhs)]: the object assigned to and what is left of
    [rhs]; only the descriptors are swapped. *)
Definition move_assign (self rhs : t) : t * t :=
  (set_mDescriptor (mDescriptor rhs) self, set_mDescriptor (mDescriptor self) rhs).

Definition GetAndResetIsReadable : Prog t bool :=
  fun self =>
    let temp := mIsReadable self in
    (Return (temp || negb (mIsNonBlocking self)), set_mIsReadable false self).

Definition GetAndResetIsWritable : Prog t bool :=
  fun self =>
    let temp := mIsWritable self in
    (Return (temp || negb (mIsNonBlocking self)), set_mIsWritable false self).

Definition Update (res : event.Result.t) : Prog (t * World) bool :=
  if event.Result.IsErrored res then
    (code <- const_method GetError ;;
     throw (system_error code))%prog
  else if event.Result.IsInvalid res || event.Result.IsClosed res then
    ret false
  else
    (self <- on_fst get ;;
     on_fst (put (if event.Result.IsReadable res
                  then set_mIsReadable true self else self)) ;;;
     self <- on_fst get ;;
     on_fst (put (if event.Result.IsWritable res
                  then set_mIsWritable true self else self)) ;;;
     ret true)%prog.

End WithOS.
End Socket.

(** ** C strings *)

(** [strncpy(dst, src, n)] writes exactly [n] characters: those of [src] up
    to its first NUL, then NULs. *)
Fixpoint strncpy_chars (src : list ascii) (n : nat) {struct n} : list ascii :=
  match n with
  | O => []
  | S n' =>
      match src with
      | c :: src' =>
          if Ascii.eqb c NUL then replicate n NUL
          else c :: strncpy_chars src' n'
      | [] => replicate n NUL
      end
  end.

(** The string a [const char*] into an array denotes: the characters before
    the first NUL; [None] when the array holds no NUL, where a reader would
    run past its end. *)
Fixpoint c_str (mem : list ascii) : option string :=
  match mem with
  | [] => None
  | c :: mem' =>
      if Ascii.eqb c NUL then Some EmptyString
      else option_map (String c) (c_str mem')
  end.

(** A string without a NUL character inside. *)
Fixpoint nul_free (s : string) : bool :=
  match s with
  | EmptyString => true
  | String c s' => negb (Ascii.eqb c NUL) && nul_free s'
  end.

(** The characters of a string before its first NUL. *)
Fixpoint until_nul (s : string) : string :=
  match s with
  | EmptyString => EmptyString
  | String c s' => if Ascii.eqb c NUL then EmptyString else String c (until_nul s')
  end.

(** ** class LocalAddress *)

Module LocalAddress.
Section WithOS.
Context {platform : Platform}.
Variable os : OS.

Definition sFamily : Z := AF_UNIX.
Definition sMaxSize : Z := to_socklen_t sizeof_sockaddr_un.
Definition sPathOffset : Z := to_socklen_t (sMaxSize - sizeof_sun_path).

(** The longest path that fits: the record size less the header before
    [sun_path], less one byte for the terminator. *)
Definition capacity : Z := sMaxSize - sPathOffset - 1.

Record t := {
  mSize : Z;
  mAddress : sockaddr_un_t
}.

(** [sockaddr_un_t mAddress{}]: every byte zero. *)
Definition zeroed : sockaddr_un_t :=
  {| sun_family := 0; sun_path := replicate (Z.to_nat sizeof_sun_path) NUL |}.

(** [LocalAddress()] *)
Definition empty : t := {| mSize := sMaxSize; mAddress := zeroed |}.

(** [explicit LocalAddress(std::string_view path)].  [mSize] is a
    [socklen_t], so the sum is stored modulo 2^32 before it is compared.
    Past the two checks the copy and the terminator are written into
    [sun_path]; a write outside the array has no defined behaviour. *)
Definition make (path : string) : Outcome t :=
  let size := Z.of_nat (String.length path) in
  let mSize := to_socklen_t (sPathOffset + size + 1) in
  if (String.length path =? 0)%nat then Throw (invalid_argument "path empty")
  else if mSize >? sMaxSize then Throw (length_error "path too long")
  else if size <? sizeof_sun_path then
    let copied :=
      strncpy_chars (list_ascii_of_string path) (String.length path)
      ++ drop (String.length path) (sun_path zeroed) in
    let terminated := <[String.length path := NUL]> copied in
    Return {| mSize := mSize;
              mAddress := {| sun_family := sFamily; sun_path := terminated |} |}
  else Undefined.

Definition GetPath (self : t) : option string := c_str (sun_path (mAddress self)).

(** [Unlink()]: the result of [unlink] is discarded. *)
Definition Unlink (self : t) : Prog World unit :=
  (_ <- SysCall os (sys_unlink (GetPath self)) ;; ret tt)%prog.

Definition GetSize (self : t) : Z := mSize self.

(** [GetSizePtr()] resets [mSize] before its address is handed out. *)
Definition GetSizePtr (self : t) : t :=
  {| mSize := sMaxSize; mAddress := mAddress self |}.

Definition IsValid (self : t) : bool := sun_family (mAddress self) =? sFamily.

End WithOS.
End LocalAddress.

(** ** class LocalSocket : public Socket *)

Module LocalSocket.
Section WithOS.
Context {platform : Platform}.
Variable os : OS.

Definition sDomain : Z := AF_UNIX.
Definition sType : Z := SOCK_SEQPACKET.
Definition sProtocol : Z := 0.

Record t := {
  base : Socket.t;
  mAddress : LocalAddress.t
}.

(** A member function of the base class run on the derived object. *)
Definition on_base {A} (m : Prog (Socket.t * World) A) : Prog (t * World) A :=
  fun st =>
    let '(r, (b, w)) := m (base (fst st), snd st) in
    (r, ({| base := b; mAddress := mAddress (fst st) |}, w)).

(** A base member function that touches no system state. *)
Definition on_base_only {A} (m : Prog Socket.t A) : Prog (t * World) A :=
  on_base (on_fst m).

Definition const_method {A} (f : t -> Prog World A) : Prog (t * World) A :=
  fun st => let '(r, w) := f (fst st) (snd st) in (r, (fst st, w)).

(** The implicit destructor: [mAddress] needs none, then [~Socket()]. *)
Definition destroy (self : t) : Prog World unit := Socket.destroy os (base self).

(** The implicit move constructor: the base by [Socket(Socket&&)], the
    address by copy. *)
Definition move (other : t) : t * t :=
  let '(b, emptied) := Socket.move (base other) in
  ({| base := b; mAddress := mAddress other |},
   {| base := emptied; mAddress := mAddress other |}).

(** [explicit LocalSocket(std::string_view path)]: the base first, then
    [mAddress(path)]; when the latter throws the base is destroyed. *)
Definition make_path (path : string) : Prog World t :=
  (b <- Socket.open os sDomain sType sProtocol ;;
   address <- unwind (lift_outcome (LocalAddress.make path))
                (Socket.destroy os b) ;;
   ret {| base := b; mAddress := address |})%prog.

(** [LocalSocket(Descriptor descriptor, LocalAddress address)] *)
Definition make_descriptor (descriptor : Z) (address : LocalAddress.t)
  : Prog World t :=
  (b <- Socket.adopt os descriptor ;;
   let self := {| base := b; mAddress := address |} in
   unwind
     (if negb (LocalAddress.IsValid (mAddress self))
      then throw (invalid_argument "invalid local socket address")
      else ret tt)
     (Socket.destroy os b) ;;;
   ret self)%prog.

Definition UnlinkAddress (self : t) : Prog World unit :=
  LocalAddress.Unlink os (mAddress self).

Definition Bind (self : t) : Prog World unit :=
  (p <- SysCall os (sys_bind (Socket.GetDescriptor (base self))
                      (LocalAddress.mAddress (mAddress self))
                      (LocalAddress.GetSize (mAddress self))) ;;
   _ <- Unwrap (fst p) ;;
   ret tt)%prog.

Definition Listen (backlog : Z) (self : t) : Prog World unit :=
  (p <- SysCall os (sys_listen (Socket.GetDescriptor (base self)) backlog) ;;
   _ <- Unwrap (fst p) ;;
   ret tt)%prog.

Definition Connect (self : t) : Prog World unit :=
  (p <- SysCall os (sys_connect (Socket.GetDescriptor (base self))
                      (LocalAddress.mAddress (mAddress self))
                      (LocalAddress.GetSize (mAddress self))) ;;
   _ <- Unwrap (fst p) ;;
   ret tt)%prog.

End WithOS.
End LocalSocket.

(** ** class LocalConnectorSocket : public LocalSocket *)

Module LocalConnectorSocket.
Section WithOS.
Context {platform : Platform}.
Variable os : OS.

(** The class adds no member to [LocalSocket]. *)
Definition t : Type := LocalSocket.t.

(** [explicit LocalConnectorSocket(std::string_view path)]: when [Connect]
    throws, the [LocalSocket] already built is destroyed. *)
Definition make_path (path : string) : Prog World t :=
  (self <- LocalSocket.make_path os path ;;
   unwind (LocalSocket.Connect os self) (LocalSocket.destroy os self) ;;;
   ret self)%prog.

(** [LocalConnectorSocket(Descriptor descriptor, LocalAddress address)] *)
Definition make_descriptor (descriptor : Z) (address : LocalAddress.t)
  : Prog World t :=
  LocalSocket.make_descriptor os descriptor address.

(** [TrySend(bufBegin, bytesToSend)]; [buf] is the address of the element
    [bufBegin] points at. *)
Definition TrySend (buf bytesToSend : Z) : Prog (t * World) (option Z) :=
  (ready <- LocalSocket.on_base_only Socket.GetAndResetIsWritable ;;
   if negb ready then ret None
   else
     let flags := 0 in
     self <- on_fst get ;;
     p <- on_snd (SysCallBlocking os
            (sys_send (Socket.GetDescriptor (LocalSocket.base self))
               buf bytesToSend flags)) ;;
     match fst p with
     | Some bytesSent => n <- Unwrap bytesSent ;; ret (Some n)
     | None => ret None
     end)%prog.

(** [TryRecv(bufBegin, bufSize)] *)
Definition TryRecv (buf bufSize : Z) : Prog (t * World) (option Z) :=
  (ready <- LocalSocket.on_base_only Socket.GetAndResetIsReadable ;;
   if negb ready then ret None
   else
     let flags := 0 in
     self <- on_fst get ;;
     p <- on_snd (SysCallBlocking os
            (sys_recv (Socket.GetDescriptor (LocalSocket.base self))
               buf bufSize flags)) ;;
     match fst p with
     | Some bytesRecv => n <- Unwrap bytesRecv ;; ret (Some n)
     | None => ret None
     end)%prog.

End WithOS.
End LocalConnectorSocket.

(** ** class LocalAcceptorSocket : public LocalSocket *)

Module LocalAcceptorSocket.
Section WithOS.
Context {platform : Platform}.
Variable os : OS.

Definition t : Type := LocalSocket.t.

(** [LocalAcceptorSocket(std::string_view path, int backlog)] *)
Definition make (path : string) (backlog : Z) : Prog World t :=
  (self <- LocalSocket.make_path os path ;;
   unwind
     (LocalSocket.UnlinkAddress os self ;;;
      LocalSocket.Bind os self ;;;
      LocalSocket.Listen os backlog self)
     (LocalSocket.destroy os self) ;;;
   ret self)%prog.

(** [Accept()].  The system stores the peer's address and its length
    through [address.GetPtr()] and [address.GetSizePtr()].  The connector
    built from them is returned inside a [std::optional], which
    move-constructs its value from the temporary; the temporary is then
    destroyed. *)
Definition Accept : Prog (t * World) (option LocalConnectorSocket.t) :=
  (ready <- LocalSocket.on_base_only Socket.GetAndResetIsReadable ;;
   if negb ready then ret None
   else
     self <- on_fst get ;;
     let address := LocalAddress.GetSizePtr LocalAddress.empty in
     p <- on_snd (SysCallBlocking os
            (sys_accept (Socket.GetDescriptor (LocalSocket.base self))
               (LocalAddress.mSize address))) ;;
     let address :=
       {| LocalAddress.mSize := to_socklen_t (r_outlen (snd p));
          LocalAddress.mAddress := r_addr (snd p) |} in
     match fst p with
     | Some desc =>
         descriptor <- Unwrap desc ;;
         temporary <- on_snd (LocalConnectorSocket.make_descriptor os
                                descriptor address) ;;
         let '(stored, moved_from) := LocalSocket.move temporary in
         on_snd (LocalSocket.destroy os moved_from) ;;;
         ret (Some stored)
     | None => ret None
     end)%prog.

End WithOS.
End LocalAcceptorSocket.

(** ** Lifetimes of Socket objects

    The special member functions of [Socket] as a program uses them: the
    live objects are kept by identity, and an action names the objects it
    works on.  An action on an object outside its lifetime (or a
    construction over a live one) has no defined behaviour. *)

Module Lifetime.
Section WithOS.
Context {platform : Platform}.
Variable os : OS.

Inductive Action :=
| MoveConstruct (target source : nat)  (** [Socket target(std::move(source))] *)
| MoveAssign (target source : nat)     (** [target = std::move(source)] *)
| Destroy (object : nat).              (** the lifetime of [object] ends *)

Definition step (a : Action) : Prog (gmap nat Socket.t * World) unit :=
  fun st =>
    let '(objs, w) := st in
    match a with
    | MoveConstruct target source =>
        match objs !! source, objs !! target with
        | Some other, None =>
            let '(self, emptied) := Socket.move other in
            (Return tt, (<[target := self]> (<[source := emptied]> objs), w))
        | _, _ => (Undefined, st)
        end
    | MoveAssign target source =>
        match objs !! target, objs !! source with
        | Some self, Some rhs =>
            let '(self', rhs') := Socket.move_assign self rhs in
            (Return tt, (<[target := self']> (<[source := rhs']> objs), w))
        | _, _ => (Undefined, st)
        end
    | Destroy object =>
        match objs !! object with
        | Some self =>
            let '(r, w') := Socket.destroy os self w in
            (r, (delete object objs, w'))
        | None => (Undefined, st)
        end
    end.

Fixpoint run (actions : list Action) : Prog (gmap nat Socket.t * World) unit :=
  match actions with
  | [] => ret tt
  | a :: rest => (step a ;;; run rest)%prog
  end.

(** A live object holds descriptor [d]. *)
Definition holds (objs : gmap nat Socket.t) (d : Z) : Prop :=
  d <> Socket.sInvalidSocket /\
  exists i s, objs !! i = Some s /\ Socket.mDescriptor s = d.

(** No descriptor is held by two live objects. *)
Definition exclusive (objs : gmap nat Socket.t) : Prop :=
  forall i j s1 s2,
    objs !! i = Some s1 -> objs !! j = Some s2 ->
    Socket.mDescriptor s1 = Socket.mDescriptor s2 ->
    Socket.mDescriptor s1 <> Socket.sInvalidSocket ->
    i = j.

End WithOS.
End Lifetime.

(** ** A caller driving one socket

    The calls a poll loop makes on one socket between two points of its
    run.  The caller may catch what a call throws and go on, so a call is
    followed by its effect on the object and on the system alone. *)

Module Caller.
Section WithOS.
Context {platform : Platform}.
Variable os : OS.

Inductive Call :=
| CallUpdate (res : event.Result.t)
| CallTrySend (buf bytesToSend : Z)
| CallTryRecv (buf bufSize : Z)
| CallAccept.

Definition perform (c : Call) (st : LocalSocket.t * World) : LocalSocket.t * World :=
  match c with
  | CallUpdate res => snd (LocalSocket.on_base (Socket.Update os res) st)
  | CallTrySend buf n => snd (LocalConnectorSocket.TrySend os buf n st)
  | CallTryRecv buf n => snd (LocalConnectorSocket.TryRecv os buf n st)
  | CallAccept => snd (LocalAcceptorSocket.Accept os st)
  end.

Definition perform_all (calls : list Call) (st : LocalSocket.t * World)
  : LocalSocket.t * World :=
  fold_left (fun st c => perform c st) calls st.

(** The calls gated by the readable flag, and those gated by the writable one. *)
Definition gated_on_readable (c : Call) : bool :=
  match c with
  | CallTryRecv _ _ | CallAccept => true
  | _ => false
  end.

Definition gated_on_writable (c : Call) : bool :=
  match c with
  | CallTrySend _ _ => true
  | _ => false
  end.

Definition readable (st : LocalSocket.t * World) : bool :=
  Socket.mIsReadable (LocalSocket.base (fst st)).
Definition writable (st : LocalSocket.t * World) : bool :=
  Socket.mIsWritable (LocalSocket.base (fst st)).

End WithOS.
End Caller.

(** ** Frames *)

(** A computation over a pair state that leaves the first component, the
    object, as it found it. *)
Definition keeps_fst {S T A} (m : Prog (S * T) A) : Prop :=
  forall st, fst (snd (m st)) = fst st.

(** ** Systems to run the program on *)

Module Systems.

Definition reply (ret errno : Z) : Reply :=
  {| r_ret := ret; r_errno := errno; r_optval := 0;
     r_addr := {| sun_family := 0; sun_path := [] |};
     r_outlen := 0; r_revents := [] |}.

(** Nothing is ready: [socket], [fcntl], [close] and [getsockopt] succeed,
    every other call fails with [EAGAIN] (11 on Linux). *)
Definition os_would_block : OS :=
  fun _ call =>
    match call with
    | sys_socket _ _ _ => reply 3 0
    | sys_fcntl _ _ _ => reply 0 0
    | sys_close _ => reply 0 0
    | sys_getsockopt _ _ _ => reply 0 0
    | _ => reply (-1) 11
    end.

(** Everything is ready: [send] and [recv] move the whole buffer, [accept]
    yields descriptor 4 with a local peer address, [getsockopt] reports
    [ECONNRESET] (104) as the pending error. *)
Definition os_ready : OS :=
  fun _ call =>
    match call with
    | sys_socket _ _ _ => reply 3 0
    | sys_send _ _ len _ => reply len 0
    | sys_recv _ _ len _ => reply len 0
    | sys_accept _ _ =>
        {| r_ret := 4; r_errno := 0; r_optval := 0;
           r_addr := {| sun_family := 1; sun_path := [] |};
           r_outlen := 2; r_revents := [] |}
    | sys_getsockopt _ _ _ =>
        {| r_ret := 0; r_errno := 0; r_optval := 104;
           r_addr := {| sun_family := 0; sun_path := [] |};
           r_outlen := 4; r_revents := [] |}
    | _ => reply 0 0
    end.

(** Nobody listens: [connect], [send] and [recv] fail with [ECONNREFUSED]
    (111). *)
Definition os_refused : OS :=
  fun _ call =>
    match call with
    | sys_socket _ _ _ => reply 3 0
    | sys_connect _ _ _ => reply (-1) 111
    | sys_send _ _ _ _ => reply (-1) 111
    | sys_recv _ _ _ _ => reply (-1) 111
    | _ => reply 0 0
    end.

(** A connected socket in non-blocking mode with neither flag set. *)
Definition idle (descriptor : Z) : LocalSocket.t :=
  {| LocalSocket.base :=
       {| Socket.mDescriptor := descriptor; Socket.mIsReadable := false;
          Socket.mIsWritable := false; Socket.mIsNonBlocking := true |};
     LocalSocket.mAddress := LocalAddress.empty (platform := linux) |}.

(** The same socket after a poll cycle reported it readable and writable. *)
Definition ready (descriptor : Z) : LocalSocket.t :=
  {| LocalSocket.base :=
       {| Socket.mDescriptor := descriptor; Socket.mIsReadable := true;
          Socket.mIsWritable := true; Socket.mIsNonBlocking := true |};
     LocalSocket.mAddress := LocalAddress.empty (platform := linux) |}.

(** A path one byte longer than [sun_path] can hold on Linux. *)
Definition long_path : string := string_of_list_ascii (replicate 108 "a"%char).

(** Two sockets holding the descriptors 3 and 4. *)
Definition two_sockets : gmap nat Socket.t :=
  <[0%nat := Socket.initial 3]> (<[1%nat := Socket.initial 4]> ∅).

End Systems.

(** ** Outcomes of a wrapped call *)

(** What [SysCall(...).Unwrap()] makes of a reply: the value cast to [int],
    or a [system_error] with the [errno] of the call.  A return of -1 with
    an [errno] of 0 is no error to [SysReturn] and unwraps to 0. *)
Definition unwrapped (out : Reply) : Outcome Z :=
  if static_cast_int (r_ret out) =? -1 then
    if r_errno out =? sNotAnError then Return 0
    else Throw (system_error (r_errno out))
  else Return (static_cast_int (r_ret out)).

(** The outcome of a call whose value is dropped. *)
Definition void {A} (o : Outcome A) : Outcome unit :=
  match o with
  | Return _ => Return tt
  | Throw e => Throw e
  | Undefined => Undefined
  end.

(** A call is a [close]. *)
Definition is_close (call : SysOp) : bool :=
  match call with
  | sys_close _ => true
  | _ => false
  end.

(** ** More systems to run the program on *)

Module Faults.

(** [socket] yields descriptor 3 and every [fcntl] on it fails with
    [EBADF] (9). *)
Definition os_fcntl_fails : OS :=
  fun _ call =>
    match call with
    | sys_socket _ _ _ => Systems.reply 3 0
    | sys_fcntl _ _ _ => Systems.reply (-1) 9
    | _ => Systems.reply 0 0
    end.

(** [accept] yields descriptor 4 and leaves the address record zeroed, as
    it does for an unnamed peer. *)
Definition os_unnamed_peer : OS :=
  fun _ call =>
    match call with
    | sys_socket _ _ _ => Systems.reply 3 0
    | sys_accept _ _ => Systems.reply 4 0
    | _ => Systems.reply 0 0
    end.

(** The path is taken: [bind] fails with [EADDRINUSE] (98), and [unlink]
    with [EACCES] (13). *)
Definition os_address_in_use : OS :=
  fun _ call =>
    match call with
    | sys_socket _ _ _ => Systems.reply 3 0
    | sys_unlink _ => Systems.reply (-1) 13
    | sys_bind _ _ _ => Systems.reply (-1) 98
    | _ => Systems.reply 0 0
    end.

(** [listen] fails with [EOPNOTSUPP] (95); [unlink] finds no file
    ([ENOENT], 2). *)
Definition os_no_listen : OS :=
  fun _ call =>
    match call with
    | sys_socket _ _ _ => Systems.reply 3 0
    | sys_unlink _ => Systems.reply (-1) 2
    | sys_listen _ _ => Systems.reply (-1) 95
    | _ => Systems.reply 0 0
    end.

(** [poll] reports one ready entry and stores the events [POLLIN] for the
    first entry and [POLLOUT] for the second. *)
Definition os_poll_ready : OS :=
  fun _ call =>
    match call with
    | sys_poll _ _ =>
        {| r_ret := 2; r_errno := 0; r_optval := 0;
           r_addr := {| sun_family := 0; sun_path := [] |};
           r_outlen := 0; r_revents := [1; 4] |}
    | _ => Systems.reply 0 0
    end.

(** An acceptor and a connector on the poll list. *)
Definition watched : event.Poller.t :=
  {| event.Poller.mPollList :=
       [{| fd := 3; events := 1; revents := 0 |};
        {| fd := 4; events := 5; revents := 0 |}] |}.

(** The same list after a second connector was added. *)
Definition watched_three : event.Poller.t :=
  {| event.Poller.mPollList :=
       event.Poller.mPollList watched ++ [{| fd := 5; events := 5; revents := 0 |}] |}.

(** A path with a NUL byte inside: 'a', NUL, 'b'. *)
Definition nul_path : string := String "a" (String NUL (String "b" EmptyString)).

(** The connector [Accept] hands out on [Systems.os_ready]. *)
Definition accepted : LocalSocket.t :=
  {| LocalSocket.base := Socket.initial 4;
     LocalSocket.mAddress :=
       {| LocalAddress.mSize := 2;
          LocalAddress.mAddress := {| sun_family := 1; sun_path := [] |} |} |}.

(** [fcntl(F_GETFL)] answers 2, [fcntl(F_SETFL)] fails with [EINVAL]
    (22). *)
Definition os_setfl_fails : OS :=
  fun _ call =>
    match call with
    | sys_socket _ _ _ => Systems.reply 3 0
    | sys_fcntl _ cmd _ =>
        if cmd =? 4 then Systems.reply (-1) 22 else Systems.reply 2 0
    | _ => Systems.reply 0 0
    end.

(** A listener with one peer waiting and nothing to read or write yet:
    [socket] yields descriptor 3, [accept] yields descriptor 4 with a local
    peer address, [send] and [recv] fail with [EAGAIN] (11). *)
Definition os_peer_waiting : OS :=
  fun _ call =>
    match call with
    | sys_socket _ _ _ => Systems.reply 3 0
    | sys_accept _ _ =>
        {| r_ret := 4; r_errno := 0; r_optval := 0;
           r_addr := {| sun_family := 1; sun_path := [] |};
           r_outlen := 2; r_revents := [] |}
    | sys_send _ _ _ _ => Systems.reply (-1) 11
    | sys_recv _ _ _ _ => Systems.reply (-1) 11
    | _ => Systems.reply 0 0
    end.

(** A local address as [accept] stores it for a named peer. *)
Definition peer_address : LocalAddress.t :=
  {| LocalAddress.mSize := 2;
     LocalAddress.mAddress := {| sun_family := 1; sun_path := [] |} |}.

(** A path of 2^32 - 3 bytes, all 'a': with the two-byte header of Linux
    and the terminator its size is 2^32. *)
Definition huge_path : string :=
  string_of_list_ascii (replicate (Z.to_nat (2 ^ 32 - 3)) "a"%char).

End Faults.

(** * Properties *)

(** ** Machine integers and the monad *)

Lemma static_cast_int_id (x : Z) :
  INT_MIN <= x <= INT_MAX -> static_cast_int x = x.
Proof.
  unfold static_cast_int, INT_MIN, INT_MAX. intros Hx.
  rewrite Z.mod_small by lia. lia.
Qed.

Lemma static_cast_int_range (x : Z) :
  INT_MIN <= static_cast_int x <= INT_MAX.
Proof.
  unfold static_cast_int, INT_MIN, INT_MAX.
  pose proof (Z.mod_pos_bound (x + 2 ^ 31) (2 ^ 32) ltac:(lia)). lia.
Qed.

Lemma Unwrap_value {S} (value : Z) (s : S) :
  Unwrap (SysReturn_value value) s = (Return value, s).
Proof. reflexivity. Qed.

Lemma Unwrap_code {S} (code : Z) (s : S) :
  code <> sNotAnError ->
  Unwrap (SysReturn_code code) s = (Throw (system_error code), s).
Proof.
  intros Hc. unfold Unwrap, IsError, SysReturn_code, ThrowCode, throw. cbn.
  destruct (Z.eqb_spec code sNotAnError); [contradiction | reflexivity].
Qed.

(** [SysCall] never throws and always makes exactly its one call. *)
Lemma SysCall_run {platform : Platform} (os : OS) (call : SysOp) (w : World) :
  SysCall os call w =
  (Return (SysCall_result (r_ret (os w call)) (r_errno (os w call)), os w call),
   w ++ [call]).
Proof. reflexivity. Qed.

Lemma SysCallBlocking_run {platform : Platform} (os : OS) (call : SysOp) (w : World) :
  SysCallBlocking os call w =
  (Return (SysCallBlocking_result (r_ret (os w call)) (r_errno (os w call)),
           os w call),
   w ++ [call]).
Proof. reflexivity. Qed.

Lemma SysCallBlocking_result_would_block {platform : Platform} (out : Reply) :
  would_block out = true ->
  SysCallBlocking_result (r_ret out) (r_errno out) = None.
Proof.
  unfold would_block, SysCallBlocking_result.
  intros H. apply andb_true_iff in H as [-> ->]. reflexivity.
Qed.

(** ** The blocking-aware wrapper *)

(** C5.  [SysCallBlocking] makes its one call and classifies the raw
    outcome, read as the [int] the wrapper casts it to.  A return other than
    -1 gives the success arm holding that value.  A return of -1 with
    [errno] equal to would-block or try-again gives the empty optional,
    which is neither arm.  A return of -1 with any other code gives the
    arm holding that code, which is an error as soon as the code is not the
    "not an error" value 0. *)
Theorem C5_SysCallBlocking_three_outcomes
  {platform : Platform} (os : OS) (call : SysOp) (w : World) :
  let out := os w call in
  let result := static_cast_int (r_ret out) in
  let code := r_errno out in
  exists r : option SysReturn,
    SysCallBlocking os call w = (Return (r, out), w ++ [call]) /\
    (result <> -1 ->
       r = Some (SysReturn_value result) /\
       IsError (SysReturn_value result) = false /\
       mValue (SysReturn_value result) = result) /\
    (result = -1 -> code = EWOULDBLOCK \/ code = EAGAIN -> r = None) /\
    (result = -1 -> code <> EWOULDBLOCK -> code <> EAGAIN ->
       r = Some (SysReturn_code code) /\
       GetCode (SysReturn_code code) = code /\
       (code <> sNotAnError -> IsError (SysReturn_code code) = true)).
Proof.
  intros out result code.
  exists (SysCallBlocking_result (r_ret out) (r_errno out)).
  split; [apply SysCallBlocking_run |].
  unfold SysCallBlocking_result. fold result. fold code.
  repeat split.
  - destruct (Z.eqb_spec result (-1)); [contradiction | reflexivity].
  - intros Hr [Hc | Hc]; rewrite Hr, Hc; cbn; rewrite Z.eqb_refl;
      [reflexivity | rewrite orb_true_r; reflexivity].
  - destruct (Z.eqb_spec result (-1)); [cbn | contradiction].
    destruct (Z.eqb_spec code EWOULDBLOCK); [contradiction |].
    destruct (Z.eqb_spec code EAGAIN); [contradiction | reflexivity].
  - unfold IsError, SysReturn_code; cbn.
    destruct (Z.eqb_spec code sNotAnError); [contradiction | reflexivity].
Qed.

(** ** The cached readiness flags *)

Lemma GetAndResetIsReadable_run (s : Socket.t) :
  Socket.GetAndResetIsReadable s =
  (Return (Socket.mIsReadable s || negb (Socket.mIsNonBlocking s)),
   Socket.set_mIsReadable false s).
Proof. reflexivity. Qed.

Lemma GetAndResetIsWritable_run (s : Socket.t) :
  Socket.GetAndResetIsWritable s =
  (Return (Socket.mIsWritable s || negb (Socket.mIsNonBlocking s)),
   Socket.set_mIsWritable false s).
Proof. reflexivity. Qed.

Lemma set_mIsReadable_same (s : Socket.t) :
  Socket.set_mIsReadable (Socket.mIsReadable s) s = s.
Proof. destruct s; reflexivity. Qed.

Lemma set_mIsWritable_same (s : Socket.t) :
  Socket.set_mIsWritable (Socket.mIsWritable s) s = s.
Proof. destruct s; reflexivity. Qed.


(** On an object whose mode flag is set and whose cached flag is clear,
    [TrySend] (writable flag), [TryRecv] and [Accept] (readable flag)
    return the empty optional, and leave the object and the trace of system
    calls exactly as they were: no call is issued.  The hypothesis is on the
    member [mIsNonBlocking], not on the mode of the descriptor. *)
Theorem gate_closed_no_syscall
  {platform : Platform} (os : OS) (s : LocalSocket.t) (w : World) (buf n : Z) :
  Socket.mIsNonBlocking (LocalSocket.base s) = true ->
  (Socket.mIsWritable (LocalSocket.base s) = false ->
     LocalConnectorSocket.TrySend os buf n (s, w) = (Return None, (s, w))) /\
  (Socket.mIsReadable (LocalSocket.base s) = false ->
     LocalConnectorSocket.TryRecv os buf n (s, w) = (Return None, (s, w)) /\
     LocalAcceptorSocket.Accept os (s, w) = (Return None, (s, w))).
Proof.
  destruct s as [[d r wr nb] a]; cbn. intros ->.
  split; [intros -> | intros ->; split]; reflexivity.
Qed.

(** ** Update *)

(** [GetError] either returns a code or throws a [system_error]; it makes
    the one [getsockopt] call. *)
Lemma GetError_run {platform : Platform} (os : OS) (s : Socket.t) (w : World) :
  let call := sys_getsockopt (Socket.mDescriptor s) SOL_SOCKET SO_ERROR in
  let out := os w call in
  Socket.GetError os s w =
  (if IsError (SysCall_result (r_ret out) (r_errno out))
   then Throw (system_error (r_errno out))
   else Return (r_optval out),
   w ++ [call]).
Proof.
  cbv zeta. unfold Socket.GetError, Socket.GetSockOpt, bind.
  rewrite SysCall_run. cbn [fst snd].
  unfold Unwrap, SysCall_result.
  destruct (negb (static_cast_int _ =? -1)); cbn; [reflexivity |].
  unfold IsError; cbn.
  destruct (negb (r_errno _ =? sNotAnError)); reflexivity.
Qed.

(** C6.  [Update] on an event with the errored bit throws a [system_error]
    at once, whatever the other bits are: with the code [GetError] read from
    the socket, or, when the query itself fails, with the code of that
    failure; the flags are untouched.  Otherwise, on an event with the
    invalid or the peer-closed bit it returns false, throws nothing, makes no
    system call and leaves the flags as they were.  Otherwise it returns
    true with the event's readable and writable bits or-ed into the cached
    flags. *)
Theorem C6_Update_cases
  {platform : Platform} (os : OS) (s : Socket.t) (res : event.Result.t) (w : World) :
  (event.Result.IsErrored res = true ->
     exists code w',
       Socket.Update os res (s, w) = (Throw (system_error code), (s, w')) /\
       (Socket.GetError os s w = (Return code, w') \/
        Socket.GetError os s w = (Throw (system_error code), w'))) /\
  (event.Result.IsErrored res = false ->
   event.Result.IsInvalid res || event.Result.IsClosed res = true ->
     Socket.Update os res (s, w) = (Return false, (s, w))) /\
  (event.Result.IsErrored res = false ->
   event.Result.IsInvalid res || event.Result.IsClosed res = false ->
     Socket.Update os res (s, w) =
     (Return true,
      ({| Socket.mDescriptor := Socket.mDescriptor s;
          Socket.mIsReadable := Socket.mIsReadable s || event.Result.IsReadable res;
          Socket.mIsWritable := Socket.mIsWritable s || event.Result.IsWritable res;
          Socket.mIsNonBlocking := Socket.mIsNonBlocking s |}, w))).
Proof.
  unfold Socket.Update. repeat split.
  - intros ->. unfold bind, Socket.const_method. cbn [fst snd].
    pose proof (GetError_run os s w) as Hrun. cbv zeta in Hrun.
    rewrite Hrun.
    destruct (IsError _); cbn; eauto.
  - intros -> ->. reflexivity.
  - intros -> ->. destruct s as [d r wr nb]; cbn.
    destruct (event.Result.IsReadable res), (event.Result.IsWritable res);
      cbn; rewrite ?orb_true_r, ?orb_false_r; reflexivity.
Qed.

(** ** The poll list *)

Lemma to_size_t_int (idx : Z) :
  INT_MIN <= idx <= INT_MAX ->
  to_size_t idx = if idx <? 0 then idx + 2 ^ 64 else idx.
Proof.
  unfold to_size_t, INT_MIN, INT_MAX. intros Hi.
  destruct (Z.ltb_spec idx 0).
  - symmetry. apply Z.mod_unique_pos with (q := -1); lia.
  - apply Z.mod_small. lia.
Qed.

Lemma GetSize_length (p : event.Poller.t) :
  Z.of_nat (length (event.Poller.mPollList p)) <= INT_MAX ->
  event.Poller.GetSize p = Z.of_nat (length (event.Poller.mPollList p)).
Proof.
  intros Hp. apply static_cast_int_id. unfold INT_MIN. lia.
Qed.



(** ** The address record *)

Section AddressFacts.
Context {platform : Platform}.

Lemma sMaxSize_eq : LocalAddress.sMaxSize = sizeof_sockaddr_un.
Proof.
  pose proof sockaddr_un_layout as (H1 & H2 & H3).
  unfold LocalAddress.sMaxSize, to_socklen_t. apply Z.mod_small. lia.
Qed.

Lemma sPathOffset_eq :
  LocalAddress.sPathOffset = sizeof_sockaddr_un - sizeof_sun_path.
Proof.
  pose proof sockaddr_un_layout as (H1 & H2 & H3).
  unfold LocalAddress.sPathOffset. rewrite sMaxSize_eq.
  unfold to_socklen_t. apply Z.mod_small. lia.
Qed.

Lemma capacity_eq : LocalAddress.capacity = sizeof_sun_path - 1.
Proof.
  unfold LocalAddress.capacity. rewrite sMaxSize_eq, sPathOffset_eq. lia.
Qed.

Lemma length_list_ascii_of_string (s : string) :
  length (list_ascii_of_string s) = String.length s.
Proof. induction s as [| c s IH]; cbn; [reflexivity | now rewrite IH]. Qed.

Lemma length_strncpy_chars (src : list ascii) (n : nat) :
  length (strncpy_chars src n) = n.
Proof.
  revert src. induction n as [| n IH]; intros src; [reflexivity |].
  cbn [strncpy_chars]. destruct src as [| c src].
  - apply length_replicate.
  - destruct (Ascii.eqb c NUL); [apply length_replicate |].
    cbn. now rewrite IH.
Qed.

(** What [strncpy] copies from a string of exactly [n] characters: the part
    before the first NUL, and NULs up to [n]. *)
Lemma strncpy_chars_string (s : string) :
  strncpy_chars (list_ascii_of_string s) (String.length s) =
  list_ascii_of_string (until_nul s) ++
  replicate (String.length s - String.length (until_nul s)) NUL.
Proof.
  induction s as [| c s IH]; [reflexivity |].
  cbn [list_ascii_of_string String.length strncpy_chars until_nul].
  destruct (Ascii.eqb c NUL); [reflexivity |].
  cbn. now rewrite IH.
Qed.

Lemma until_nul_nul_free (s : string) : nul_free s = true -> until_nul s = s.
Proof.
  induction s as [| c s IH]; [reflexivity |]. cbn.
  destruct (Ascii.eqb c NUL); cbn; [discriminate |].
  intros H. now rewrite IH.
Qed.

Lemma nul_free_until_nul (s : string) : nul_free (until_nul s) = true.
Proof.
  induction s as [| c s IH]; [reflexivity |]. cbn.
  destruct (Ascii.eqb c NUL) eqn:E; [reflexivity |]. cbn. now rewrite E.
Qed.

Lemma length_until_nul (s : string) :
  (String.length (until_nul s) <= String.length s)%nat.
Proof.
  induction s as [| c s IH]; cbn; [lia |].
  destruct (Ascii.eqb c NUL); cbn; lia.
Qed.

(** Reading a C string stops at the first NUL. *)
Lemma c_str_terminated (s : string) (rest : list ascii) :
  nul_free s = true ->
  c_str (list_ascii_of_string s ++ NUL :: rest) = Some s.
Proof.
  induction s as [| c s IH]; [reflexivity |]. cbn.
  destruct (Ascii.eqb c NUL); cbn; [discriminate |].
  intros H. now rewrite IH.
Qed.

(** The record the constructor builds from a path that passes its checks. *)
Lemma make_run (path : string) :
  let n := String.length path in
  (0 < n)%nat -> Z.of_nat n <= LocalAddress.capacity ->
  LocalAddress.make path =
  Return {|
    LocalAddress.mSize := LocalAddress.sPathOffset + Z.of_nat n + 1;
    LocalAddress.mAddress := {|
      sun_family := AF_UNIX;
      sun_path :=
        list_ascii_of_string (until_nul path) ++
        NUL :: replicate (Z.to_nat sizeof_sun_path - String.length (until_nul path) - 1) NUL
    |}
  |}.
Proof.
  intros n Hpos Hcap. rewrite capacity_eq in Hcap.
  pose proof sockaddr_un_layout as (H1 & H2 & H3).
  pose proof (length_until_nul path) as Hu. fold n in Hu.
  unfold LocalAddress.make. fold n.
  destruct (Nat.eqb_spec n 0); [lia |].
  assert (Hsize : to_socklen_t (LocalAddress.sPathOffset + Z.of_nat n + 1)
                  = LocalAddress.sPathOffset + Z.of_nat n + 1).
  { rewrite sPathOffset_eq. unfold to_socklen_t. apply Z.mod_small. lia. }
  rewrite Hsize.
  destruct (Z.gtb_spec (LocalAddress.sPathOffset + Z.of_nat n + 1) LocalAddress.sMaxSize)
    as [Hgt |_]; [rewrite sPathOffset_eq, sMaxSize_eq in Hgt; lia |].
  destruct (Z.ltb_spec (Z.of_nat n) sizeof_sun_path); [| lia].
  do 3 f_equal. unfold LocalAddress.sFamily. f_equal.
  unfold n. rewrite strncpy_chars_string. fold n.
  cbn [LocalAddress.zeroed sun_path]. rewrite drop_replicate.
  set (k := String.length (until_nul path)) in *.
  rewrite <- (app_assoc _ _ _), <- replicate_add.
  replace (n - k + (Z.to_nat sizeof_sun_path - n))%nat
    with (S (Z.to_nat sizeof_sun_path - k - 1)) by lia.
  assert (Hk : length (list_ascii_of_string (until_nul path)) = k)
    by apply length_list_ascii_of_string.
  rewrite insert_app_r_alt by lia. rewrite insert_replicate. reflexivity.
Qed.

(** The size is reduced modulo 2^32 before it is compared: a path so long
    that the sum wraps around to at most [sMaxSize] passes both checks, and
    the copy then runs past the end of [sun_path]. *)
Lemma make_size_wraps (path : string) :
  let n := Z.of_nat (String.length path) in
  2 ^ 32 <= LocalAddress.sPathOffset + n + 1 <= 2 ^ 32 + LocalAddress.sMaxSize ->
  LocalAddress.make path = Undefined.
Proof.
  intros n [Hlo Hhi].
  pose proof sockaddr_un_layout as (H1 & H2 & H3).
  rewrite sPathOffset_eq in Hlo, Hhi. rewrite sMaxSize_eq in Hhi.
  unfold LocalAddress.make. fold n.
  destruct (Nat.eqb_spec (String.length path) 0); [lia |].
  assert (Hsize : to_socklen_t (LocalAddress.sPathOffset + n + 1)
                  = LocalAddress.sPathOffset + n + 1 - 2 ^ 32).
  { rewrite sPathOffset_eq. unfold to_socklen_t.
    symmetry. apply Z.mod_unique_pos with (q := 1); lia. }
  rewrite Hsize.
  destruct (Z.gtb_spec (LocalAddress.sPathOffset + n + 1 - 2 ^ 32)
              LocalAddress.sMaxSize) as [Hgt | _];
    [rewrite sPathOffset_eq, sMaxSize_eq in Hgt; lia |].
  destruct (Z.ltb_spec n sizeof_sun_path); [lia | reflexivity].
Qed.

End AddressFacts.

Section AddressClaims.
Context {platform : Platform}.

(** A path of at least one and at most [capacity] bytes builds
    an address whose record is NUL-terminated at the path's length and whose
    path accessor, read as the C string it points at, yields the path up to
    its first NUL byte: the path itself when it holds no NUL byte.  The
    empty path throws [invalid_argument].  A path longer than [capacity]
    throws [length_error], as long as the size computed for it fits the
    32-bit [socklen_t] it is stored in. *)
Theorem address_round_trip (path : string) :
  (path = EmptyString ->
     LocalAddress.make path = Throw (invalid_argument "path empty")) /\
  (path <> EmptyString ->
   Z.of_nat (String.length path) <= LocalAddress.capacity ->
     exists a,
       LocalAddress.make path = Return a /\
       LocalAddress.GetPath a = Some (until_nul path) /\
       (nul_free path = true -> LocalAddress.GetPath a = Some path) /\
       sun_path (LocalAddress.mAddress a) !! String.length path = Some NUL /\
       Z.of_nat (length (sun_path (LocalAddress.mAddress a))) = sizeof_sun_path /\
       LocalAddress.GetSize a <= LocalAddress.sMaxSize /\
       LocalAddress.IsValid a = true) /\
  (LocalAddress.capacity < Z.of_nat (String.length path) ->
   LocalAddress.sPathOffset + Z.of_nat (String.length path) + 1 < 2 ^ 32 ->
     LocalAddress.make path = Throw (length_error "path too long")).
Proof.
  pose proof sockaddr_un_layout as (H1 & H2 & H3).
  split; [intros ->; reflexivity |].
  split.
  - intros Hne Hcap.
    assert (Hpos : (0 < String.length path)%nat)
      by (destruct path; [contradiction | cbn; lia]).
    eexists. split; [apply make_run; assumption |].
    pose proof (length_until_nul path) as Hu.
    pose proof Hcap as Hcap'. rewrite capacity_eq in Hcap'.
    assert (Hget : c_str (list_ascii_of_string (until_nul path) ++
                          NUL :: replicate
                            (Z.to_nat sizeof_sun_path
                             - String.length (until_nul path) - 1) NUL)
                   = Some (until_nul path))
      by apply c_str_terminated, nul_free_until_nul.
    unfold LocalAddress.GetPath, LocalAddress.GetSize, LocalAddress.IsValid.
    cbn [LocalAddress.mAddress LocalAddress.mSize sun_path sun_family].
    split; [exact Hget |].
    split; [intros Hfree; rewrite Hget; f_equal; apply until_nul_nul_free, Hfree |].
    split.
    { rewrite lookup_app_r
        by (rewrite length_list_ascii_of_string; exact Hu).
      rewrite length_list_ascii_of_string.
      apply (lookup_replicate_2 (S _) NUL). lia. }
    split.
    { rewrite length_app, length_list_ascii_of_string. cbn [length].
      rewrite length_replicate. lia. }
    split.
    { rewrite sPathOffset_eq, sMaxSize_eq. lia. }
    unfold LocalAddress.sFamily. apply Z.eqb_refl.
  - intros Hcap Hfit. rewrite capacity_eq in Hcap.
    unfold LocalAddress.make.
    destruct (Nat.eqb_spec (String.length path) 0); [lia |].
    assert (Hsize : to_socklen_t (LocalAddress.sPathOffset
                                  + Z.of_nat (String.length path) + 1)
                    = LocalAddress.sPathOffset + Z.of_nat (String.length path) + 1).
    { unfold to_socklen_t. apply Z.mod_small.
      rewrite sPathOffset_eq in *. lia. }
    rewrite Hsize.
    destruct (Z.gtb_spec (LocalAddress.sPathOffset
                          + Z.of_nat (String.length path) + 1)
                LocalAddress.sMaxSize) as [_ | Hle]; [reflexivity |].
    rewrite sPathOffset_eq, sMaxSize_eq in Hle. lia.
Qed.

End AddressClaims.

(** A path with a NUL byte inside is cut at that byte: the three bytes
    'a', NUL, 'b' fit the record, the constructor accepts them, and the path
    accessor then reads back the one-byte string "a". *)
Lemma embedded_nul_truncates :
  let path := String "a" (String NUL (String "b" EmptyString)) in
  path <> EmptyString /\
  Z.of_nat (String.length path) <= LocalAddress.capacity (platform := linux) /\
  exists a,
    LocalAddress.make (platform := linux) path = Return a /\
    LocalAddress.GetPath a = Some "a"%string /\
    LocalAddress.GetPath a <> Some path.
Proof.
  cbv zeta. split; [discriminate |]. split; [vm_compute; discriminate |].
  eexists. split; [vm_compute; reflexivity |].
  split; [vm_compute; reflexivity | vm_compute; discriminate].
Qed.

(** ** The length check at the top of the size range *)

Lemma length_string_of_list_ascii (l : list ascii) :
  String.length (string_of_list_ascii l) = length l.
Proof. induction l as [| c l IH]; cbn; [reflexivity | now rewrite IH]. Qed.

Lemma nul_free_replicate (n : nat) (c : ascii) :
  c <> NUL -> nul_free (string_of_list_ascii (replicate n c)) = true.
Proof.
  intros Hc. induction n as [| n IH]; [reflexivity |].
  cbn [replicate string_of_list_ascii nul_free]. rewrite IH.
  destruct (Ascii.eqb_spec c NUL); [contradiction | reflexivity].
Qed.

Lemma length_huge_path :
  Z.of_nat (String.length Faults.huge_path) = 2 ^ 32 - 3.
Proof.
  unfold Faults.huge_path.
  rewrite length_string_of_list_ascii, length_replicate.
  apply Z2Nat.id. lia.
Qed.

(** C8.  The constructor fails the claim on a path inside the claim's
    domain.  The path of 2^32 - 3 bytes 'a' holds no NUL byte and is longer
    than the capacity of the record, so the claim has it fail with
    [length_error].  On Linux the size computed for it, 2 + (2^32 - 3) + 1,
    is stored in the 32-bit [socklen_t] as 0, which is not above
    [sMaxSize]: neither check throws, and the copy runs past the end of
    [sun_path]. *)
Theorem C8_length_check_wraps :
  nul_free Faults.huge_path = true /\
  Faults.huge_path <> EmptyString /\
  LocalAddress.capacity (platform := linux)
    < Z.of_nat (String.length Faults.huge_path) /\
  to_socklen_t (LocalAddress.sPathOffset (platform := linux)
                + Z.of_nat (String.length Faults.huge_path) + 1) = 0 /\
  LocalAddress.make (platform := linux) Faults.huge_path = Undefined /\
  LocalAddress.make (platform := linux) Faults.huge_path
    <> Throw (length_error "path too long").
Proof.
  pose proof length_huge_path as Hlen.
  pose proof (sPathOffset_eq (platform := linux)) as Hoff.
  pose proof (sMaxSize_eq (platform := linux)) as Hmax.
  pose proof (capacity_eq (platform := linux)) as Hcap.
  change (@sizeof_sockaddr_un linux) with 110 in *.
  change (@sizeof_sun_path linux) with 108 in *.
  assert (Hmake : LocalAddress.make (platform := linux) Faults.huge_path
                  = Undefined).
  { apply (make_size_wraps (platform := linux) Faults.huge_path).
    rewrite Hlen, Hoff, Hmax. lia. }
  split; [unfold Faults.huge_path; apply nul_free_replicate; discriminate |].
  split.
  { intros Hempty. rewrite Hempty in Hlen. cbn in Hlen. lia. }
  split; [rewrite Hcap, Hlen; lia |].
  split; [rewrite Hlen, Hoff; reflexivity |].
  split; [exact Hmake |].
  rewrite Hmake. discriminate.
Qed.

(** ** Opening a socket *)

Section OpenFacts.
Context {platform : Platform}.
Variable os : OS.

Lemma SetNonBlocking_object (s : Socket.t) (w : World) :
  fst (snd (Socket.SetNonBlocking os (s, w))) = Socket.set_mIsNonBlocking true s.
Proof.
  unfold Socket.SetNonBlocking, bind, Socket.const_method, on_fst, get, put.
  cbn [fst snd].
  destruct (Socket.GetStatusFlags os _ w) as [[flags | e |] w1]; try reflexivity.
  cbn [fst snd].
  destruct (Socket.SetStatusFlags os _ _ w1) as [[[] | e |] w2]; reflexivity.
Qed.

(** What [SysCall(...).Unwrap()] returns is never the failure sentinel. *)
Lemma Unwrap_SysCall_result {S} (raw errno : Z) (st st' : S) (d : Z) :
  Unwrap (SysCall_result raw errno) st = (Return d, st') ->
  d <> -1 /\ st' = st.
Proof.
  unfold Unwrap, SysCall_result, IsError.
  destruct (Z.eqb_spec (static_cast_int raw) (-1)) as [He | Hne]; cbn.
  - destruct (errno =? sNotAnError); cbn; [| discriminate].
    intros H. injection H as <- <-. split; [discriminate | reflexivity].
  - intros H. injection H as <- <-. split; [exact Hne | reflexivity].
Qed.

(** A socket that [Socket(int, int, int)] returns holds a descriptor other
    than the sentinel and is in non-blocking mode. *)
Lemma open_returns_valid (domain type protocol : Z) (w w' : World) (self : Socket.t) :
  Socket.open os domain type protocol w = (Return self, w') ->
  Socket.mDescriptor self <> Socket.sInvalidSocket /\
  Socket.mIsNonBlocking self = true.
Proof.
  unfold Socket.open, bind. rewrite SysCall_run. cbn [fst snd].
  match goal with
  | |- context [@Unwrap ?S ?r ?st] =>
      destruct (@Unwrap S r st) as [[d | e |] w1] eqn:Hunwrap;
      try (intros H; discriminate H)
  end.
  apply Unwrap_SysCall_result in Hunwrap as [Hd ->].
  pose proof (SetNonBlocking_object (Socket.initial d)
                (w ++ [sys_socket domain type protocol])) as Hobj.
  destruct (Socket.SetNonBlocking os _) as [[[] | e |] [s1 w2]];
    try (intros H; discriminate H).
  cbn [fst snd] in Hobj. cbv beta iota. intros H. injection H as <- _. subst s1.
  split; [exact Hd | reflexivity].
Qed.

Lemma make_path_returns_valid (path : string) (w w' : World) (self : LocalSocket.t) :
  LocalSocket.make_path os path w = (Return self, w') ->
  Socket.mDescriptor (LocalSocket.base self) <> Socket.sInvalidSocket.
Proof.
  unfold LocalSocket.make_path, bind.
  destruct (Socket.open os _ _ _ w) as [[b | e |] w1] eqn:Hopen;
    try (intros H; discriminate H).
  apply open_returns_valid in Hopen as [Hd _].
  destruct (unwind _ _ w1) as [[address | e |] w2];
    try (intros H; discriminate H).
  cbv beta iota. intros H. injection H as <- _. exact Hd.
Qed.

End OpenFacts.

(** ** Destruction and connection *)

Section ConnectClaims.
Context {platform : Platform}.
Variable os : OS.

(** [~Socket()] never throws; it closes a descriptor other than the
    sentinel with one call and does nothing for the sentinel. *)
Lemma destroy_run (s : Socket.t) (w : World) :
  Socket.destroy os s w =
  (Return tt,
   if Socket.mDescriptor s =? Socket.sInvalidSocket then w
   else w ++ [sys_close (Socket.mDescriptor s)]).
Proof.
  unfold Socket.destroy.
  destruct (Socket.mDescriptor s =? Socket.sInvalidSocket); reflexivity.
Qed.

(** [Connect] goes through [SysCall], which knows success and failure only. *)
Lemma Connect_run (self : LocalSocket.t) (w : World) :
  let call :=
    sys_connect (Socket.mDescriptor (LocalSocket.base self))
      (LocalAddress.mAddress (LocalSocket.mAddress self))
      (LocalAddress.mSize (LocalSocket.mAddress self)) in
  let out := os w call in
  LocalSocket.Connect os self w =
  (if static_cast_int (r_ret out) =? -1
   then if r_errno out =? sNotAnError then Return tt
        else Throw (system_error (r_errno out))
   else Return tt,
   w ++ [call]).
Proof.
  cbv zeta. unfold LocalSocket.Connect, bind. rewrite SysCall_run.
  cbn [fst snd]. unfold SysCall_result, Unwrap, IsError,
    LocalAddress.GetSize, Socket.GetDescriptor.
  destruct (static_cast_int _ =? -1); cbn; [| reflexivity].
  destruct (r_errno _ =? sNotAnError); reflexivity.
Qed.

(** C3, amended.  Once the socket is open and the address built, a
    [connect] that returns -1 makes the constructor throw a [system_error]
    carrying the [errno] of the call, whatever that code is, would-block and
    try-again included; before the exception leaves, the socket just built
    is destroyed, which closes its descriptor.  The constructor has no
    "no progress yet" outcome. *)
Theorem C3_connect_failure_throws
  (path : string) (w w1 : World) (self : LocalSocket.t) :
  LocalSocket.make_path os path w = (Return self, w1) ->
  let call :=
    sys_connect (Socket.mDescriptor (LocalSocket.base self))
      (LocalAddress.mAddress (LocalSocket.mAddress self))
      (LocalAddress.mSize (LocalSocket.mAddress self)) in
  let out := os w1 call in
  static_cast_int (r_ret out) = -1 ->
  r_errno out <> sNotAnError ->
  LocalConnectorSocket.make_path os path w =
  (Throw (system_error (r_errno out)),
   w1 ++ [call; sys_close (Socket.mDescriptor (LocalSocket.base self))]).
Proof.
  intros Hmake call out Hret Herrno.
  unfold LocalConnectorSocket.make_path, bind at 1. rewrite Hmake.
  unfold bind, unwind.
  pose proof (Connect_run self w1) as Hc. cbv zeta in Hc.
  fold call in Hc. fold out in Hc. rewrite Hc, Hret. cbn [Z.eqb Pos.eqb].
  destruct (Z.eqb_spec (r_errno out) sNotAnError); [contradiction |].
  unfold LocalSocket.destroy. rewrite destroy_run.
  destruct (Z.eqb_spec (Socket.mDescriptor (LocalSocket.base self))
              Socket.sInvalidSocket) as [Hinvalid | _].
  - apply make_path_returns_valid in Hmake. contradiction.
  - rewrite <- app_assoc. reflexivity.
Qed.

End ConnectClaims.

(** C3 as stated fails: on a system whose [connect] reports [EAGAIN], as a
    local socket's does while the listener's queue is full, constructing the
    connector throws [system_error] with that code, after closing the socket
    it had opened. *)
Lemma C3_counterexample_would_block_throws :
  LocalConnectorSocket.make_path (platform := linux) Systems.os_would_block
    "/tmp/x.sock" [] =
  (Throw (system_error (EAGAIN (Platform := linux))),
   [sys_socket 1 5 0; sys_fcntl 3 3 0; sys_fcntl 3 4 2048;
    sys_connect 3
      {| sun_family := 1;
         sun_path := list_ascii_of_string "/tmp/x.sock" ++ replicate 97 NUL |}
      14;
    sys_close 3]).
Proof. vm_compute. reflexivity. Qed.

(** ** What a call leaves of the object *)

Lemma keeps_fst_ret {S T A} (a : A) : keeps_fst (S := S) (T := T) (ret a).
Proof. intros st; reflexivity. Qed.

Lemma keeps_fst_throw {S T A} (e : exception) :
  keeps_fst (S := S) (T := T) (A := A) (throw e).
Proof. intros st; reflexivity. Qed.

Lemma keeps_fst_Unwrap {S T} (r : SysReturn) :
  keeps_fst (S := S) (T := T) (Unwrap r).
Proof. intros st. unfold Unwrap. destruct (IsError r); reflexivity. Qed.

Lemma keeps_fst_on_snd {S T A} (m : Prog T A) : keeps_fst (S := S) (on_snd m).
Proof. intros st. unfold on_snd. destruct (m (snd st)); reflexivity. Qed.

Lemma keeps_fst_get {S T} : keeps_fst (S := S) (T := T) (on_fst get).
Proof. intros st; reflexivity. Qed.

Lemma keeps_fst_bind {S T A B} (m : Prog (S * T) A) (k : A -> Prog (S * T) B) :
  keeps_fst m -> (forall a, keeps_fst (k a)) -> keeps_fst (bind m k).
Proof.
  intros Hm Hk st. unfold bind. specialize (Hm st).
  destruct (m st) as [[a | e |] st']; cbn in *; [| assumption | assumption].
  rewrite Hk. assumption.
Qed.

(** After [m ;; k] with [k] leaving the object alone, the object is as [m]
    left it. *)
Lemma bind_keeps_tail {S T A B}
  (m : Prog (S * T) A) (k : A -> Prog (S * T) B) (st : S * T) :
  (forall a, keeps_fst (k a)) ->
  fst (snd (bind m k st)) = fst (snd (m st)).
Proof.
  intros Hk. unfold bind.
  destruct (m st) as [[a | e |] st']; cbn; [apply Hk | reflexivity | reflexivity].
Qed.

Section FlagClaims.
Context {platform : Platform}.
Variable os : OS.

Lemma TrySend_object (buf n : Z) (s : LocalSocket.t) (w : World) :
  fst (snd (LocalConnectorSocket.TrySend os buf n (s, w))) =
  {| LocalSocket.base := Socket.set_mIsWritable false (LocalSocket.base s);
     LocalSocket.mAddress := LocalSocket.mAddress s |}.
Proof.
  unfold LocalConnectorSocket.TrySend. rewrite bind_keeps_tail; [reflexivity |].
  intros ready. destruct ready; cbn [negb]; [| apply keeps_fst_ret].
  apply keeps_fst_bind; [apply keeps_fst_get |]. intros self.
  apply keeps_fst_bind; [apply keeps_fst_on_snd |]. intros p.
  destruct (fst p); [| apply keeps_fst_ret].
  apply keeps_fst_bind; [apply keeps_fst_Unwrap |]. intros k.
  apply keeps_fst_ret.
Qed.

Lemma TryRecv_object (buf n : Z) (s : LocalSocket.t) (w : World) :
  fst (snd (LocalConnectorSocket.TryRecv os buf n (s, w))) =
  {| LocalSocket.base := Socket.set_mIsReadable false (LocalSocket.base s);
     LocalSocket.mAddress := LocalSocket.mAddress s |}.
Proof.
  unfold LocalConnectorSocket.TryRecv. rewrite bind_keeps_tail; [reflexivity |].
  intros ready. destruct ready; cbn [negb]; [| apply keeps_fst_ret].
  apply keeps_fst_bind; [apply keeps_fst_get |]. intros self.
  apply keeps_fst_bind; [apply keeps_fst_on_snd |]. intros p.
  destruct (fst p); [| apply keeps_fst_ret].
  apply keeps_fst_bind; [apply keeps_fst_Unwrap |]. intros k.
  apply keeps_fst_ret.
Qed.

(** Past the gate [TrySend] makes the one [send] call and turns its
    outcome into a count, the empty optional or a [system_error]. *)
Lemma TrySend_gate_open (buf n : Z) (s : LocalSocket.t) (w : World) :
  Socket.mIsWritable (LocalSocket.base s)
  || negb (Socket.mIsNonBlocking (LocalSocket.base s)) = true ->
  let call := sys_send (Socket.mDescriptor (LocalSocket.base s)) buf n 0 in
  let out := os w call in
  LocalConnectorSocket.TrySend os buf n (s, w) =
  (match SysCallBlocking_result (r_ret out) (r_errno out) with
   | Some bytesSent =>
       if IsError bytesSent then Throw (system_error (mCode bytesSent))
       else Return (Some (mValue bytesSent))
   | None => Return None
   end,
   ({| LocalSocket.base := Socket.set_mIsWritable false (LocalSocket.base s);
       LocalSocket.mAddress := LocalSocket.mAddress s |},
    w ++ [call])).
Proof.
  intros Hgate. cbv zeta.
  unfold LocalConnectorSocket.TrySend, bind, LocalSocket.on_base_only,
    LocalSocket.on_base, on_fst, on_snd.
  cbn [fst snd]. rewrite GetAndResetIsWritable_run, Hgate. cbn [negb get fst snd].
  rewrite SysCallBlocking_run. cbn [fst snd Socket.GetDescriptor
    LocalSocket.base Socket.mDescriptor Socket.set_mIsWritable].
  destruct (SysCallBlocking_result _ _) as [r |]; [| reflexivity].
  unfold Unwrap, ThrowCode, throw, ret. destruct (IsError r); reflexivity.
Qed.

Lemma TryRecv_gate_open (buf n : Z) (s : LocalSocket.t) (w : World) :
  Socket.mIsReadable (LocalSocket.base s)
  || negb (Socket.mIsNonBlocking (LocalSocket.base s)) = true ->
  let call := sys_recv (Socket.mDescriptor (LocalSocket.base s)) buf n 0 in
  let out := os w call in
  LocalConnectorSocket.TryRecv os buf n (s, w) =
  (match SysCallBlocking_result (r_ret out) (r_errno out) with
   | Some bytesRecv =>
       if IsError bytesRecv then Throw (system_error (mCode bytesRecv))
       else Return (Some (mValue bytesRecv))
   | None => Return None
   end,
   ({| LocalSocket.base := Socket.set_mIsReadable false (LocalSocket.base s);
       LocalSocket.mAddress := LocalSocket.mAddress s |},
    w ++ [call])).
Proof.
  intros Hgate. cbv zeta.
  unfold LocalConnectorSocket.TryRecv, bind, LocalSocket.on_base_only,
    LocalSocket.on_base, on_fst, on_snd.
  cbn [fst snd]. rewrite GetAndResetIsReadable_run, Hgate. cbn [negb get fst snd].
  rewrite SysCallBlocking_run. cbn [fst snd Socket.GetDescriptor
    LocalSocket.base Socket.mDescriptor Socket.set_mIsReadable].
  destruct (SysCallBlocking_result _ _) as [r |]; [| reflexivity].
  unfold Unwrap, ThrowCode, throw, ret. destruct (IsError r); reflexivity.
Qed.

Lemma Accept_object (s : LocalSocket.t) (w : World) :
  fst (snd (LocalAcceptorSocket.Accept os (s, w))) =
  {| LocalSocket.base := Socket.set_mIsReadable false (LocalSocket.base s);
     LocalSocket.mAddress := LocalSocket.mAddress s |}.
Proof.
  unfold LocalAcceptorSocket.Accept. rewrite bind_keeps_tail; [reflexivity |].
  intros ready. destruct ready; cbn [negb]; [| apply keeps_fst_ret].
  apply keeps_fst_bind; [apply keeps_fst_get |]. intros self.
  apply keeps_fst_bind; [apply keeps_fst_on_snd |]. intros p.
  destruct (fst p); [| apply keeps_fst_ret].
  apply keeps_fst_bind; [apply keeps_fst_Unwrap |]. intros descriptor.
  apply keeps_fst_bind; [apply keeps_fst_on_snd |]. intros temporary.
  destruct (LocalSocket.move temporary) as [stored moved_from].
  apply keeps_fst_bind; [apply keeps_fst_on_snd |]. intros _.
  apply keeps_fst_ret.
Qed.

(** Past the gate, an [accept] that would block makes [Accept] return the
    empty optional after that one call. *)
Lemma Accept_would_block (s : LocalSocket.t) (w : World) :
  Socket.mIsReadable (LocalSocket.base s)
  || negb (Socket.mIsNonBlocking (LocalSocket.base s)) = true ->
  let call := sys_accept (Socket.mDescriptor (LocalSocket.base s))
                LocalAddress.sMaxSize in
  would_block (os w call) = true ->
  LocalAcceptorSocket.Accept os (s, w) =
  (Return None,
   ({| LocalSocket.base := Socket.set_mIsReadable false (LocalSocket.base s);
       LocalSocket.mAddress := LocalSocket.mAddress s |},
    w ++ [call])).
Proof.
  intros Hgate call Hblock.
  unfold LocalAcceptorSocket.Accept, bind, LocalSocket.on_base_only,
    LocalSocket.on_base, on_fst, on_snd.
  cbn [fst snd]. rewrite GetAndResetIsReadable_run, Hgate. cbn [negb get fst snd].
  rewrite SysCallBlocking_run. cbn [fst snd Socket.GetDescriptor
    LocalSocket.base Socket.mDescriptor Socket.set_mIsReadable
    LocalAddress.GetSizePtr LocalAddress.mSize].
  fold call. rewrite (SysCallBlocking_result_would_block _ Hblock). reflexivity.
Qed.

(** [Update] never clears a flag and never touches the descriptor or the
    mode. *)
Lemma Update_object (res : event.Result.t) (s : Socket.t) (w : World) :
  let s' := fst (snd (Socket.Update os res (s, w))) in
  Socket.mDescriptor s' = Socket.mDescriptor s /\
  Socket.mIsNonBlocking s' = Socket.mIsNonBlocking s /\
  (Socket.mIsReadable s = true -> Socket.mIsReadable s' = true) /\
  (Socket.mIsWritable s = true -> Socket.mIsWritable s' = true).
Proof.
  cbv zeta. unfold Socket.Update.
  destruct (event.Result.IsErrored res).
  { unfold bind, Socket.const_method. cbn [fst snd].
    destruct (Socket.GetError os s w) as [[code | e |] w']; cbn; tauto. }
  destruct (event.Result.IsInvalid res || event.Result.IsClosed res);
    [cbn; tauto |].
  destruct s as [d r wr nb].
  destruct (event.Result.IsReadable res), (event.Result.IsWritable res);
    cbn; tauto.
Qed.

Lemma perform_clears_readable (c : Caller.Call) (st : LocalSocket.t * World) :
  Caller.gated_on_readable c = true ->
  Caller.readable (Caller.perform os c st) = false.
Proof.
  destruct st as [s w].
  destruct c as [res | buf n | buf n |]; cbn [Caller.gated_on_readable];
    try discriminate; intros _; unfold Caller.readable, Caller.perform.
  - rewrite TryRecv_object. reflexivity.
  - rewrite Accept_object. reflexivity.
Qed.

Lemma perform_clears_writable (c : Caller.Call) (st : LocalSocket.t * World) :
  Caller.gated_on_writable c = true ->
  Caller.writable (Caller.perform os c st) = false.
Proof.
  destruct st as [s w].
  destruct c as [res | buf n | buf n |]; cbn [Caller.gated_on_writable];
    try discriminate; intros _; unfold Caller.writable, Caller.perform.
  rewrite TrySend_object. reflexivity.
Qed.

Lemma perform_keeps_readable (c : Caller.Call) (st : LocalSocket.t * World) :
  Caller.gated_on_readable c = false ->
  Caller.readable st = true ->
  Caller.readable (Caller.perform os c st) = true.
Proof.
  destruct st as [s w]. unfold Caller.readable. cbn [fst].
  destruct c as [res | buf n | buf n |]; cbn [Caller.gated_on_readable];
    try discriminate; intros _ Hr; unfold Caller.perform.
  - unfold LocalSocket.on_base. cbn [fst snd].
    pose proof (Update_object res (LocalSocket.base s) w) as (_ & _ & Hk & _).
    destruct (Socket.Update os res (LocalSocket.base s, w)) as [o [b w']].
    cbn in *. apply Hk, Hr.
  - rewrite TrySend_object. cbn. destruct s as [[d r wr nb] a]. exact Hr.
Qed.

Lemma perform_keeps_writable (c : Caller.Call) (st : LocalSocket.t * World) :
  Caller.gated_on_writable c = false ->
  Caller.writable st = true ->
  Caller.writable (Caller.perform os c st) = true.
Proof.
  destruct st as [s w]. unfold Caller.writable. cbn [fst].
  destruct c as [res | buf n | buf n |]; cbn [Caller.gated_on_writable];
    try discriminate; intros _ Hr; unfold Caller.perform.
  - unfold LocalSocket.on_base. cbn [fst snd].
    pose proof (Update_object res (LocalSocket.base s) w) as (_ & _ & _ & Hk).
    destruct (Socket.Update os res (LocalSocket.base s, w)) as [o [b w']].
    cbn in *. apply Hk, Hr.
  - rewrite TryRecv_object. cbn. destruct s as [[d r wr nb] a]. exact Hr.
  - rewrite Accept_object. cbn. destruct s as [[d r wr nb] a]. exact Hr.
Qed.

(** C1, amended.  A cached flag that is set stays set across every sequence
    of [Update] calls and of attempts gated on the other flag ([TrySend] for
    the readable flag; [TryRecv] and [Accept] for the writable flag).  The
    first attempt gated on the flag itself clears it, whatever that attempt
    then does: return a count, return the empty optional, or throw.  In
    particular, when the flag is set and the system call itself reports
    would-block, the attempt returns the empty optional, and the flag is
    clear for the next attempt. *)
Theorem C1_flag_until_first_gated_attempt
  (calls : list Caller.Call) (st : LocalSocket.t * World) :
  (Caller.readable st = true ->
   forallb (fun c => negb (Caller.gated_on_readable c)) calls = true ->
     Caller.readable (Caller.perform_all os calls st) = true) /\
  (Caller.writable st = true ->
   forallb (fun c => negb (Caller.gated_on_writable c)) calls = true ->
     Caller.writable (Caller.perform_all os calls st) = true) /\
  (forall c, Caller.gated_on_readable c = true ->
     Caller.readable (Caller.perform os c st) = false) /\
  (forall c, Caller.gated_on_writable c = true ->
     Caller.writable (Caller.perform os c st) = false) /\
  (forall buf n,
     Caller.writable st = true ->
     would_block (os (snd st)
       (sys_send (Socket.mDescriptor (LocalSocket.base (fst st))) buf n 0)) = true ->
     fst (LocalConnectorSocket.TrySend os buf n st) = Return None) /\
  (forall buf n,
     Caller.readable st = true ->
     would_block (os (snd st)
       (sys_recv (Socket.mDescriptor (LocalSocket.base (fst st))) buf n 0)) = true ->
     fst (LocalConnectorSocket.TryRecv os buf n st) = Return None) /\
  (Caller.readable st = true ->
   would_block (os (snd st)
     (sys_accept (Socket.mDescriptor (LocalSocket.base (fst st)))
        LocalAddress.sMaxSize)) = true ->
   fst (LocalAcceptorSocket.Accept os st) = Return None).
Proof.
  split; [| split; [| split; [| split; [| split; [| split]]]]].
  - revert st. induction calls as [| c calls IH]; intros st Hr Hall;
      [exact Hr |].
    cbn in Hall. apply andb_true_iff in Hall as [Hc Hall].
    apply negb_true_iff in Hc.
    cbn [Caller.perform_all fold_left]. apply IH; [| exact Hall].
    apply perform_keeps_readable; assumption.
  - revert st. induction calls as [| c calls IH]; intros st Hr Hall;
      [exact Hr |].
    cbn in Hall. apply andb_true_iff in Hall as [Hc Hall].
    apply negb_true_iff in Hc.
    cbn [Caller.perform_all fold_left]. apply IH; [| exact Hall].
    apply perform_keeps_writable; assumption.
  - intros c Hc. apply perform_clears_readable, Hc.
  - intros c Hc. apply perform_clears_writable, Hc.
  - intros buf n Hw Hblock. destruct st as [s w].
    unfold Caller.writable in Hw. cbn [fst snd] in *.
    pose proof (TrySend_gate_open buf n s w) as Hrun. cbv zeta in Hrun.
    rewrite Hrun by (rewrite Hw; reflexivity).
    rewrite (SysCallBlocking_result_would_block _ Hblock). reflexivity.
  - intros buf n Hr Hblock. destruct st as [s w].
    unfold Caller.readable in Hr. cbn [fst snd] in *.
    pose proof (TryRecv_gate_open buf n s w) as Hrun. cbv zeta in Hrun.
    rewrite Hrun by (rewrite Hr; reflexivity).
    rewrite (SysCallBlocking_result_would_block _ Hblock). reflexivity.
  - intros Hr Hblock. destruct st as [s w].
    unfold Caller.readable in Hr. cbn [fst snd] in *.
    pose proof (Accept_would_block s w) as Hrun. cbv zeta in Hrun.
    rewrite Hrun; [reflexivity | rewrite Hr; reflexivity | exact Hblock].
Qed.

End FlagClaims.

(** C1 as stated fails: a non-blocking connector whose writable flag is set
    calls [TrySend] on a system whose [send] reports [EAGAIN].  The call
    returns the empty optional, and the flag is clear afterwards, so the
    next [TrySend] is turned away at the gate without a system call. *)
Lemma C1_counterexample_would_block_clears_flag :
  Socket.mIsNonBlocking (LocalSocket.base (Systems.ready 3)) = true /\
  Socket.mIsWritable (LocalSocket.base (Systems.ready 3)) = true /\
  exists after,
    LocalConnectorSocket.TrySend (platform := linux) Systems.os_would_block 0 4
      (Systems.ready 3, []) =
    (Return None, (after, [sys_send 3 0 4 0])) /\
    Socket.mIsWritable (LocalSocket.base after) = false /\
    LocalConnectorSocket.TrySend (platform := linux) Systems.os_would_block 0 4
      (after, [sys_send 3 0 4 0]) =
    (Return None, (after, [sys_send 3 0 4 0])).
Proof.
  split; [reflexivity |]. split; [reflexivity |].
  eexists. split; [vm_compute; reflexivity |].
  split; vm_compute; reflexivity.
Qed.

(** ** Ownership of the descriptor *)

(** Case analysis on which inserted object a lookup hits. *)
Ltac inserted_cases :=
  repeat match goal with
    | H : <[_ := _]> _ !! _ = Some _ |- _ =>
        rewrite lookup_insert in H; case_decide; simplify_eq
    end.

(** Two objects with the same valid descriptor are one object, by the
    exclusivity [Hex] of the map they came from. *)
Ltac owner_cases Hex :=
  cbn in *;
  first
    [ reflexivity
    | congruence
    | eapply Hex; eauto; congruence
    | exfalso;
      match goal with
      | Hne : ?a <> ?b |- _ =>
          apply Hne;
          first [ eapply Hex; eauto; congruence
                | symmetry; eapply Hex; eauto; congruence ]
      end ].

Section OwnershipClaims.
Context {platform : Platform}.
Variable os : OS.

Lemma holds_insert_same (objs : gmap nat Socket.t) (i : nat) (s s' : Socket.t) (d : Z) :
  objs !! i = Some s ->
  Socket.mDescriptor s' = Socket.mDescriptor s ->
  Lifetime.holds (<[i := s']> objs) d <-> Lifetime.holds objs d.
Proof.
  intros Hi Hd. unfold Lifetime.holds. split; intros [Hne (j & t & Hj & Ht)];
    (split; [exact Hne |]).
  - destruct (decide (i = j)) as [-> | Hij].
    + rewrite lookup_insert_eq in Hj. injection Hj as <-.
      exists j, s. split; [exact Hi | congruence].
    + rewrite lookup_insert_ne in Hj by exact Hij. eauto.
  - destruct (decide (i = j)) as [-> | Hij].
    + exists j, s'. rewrite lookup_insert_eq. split; [reflexivity | congruence].
    + exists j, t. rewrite lookup_insert_ne by exact Hij. eauto.
Qed.

(** One action keeps the descriptors exclusively owned, gives no object a
    descriptor that none held before, and either makes no system call or
    closes one descriptor that was held and no longer is. *)
Lemma step_invariant (a : Lifetime.Action)
  (objs objs1 : gmap nat Socket.t) (w w1 : World) :
  Lifetime.exclusive objs ->
  Lifetime.step os a (objs, w) = (Return tt, (objs1, w1)) ->
  Lifetime.exclusive objs1 /\
  (forall d, Lifetime.holds objs1 d -> Lifetime.holds objs d) /\
  (w1 = w \/
   exists d, w1 = w ++ [sys_close d] /\
             Lifetime.holds objs d /\ ~ Lifetime.holds objs1 d).
Proof.
  intros Hex Hstep. destruct a as [target source | target source | object];
    cbn in Hstep.
  - (* move construction *)
    destruct (objs !! source) as [other |] eqn:Hs; [| discriminate].
    destruct (objs !! target) as [? |] eqn:Ht; [discriminate |].
    injection Hstep as <- <-.
    split; [| split; [| left; reflexivity]].
    + intros i j s1 s2 Hi Hj Heq Hvalid. inserted_cases; owner_cases Hex.
    + intros d [Hd (i & s & Hi & Hsd)]. split; [exact Hd |].
      inserted_cases; cbn in *; eauto; congruence.
  - (* move assignment *)
    destruct (objs !! target) as [self |] eqn:Ht; [| discriminate].
    destruct (objs !! source) as [rhs |] eqn:Hs; [| discriminate].
    injection Hstep as <- <-.
    split; [| split; [| left; reflexivity]].
    + intros i j s1 s2 Hi Hj Heq Hvalid. inserted_cases; owner_cases Hex.
    + intros d [Hd (i & s & Hi & Hsd)]. split; [exact Hd |].
      inserted_cases; cbn in *; eauto.
  - (* destruction *)
    destruct (objs !! object) as [self |] eqn:Ho; [| discriminate].
    rewrite destroy_run in Hstep. injection Hstep as <- <-.
    assert (Hsub : forall i s, delete object objs !! i = Some s ->
                               i <> object /\ objs !! i = Some s).
    { intros i s Hi. rewrite lookup_delete in Hi.
      destruct (decide (object = i)); [discriminate | split; congruence]. }
    split; [| split].
    + intros i j s1 s2 Hi Hj. apply Hsub in Hi as [_ Hi], Hj as [_ Hj].
      eapply Hex; eauto.
    + intros d [Hd (i & s & Hi & Hsd)]. apply Hsub in Hi as [_ Hi].
      split; [exact Hd | eauto].
    + destruct (Z.eqb_spec (Socket.mDescriptor self) Socket.sInvalidSocket)
        as [Hinv | Hvalid]; [left; reflexivity | right].
      exists (Socket.mDescriptor self). split; [reflexivity |]. split.
      * split; [exact Hvalid | eauto].
      * intros [_ (i & s & Hi & Hsd)]. apply Hsub in Hi as [Hne Hi].
        apply Hne. eapply (Hex i object); eauto. congruence.
Qed.

(** Over a whole run: the calls made are closes, no descriptor is closed
    twice, and each closed descriptor was held at the start and is held by
    no object at the end. *)
Lemma run_closes_once (actions : list Lifetime.Action) :
  forall (objs objs' : gmap nat Socket.t) (w w' : World),
    Lifetime.exclusive objs ->
    Lifetime.run os actions (objs, w) = (Return tt, (objs', w')) ->
    Lifetime.exclusive objs' /\
    (forall d, Lifetime.holds objs' d -> Lifetime.holds objs d) /\
    exists closed,
      w' = w ++ map sys_close closed /\
      NoDup closed /\
      forall d, d ∈ closed -> Lifetime.holds objs d /\ ~ Lifetime.holds objs' d.
Proof.
  induction actions as [| a actions IH]; intros objs objs' w w' Hex Hrun.
  - injection Hrun as <- <-. split; [exact Hex |]. split; [tauto |].
    exists []. split; [symmetry; apply app_nil_r |].
    split; [constructor |]. intros d Hd. inversion Hd.
  - cbn [Lifetime.run] in Hrun. unfold bind in Hrun.
    destruct (Lifetime.step os a (objs, w)) as [[[] | e |] [objs1 w1]] eqn:Hstep;
      try discriminate.
    destruct (step_invariant _ _ _ _ _ Hex Hstep) as (Hex1 & Hmono1 & Hcall).
    destruct (IH _ _ _ _ Hex1 Hrun) as (Hex' & Hmono & closed & Hw & Hnodup & Hcl).
    split; [exact Hex' |]. split; [auto |].
    destruct Hcall as [-> | (d & -> & Hheld & Hgone)].
    + exists closed. split; [exact Hw |]. split; [exact Hnodup |].
      intros d Hd. destruct (Hcl d Hd). auto.
    + exists (d :: closed). split; [rewrite Hw, <- app_assoc; reflexivity |].
      split.
      * constructor; [| exact Hnodup]. intros Hin. destruct (Hcl d Hin). auto.
      * intros d' Hd'. apply elem_of_cons in Hd' as [-> | Hd'].
        -- split; [exact Hheld | auto].
        -- destruct (Hcl d' Hd'). auto.
Qed.

(** C2, amended.  Move construction hands the descriptor to the new object
    and leaves the source empty.  Move assignment exchanges the descriptors
    of the two objects: the source is left holding what the target held, and
    is empty only when the target was.  Destroying an object that holds a
    descriptor closes it with exactly one call; destroying an empty object
    makes no call.  Over every run of such actions on live objects that
    start with no descriptor held twice, every system call made is a close,
    no descriptor is closed more than once, and a closed descriptor was held
    at the start and is held by no object afterwards. *)
Theorem C2_descriptor_released_once :
  (forall other,
     Socket.mDescriptor (fst (Socket.move other)) = Socket.mDescriptor other /\
     Socket.mDescriptor (snd (Socket.move other)) = Socket.sInvalidSocket) /\
  (forall self rhs,
     Socket.mDescriptor (fst (Socket.move_assign self rhs)) = Socket.mDescriptor rhs /\
     Socket.mDescriptor (snd (Socket.move_assign self rhs)) = Socket.mDescriptor self) /\
  (forall s w, Socket.mDescriptor s <> Socket.sInvalidSocket ->
     Socket.destroy os s w = (Return tt, w ++ [sys_close (Socket.mDescriptor s)])) /\
  (forall s w, Socket.mDescriptor s = Socket.sInvalidSocket ->
     Socket.destroy os s w = (Return tt, w)) /\
  (forall actions (objs objs' : gmap nat Socket.t) (w w' : World),
     Lifetime.exclusive objs ->
     Lifetime.run os actions (objs, w) = (Return tt, (objs', w')) ->
     exists closed,
       w' = w ++ map sys_close closed /\
       NoDup closed /\
       forall d, d ∈ closed -> Lifetime.holds objs d /\ ~ Lifetime.holds objs' d).
Proof.
  split; [intros other; split; reflexivity |].
  split; [intros self rhs; split; reflexivity |].
  split.
  { intros s w Hd. rewrite destroy_run.
    destruct (Z.eqb_spec (Socket.mDescriptor s) Socket.sInvalidSocket);
      [contradiction | reflexivity]. }
  split.
  { intros s w Hd. rewrite destroy_run, Hd. reflexivity. }
  intros actions objs objs' w w' Hex Hrun.
  destruct (run_closes_once actions objs objs' w w' Hex Hrun) as (_ & _ & H).
  exact H.
Qed.

End OwnershipClaims.

(** C2 as stated fails for move assignment: assigning a socket holding
    descriptor 4 to one holding descriptor 3 leaves the source holding 3,
    not empty. *)
Lemma C2_counterexample_move_assign_swaps :
  Socket.mDescriptor
    (snd (Socket.move_assign (Socket.initial 3) (Socket.initial 4))) = 3 /\
  Socket.mDescriptor
    (snd (Socket.move_assign (Socket.initial 3) (Socket.initial 4)))
  <> Socket.sInvalidSocket.
Proof. split; [reflexivity | discriminate]. Qed.

(** ** The accepted connector *)

(** The connector [Accept] hands out was move-constructed into the optional:
    it holds the new descriptor, and its flags and its mode are those of the
    default member initialisers. *)
Lemma Accept_returns_moved_connector
  {platform : Platform} (os : OS) (st st' : LocalSocket.t * World)
  (conn : LocalConnectorSocket.t) :
  LocalAcceptorSocket.Accept os st = (Return (Some conn), st') ->
  LocalSocket.base conn = Socket.initial (Socket.mDescriptor (LocalSocket.base conn)).
Proof.
  unfold LocalAcceptorSocket.Accept, bind, LocalSocket.move, Socket.move.
  intros H. cbv beta iota zeta in H.
  repeat match type of H with
    | context [match ?x with _ => _ end] =>
        destruct x; try discriminate H; cbn [negb fst snd] in H;
        cbv beta iota zeta in H
    end.
  injection H as <- _. reflexivity.
Qed.

(** C4.  The gate fails the claim on the connectors [Accept] hands out.
    A listener is built on a system with one peer waiting and nothing to
    read or write, polled readable, and asked to [Accept].  The connector it
    returns holds descriptor 4, which [fcntl(F_SETFL)] has just put into
    non-blocking mode, and its two readiness flags are clear: no readiness
    was ever cached for it.  Yet [TryRecv] on it issues [recv] and [TrySend]
    issues [send].  The move of the connector into the optional copied the
    descriptor only and left the mode flag at its default, clear; with that
    flag clear the gate is open. *)
Theorem C4_accepted_connector_not_gated :
  let os := Faults.os_peer_waiting in
  exists acceptor setup polled calls,
    LocalAcceptorSocket.make (platform := linux) os "/s" 1 []
      = (Return acceptor, setup) /\
    LocalSocket.on_base
      (Socket.Update (platform := linux) os
         (event.Result.Result (POLLIN (Platform := linux))))
      (acceptor, setup)
      = (Return true, (polled, setup)) /\
    LocalAcceptorSocket.Accept (platform := linux) os (polled, setup)
      = (Return (Some Faults.accepted), (acceptor, calls)) /\
    calls = setup ++ [sys_accept 3 110; sys_fcntl 4 3 0;
                      sys_fcntl 4 4 (Z.lor 0 (O_NONBLOCK (Platform := linux)))] /\
    Socket.mIsReadable (LocalSocket.base Faults.accepted) = false /\
    Socket.mIsWritable (LocalSocket.base Faults.accepted) = false /\
    LocalConnectorSocket.TryRecv (platform := linux) os 0 4
      (Faults.accepted, calls)
      = (Return None, (Faults.accepted, calls ++ [sys_recv 4 0 4 0])) /\
    LocalConnectorSocket.TrySend (platform := linux) os 0 4
      (Faults.accepted, calls)
      = (Return None, (Faults.accepted, calls ++ [sys_send 4 0 4 0])).
Proof.
  cbv zeta. eexists _, _, _, _.
  split; [vm_compute; reflexivity |].
  split; [vm_compute; reflexivity |].
  split; [vm_compute; reflexivity |].
  split; [vm_compute; reflexivity |].
  split; [reflexivity |]. split; [reflexivity |].
  split; vm_compute; reflexivity.
Qed.

(** * Worked instances *)

(** C1 on a connector that a poll cycle marked readable and writable, on a
    system where nothing is ready. *)
Lemma C1_witness :
  Caller.readable
    (Caller.perform_all (platform := linux) Systems.os_would_block
       [Caller.CallUpdate (event.Result.Result 4); Caller.CallTrySend 0 4]
       (Systems.ready 3, [])) = true /\
  Caller.writable
    (Caller.perform_all (platform := linux) Systems.os_would_block
       [Caller.CallUpdate (event.Result.Result 1); Caller.CallTryRecv 0 4]
       (Systems.ready 3, [])) = true /\
  Caller.readable
    (Caller.perform (platform := linux) Systems.os_would_block
       (Caller.CallTryRecv 0 4) (Systems.ready 3, [])) = false /\
  Caller.writable
    (Caller.perform (platform := linux) Systems.os_would_block
       (Caller.CallTrySend 0 4) (Systems.ready 3, [])) = false /\
  fst (LocalConnectorSocket.TrySend (platform := linux) Systems.os_would_block
         0 4 (Systems.ready 3, [])) = Return None.
Proof.
  pose proof (C1_flag_until_first_gated_attempt (platform := linux)
                Systems.os_would_block
                [Caller.CallUpdate (event.Result.Result 4); Caller.CallTrySend 0 4]
                (Systems.ready 3, [])) as (Hkeep & _ & Hclear & Hclear' & Hsend & _).
  pose proof (C1_flag_until_first_gated_attempt (platform := linux)
                Systems.os_would_block
                [Caller.CallUpdate (event.Result.Result 1); Caller.CallTryRecv 0 4]
                (Systems.ready 3, [])) as (_ & Hkeep' & _).
  split; [apply Hkeep; reflexivity |].
  split; [apply Hkeep'; reflexivity |].
  split; [apply Hclear; reflexivity |].
  split; [apply Hclear'; reflexivity |].
  apply Hsend; reflexivity.
Defined.

Lemma two_sockets_exclusive : Lifetime.exclusive Systems.two_sockets.
Proof.
  intros i j s1 s2 Hi Hj Heq Hvalid. unfold Systems.two_sockets in *.
  inserted_cases; try reflexivity; try discriminate;
    rewrite lookup_empty in *; discriminate.
Qed.

(** C2 on two sockets holding 3 and 4: a move assignment, a move
    construction and the three destructions close 3 and 4 once each. *)
Lemma C2_witness :
  exists closed,
    [sys_close 3; sys_close 4] = [] ++ map sys_close closed /\
    NoDup closed /\
    forall d, d ∈ closed ->
      Lifetime.holds Systems.two_sockets d /\ ~ Lifetime.holds ∅ d.
Proof.
  apply (proj2 (proj2 (proj2 (proj2
           (C2_descriptor_released_once Systems.os_ready))))
         [Lifetime.MoveAssign 0 1; Lifetime.MoveConstruct 2 0;
          Lifetime.Destroy 1; Lifetime.Destroy 0; Lifetime.Destroy 2]).
  - exact two_sockets_exclusive.
  - vm_compute. reflexivity.
Defined.

(** C3 on a system whose [connect] answers [EAGAIN]. *)
Lemma C3_witness :
  fst (LocalConnectorSocket.make_path (platform := linux) Systems.os_would_block
         "/tmp/x.sock" []) = Throw (system_error 11).
Proof.
  pose proof (C3_connect_failure_throws (platform := linux)
                Systems.os_would_block "/tmp/x.sock" [] _ _ eq_refl) as H.
  cbv zeta in H. rewrite H; [reflexivity | reflexivity | discriminate].
Defined.

(** An idle socket whose mode flag is set: the three calls leave the empty
    trace empty. *)
Lemma gate_closed_no_syscall_witness :
  LocalConnectorSocket.TrySend (platform := linux) Systems.os_ready 0 4
    (Systems.idle 3, []) = (Return None, (Systems.idle 3, [])) /\
  LocalConnectorSocket.TryRecv (platform := linux) Systems.os_ready 0 4
    (Systems.idle 3, []) = (Return None, (Systems.idle 3, [])) /\
  LocalAcceptorSocket.Accept (platform := linux) Systems.os_ready
    (Systems.idle 3, []) = (Return None, (Systems.idle 3, [])).
Proof.
  destruct (gate_closed_no_syscall (platform := linux) Systems.os_ready
              (Systems.idle 3) [] 0 4 eq_refl) as [Hsend Hrecv].
  split; [apply Hsend; reflexivity | apply Hrecv; reflexivity].
Defined.

(** C5 on a [send] that moves four bytes, one that would block and one
    that is refused. *)
Lemma C5_witness :
  fst (SysCallBlocking (platform := linux) Systems.os_ready (sys_send 3 0 4 0) [])
    = Return (Some (SysReturn_value 4), Systems.os_ready [] (sys_send 3 0 4 0)) /\
  fst (SysCallBlocking (platform := linux) Systems.os_would_block (sys_send 3 0 4 0) [])
    = Return (None, Systems.os_would_block [] (sys_send 3 0 4 0)) /\
  fst (SysCallBlocking (platform := linux) Systems.os_refused (sys_send 3 0 4 0) [])
    = Return (Some (SysReturn_code 111), Systems.os_refused [] (sys_send 3 0 4 0)).
Proof.
  split; [| split].
  - destruct (C5_SysCallBlocking_three_outcomes (platform := linux)
                Systems.os_ready (sys_send 3 0 4 0) [])
      as (r & Hrun & Hok & _ & _).
    rewrite Hrun. destruct Hok as [-> _]; [discriminate | reflexivity].
  - destruct (C5_SysCallBlocking_three_outcomes (platform := linux)
                Systems.os_would_block (sys_send 3 0 4 0) [])
      as (r & Hrun & _ & Hblock & _).
    rewrite Hrun, Hblock; [reflexivity | reflexivity | left; reflexivity].
  - destruct (C5_SysCallBlocking_three_outcomes (platform := linux)
                Systems.os_refused (sys_send 3 0 4 0) [])
      as (r & Hrun & _ & _ & Herr).
    rewrite Hrun. destruct Herr as [-> _];
      [reflexivity | discriminate | discriminate | reflexivity].
Defined.

(** C6 on the events [POLLIN|POLLERR], [POLLIN|POLLHUP] and
    [POLLIN|POLLOUT]. *)
Lemma C6_witness :
  fst (Socket.Update (platform := linux) Systems.os_ready (event.Result.Result 9)
         (Socket.initial 3, [])) = Throw (system_error 104) /\
  Socket.Update (platform := linux) Systems.os_ready (event.Result.Result 17)
    (Socket.initial 3, []) = (Return false, (Socket.initial 3, [])) /\
  Socket.Update (platform := linux) Systems.os_ready (event.Result.Result 5)
    (Socket.initial 3, []) =
  (Return true,
   ({| Socket.mDescriptor := 3; Socket.mIsReadable := true;
       Socket.mIsWritable := true; Socket.mIsNonBlocking := false |}, [])).
Proof.
  split; [| split].
  - destruct (proj1 (C6_Update_cases (platform := linux) Systems.os_ready
                       (Socket.initial 3) (event.Result.Result 9) []) eq_refl)
      as (code & w' & Hupdate & [Hcode | Hcode]).
    + unfold World in *. rewrite Hupdate. injection Hcode as <- _. reflexivity.
    + discriminate Hcode.
  - apply (proj1 (proj2 (C6_Update_cases (platform := linux) Systems.os_ready
                           (Socket.initial 3) (event.Result.Result 17) [])));
      reflexivity.
  - apply (proj2 (proj2 (C6_Update_cases (platform := linux) Systems.os_ready
                           (Socket.initial 3) (event.Result.Result 5) [])));
      reflexivity.
Defined.


(** The round trip on the path /tmp/x.sock, and the two checks on the empty
    path and on a path of 108 bytes. *)
Lemma address_round_trip_witness :
  (exists a,
     LocalAddress.make (platform := linux) "/tmp/x.sock" = Return a /\
     LocalAddress.GetPath a = Some "/tmp/x.sock"%string) /\
  LocalAddress.make (platform := linux) "" = Throw (invalid_argument "path empty") /\
  LocalAddress.make (platform := linux) Systems.long_path
    = Throw (length_error "path too long").
Proof.
  split; [| split].
  - destruct (proj1 (proj2 (address_round_trip (platform := linux) "/tmp/x.sock"))
                ltac:(discriminate) ltac:(vm_compute; discriminate))
      as (a & Hmake & _ & Hpath & _).
    exists a. split; [exact Hmake | apply Hpath; reflexivity].
  - apply (address_round_trip (platform := linux) ""). reflexivity.
  - apply (address_round_trip (platform := linux) Systems.long_path).
    + vm_compute. reflexivity.
    + vm_compute. reflexivity.
Defined.



(** * Further properties *)

(** ** Wrapped system calls *)

Lemma unwrapped_cases (out : Reply) :
  (exists d, unwrapped out = Return d /\ d <> -1 /\ INT_MIN <= d <= INT_MAX) \/
  (unwrapped out = Throw (system_error (r_errno out)) /\
   r_errno out <> sNotAnError /\ static_cast_int (r_ret out) = -1).
Proof.
  unfold unwrapped.
  destruct (Z.eqb_spec (static_cast_int (r_ret out)) (-1)) as [He | Hne].
  - destruct (Z.eqb_spec (r_errno out) sNotAnError) as [H0 | Hn0].
    + left. exists 0. split; [reflexivity |]. unfold INT_MIN, INT_MAX. lia.
    + right. auto.
  - left. eexists. split; [reflexivity |]. split; [exact Hne |].
    apply static_cast_int_range.
Qed.

Lemma void_unwrapped_cases (out : Reply) :
  void (unwrapped out) = Return tt \/
  (void (unwrapped out) = Throw (system_error (r_errno out)) /\
   r_errno out <> sNotAnError /\ static_cast_int (r_ret out) = -1).
Proof.
  destruct (unwrapped_cases out) as [(d & -> & _) | (-> & H)];
    [left | right; split]; auto.
Qed.

Lemma Unwrap_SysCall_result_unwrapped {S} (out : Reply) (st : S) :
  Unwrap (SysCall_result (r_ret out) (r_errno out)) st = (unwrapped out, st).
Proof.
  unfold Unwrap, SysCall_result, IsError, unwrapped.
  destruct (static_cast_int (r_ret out) =? -1); cbn; [| reflexivity].
  destruct (r_errno out =? sNotAnError); reflexivity.
Qed.

Lemma SysCall_call (os : OS) (call : SysOp) (w : World) :
  SysCall os call w =
  (Return (SysCall_result (r_ret (os w call)) (r_errno (os w call)), os w call),
   w ++ [call]).
Proof. reflexivity. Qed.

Lemma SysCall_Unwrap_run (os : OS) (call : SysOp) (w : World) :
  bind (SysCall os call) (fun p => Unwrap (fst p)) w =
  (unwrapped (os w call), w ++ [call]).
Proof.
  unfold bind. rewrite SysCall_call. cbn [fst].
  apply Unwrap_SysCall_result_unwrapped.
Qed.

(** X1.  [SysCall(...).Unwrap()] makes exactly the one call.  It returns an
    [int] that is never the failure sentinel -1, or it throws a
    [system_error] carrying the non-zero [errno] of a call that returned -1.
    It knows no third outcome: a call that reports would-block throws like
    any other failure. *)
Theorem SysCall_Unwrap_never_sentinel
  {platform : Platform} (os : OS) (call : SysOp) (w : World) :
  let out := os w call in
  exists o,
    bind (SysCall os call) (fun p => Unwrap (fst p)) w = (o, w ++ [call]) /\
    ((exists d, o = Return d /\ d <> -1 /\ INT_MIN <= d <= INT_MAX) \/
     (o = Throw (system_error (r_errno out)) /\
      r_errno out <> sNotAnError /\ static_cast_int (r_ret out) = -1)) /\
    (would_block out = true -> r_errno out <> sNotAnError ->
       o = Throw (system_error (r_errno out))).
Proof.
  intros out. exists (unwrapped out).
  split; [apply SysCall_Unwrap_run |].
  split; [apply unwrapped_cases |].
  intros Hblock Herr. unfold would_block in Hblock.
  apply andb_true_iff in Hblock as [Hret _]. unfold unwrapped. rewrite Hret.
  destruct (Z.eqb_spec (r_errno out) sNotAnError); [contradiction | reflexivity].
Qed.

(** ** Construction of a Socket *)

Section ConstructionFacts.
Context {platform : Platform}.
Variable os : OS.

Lemma GetStatusFlags_run (s : Socket.t) (w : World) :
  Socket.GetStatusFlags os s w =
  (unwrapped (os w (sys_fcntl (Socket.mDescriptor s) F_GETFL 0)),
   w ++ [sys_fcntl (Socket.mDescriptor s) F_GETFL 0]).
Proof. apply SysCall_Unwrap_run. Qed.

Lemma SetStatusFlags_run (flags : Z) (s : Socket.t) (w : World) :
  Socket.SetStatusFlags os flags s w =
  (void (unwrapped (os w (sys_fcntl (Socket.mDescriptor s) F_SETFL flags))),
   w ++ [sys_fcntl (Socket.mDescriptor s) F_SETFL flags]).
Proof.
  unfold Socket.SetStatusFlags, bind. rewrite SysCall_call. cbn [fst].
  rewrite Unwrap_SysCall_result_unwrapped.
  destruct (unwrapped _); reflexivity.
Qed.

(** The mode flag is written first; then the flags are read and written
    back with [change] applied. *)
Lemma set_mode_run (mode : bool) (change : Z -> Z) (s : Socket.t) (w : World) :
  let d := Socket.mDescriptor s in
  let c1 := sys_fcntl d F_GETFL 0 in
  let s' := Socket.set_mIsNonBlocking mode s in
  (self <- on_fst get ;;
   on_fst (put (Socket.set_mIsNonBlocking mode self)) ;;;
   flags <- Socket.const_method (Socket.GetStatusFlags os) ;;
   Socket.const_method (Socket.SetStatusFlags os (change flags)))%prog (s, w) =
  match unwrapped (os w c1) with
  | Return flags =>
      let c2 := sys_fcntl d F_SETFL (change flags) in
      (void (unwrapped (os (w ++ [c1]) c2)), (s', w ++ [c1; c2]))
  | Throw e => (Throw e, (s', w ++ [c1]))
  | Undefined => (Undefined, (s', w ++ [c1]))
  end.
Proof.
  cbv zeta. unfold bind, on_fst, get, put, Socket.const_method. cbn [fst snd].
  rewrite GetStatusFlags_run.
  cbn [Socket.mDescriptor Socket.set_mIsNonBlocking].
  destruct (unwrapped _) as [flags | e |]; try reflexivity.
  cbn [fst snd]. rewrite SetStatusFlags_run.
  cbn [Socket.mDescriptor Socket.set_mIsNonBlocking].
  rewrite <- app_assoc. reflexivity.
Qed.

Lemma SetNonBlocking_run (s : Socket.t) (w : World) :
  let d := Socket.mDescriptor s in
  let c1 := sys_fcntl d F_GETFL 0 in
  let s' := Socket.set_mIsNonBlocking true s in
  Socket.SetNonBlocking os (s, w) =
  match unwrapped (os w c1) with
  | Return flags =>
      let c2 := sys_fcntl d F_SETFL (Z.lor flags O_NONBLOCK) in
      (void (unwrapped (os (w ++ [c1]) c2)), (s', w ++ [c1; c2]))
  | Throw e => (Throw e, (s', w ++ [c1]))
  | Undefined => (Undefined, (s', w ++ [c1]))
  end.
Proof. apply (set_mode_run true (fun flags => Z.lor flags O_NONBLOCK)). Qed.

Lemma SetBlocking_run (s : Socket.t) (w : World) :
  let d := Socket.mDescriptor s in
  let c1 := sys_fcntl d F_GETFL 0 in
  let s' := Socket.set_mIsNonBlocking false s in
  Socket.SetBlocking os (s, w) =
  match unwrapped (os w c1) with
  | Return flags =>
      let c2 := sys_fcntl d F_SETFL (Z.land flags (Z.lnot O_NONBLOCK)) in
      (void (unwrapped (os (w ++ [c1]) c2)), (s', w ++ [c1; c2]))
  | Throw e => (Throw e, (s', w ++ [c1]))
  | Undefined => (Undefined, (s', w ++ [c1]))
  end.
Proof.
  apply (set_mode_run false (fun flags => Z.land flags (Z.lnot O_NONBLOCK))).
Qed.

(** What [SetNonBlocking] does on the object a constructor has just
    initialised: it returns the object in non-blocking mode after the two
    [fcntl] calls, or throws a [system_error] after the one that failed. *)
Lemma SetNonBlocking_initial (d : Z) (w : World) :
  exists o calls,
    Socket.SetNonBlocking os (Socket.initial d, w) =
      (o, (Socket.set_mIsNonBlocking true (Socket.initial d), w ++ calls)) /\
    Forall (fun call => is_close call = false) calls /\
    ((o = Return tt /\
      exists flags, calls = [sys_fcntl d F_GETFL 0;
                             sys_fcntl d F_SETFL (Z.lor flags O_NONBLOCK)]) \/
     (exists code, o = Throw (system_error code) /\ code <> sNotAnError)).
Proof.
  pose proof (SetNonBlocking_run (Socket.initial d) w) as Hrun.
  cbv zeta in Hrun. cbn [Socket.mDescriptor Socket.initial] in Hrun.
  destruct (unwrapped_cases (os w (sys_fcntl d F_GETFL 0)))
    as [(flags & Hflags & _) | (Hthrow & Hcode & _)].
  - rewrite Hflags in Hrun.
    eexists _, [_; _]. split; [exact Hrun |].
    split; [repeat constructor |].
    destruct (void_unwrapped_cases
                (os (w ++ [sys_fcntl d F_GETFL 0])
                   (sys_fcntl d F_SETFL (Z.lor flags O_NONBLOCK))))
      as [-> | (-> & Hcode & _)]; [left | right]; eauto.
  - rewrite Hthrow in Hrun.
    eexists _, [_]. split; [exact Hrun |].
    split; [repeat constructor |]. right. eauto.
Qed.

(** [Socket(int, int, int)] returns or throws a [system_error], and makes
    no [close] call on the way. *)
Lemma open_never_closes (domain type protocol : Z) (w : World) :
  exists o calls,
    Socket.open os domain type protocol w = (o, w ++ calls) /\
    Forall (fun call => is_close call = false) calls /\
    match o with
    | Return self =>
        self = Socket.set_mIsNonBlocking true (Socket.initial (Socket.mDescriptor self)) /\
        Socket.mDescriptor self <> Socket.sInvalidSocket /\
        exists flags,
          calls = [sys_socket domain type protocol;
                   sys_fcntl (Socket.mDescriptor self) F_GETFL 0;
                   sys_fcntl (Socket.mDescriptor self) F_SETFL
                     (Z.lor flags O_NONBLOCK)]
    | Throw e => exists code, e = system_error code /\ code <> sNotAnError
    | Undefined => False
    end.
Proof.
  set (c0 := sys_socket domain type protocol).
  assert (Hrun : Socket.open os domain type protocol w =
                 match unwrapped (os w c0) with
                 | Return d =>
                     match Socket.SetNonBlocking os (Socket.initial d, w ++ [c0]) with
                     | (Return _, (self, w')) => (Return self, w')
                     | (Throw e, (_, w')) => (Throw e, w')
                     | (Undefined, (_, w')) => (Undefined, w')
                     end
                 | Throw e => (Throw e, w ++ [c0])
                 | Undefined => (Undefined, w ++ [c0])
                 end).
  { unfold Socket.open, bind. rewrite SysCall_call. cbn [fst].
    rewrite Unwrap_SysCall_result_unwrapped. fold c0.
    destruct (unwrapped (os w c0)); reflexivity. }
  rewrite Hrun. clear Hrun.
  destruct (unwrapped_cases (os w c0)) as [(d & -> & Hd & _) | (-> & Hcode & _)].
  - destruct (SetNonBlocking_initial d (w ++ [c0]))
      as (o & calls & Hset & Hcalls & [[-> (flags & ->)] | (code & -> & Hcode)]);
      unfold World in *; rewrite Hset.
    + eexists (Return _), (c0 :: _).
      split; [rewrite <- app_assoc; reflexivity |].
      split; [constructor; [reflexivity | exact Hcalls] |].
      cbn. split; [reflexivity |]. split; [exact Hd |]. eauto.
    + exists (Throw (system_error code)), (c0 :: calls).
      split; [rewrite <- app_assoc; reflexivity |].
      split; [constructor; [reflexivity | exact Hcalls] | eauto].
  - exists (Throw (system_error (r_errno (os w c0)))), [c0].
    split; [reflexivity |]. split; [repeat constructor | eauto].
Qed.

(** [Socket(Descriptor)] returns or throws, and makes no [close] call on
    the way. *)
Lemma adopt_never_closes (descriptor : Z) (w : World) :
  (descriptor = Socket.sInvalidSocket ->
     Socket.adopt os descriptor w =
       (Throw (invalid_argument "invalid socket descriptor"), w)) /\
  (descriptor <> Socket.sInvalidSocket ->
     exists o calls,
       Socket.adopt os descriptor w = (o, w ++ calls) /\
       Forall (fun call => is_close call = false) calls /\
       match o with
       | Return self =>
           self = Socket.set_mIsNonBlocking true (Socket.initial descriptor) /\
           exists flags,
             calls = [sys_fcntl descriptor F_GETFL 0;
                      sys_fcntl descriptor F_SETFL (Z.lor flags O_NONBLOCK)]
       | Throw e => exists code, e = system_error code /\ code <> sNotAnError
       | Undefined => False
       end).
Proof.
  unfold Socket.adopt. split.
  - intros ->. reflexivity.
  - intros Hd.
    destruct (Z.eqb_spec descriptor Socket.sInvalidSocket); [contradiction |].
    destruct (SetNonBlocking_initial descriptor w)
      as (o & calls & Hset & Hcalls & [[-> (flags & ->)] | (code & -> & Hcode)]);
      unfold World in *; rewrite Hset.
    + eexists (Return _), _. split; [reflexivity |].
      split; [exact Hcalls |]. split; [reflexivity | eauto].
    + eexists (Throw _), _. split; [reflexivity |].
      split; [exact Hcalls | eauto].
Qed.

Lemma unwrapped_failed (out : Reply) :
  static_cast_int (r_ret out) = -1 -> r_errno out <> sNotAnError ->
  unwrapped out = Throw (system_error (r_errno out)).
Proof.
  intros Hret Herr. unfold unwrapped. rewrite Hret. cbn.
  destruct (Z.eqb_spec (r_errno out) sNotAnError); [contradiction | reflexivity].
Qed.

(** [SetNonBlocking] on the object a constructor has just initialised, by
    what the two [fcntl] calls answer. *)
Lemma SetNonBlocking_initial_by_reply (d : Z) (w : World) :
  let getfl := sys_fcntl d F_GETFL 0 in
  let read := os w getfl in
  let object := Socket.set_mIsNonBlocking true (Socket.initial d) in
  (static_cast_int (r_ret read) = -1 -> r_errno read <> sNotAnError ->
     Socket.SetNonBlocking os (Socket.initial d, w) =
     (Throw (system_error (r_errno read)), (object, w ++ [getfl]))) /\
  (forall flags, unwrapped read = Return flags ->
     let setfl := sys_fcntl d F_SETFL (Z.lor flags O_NONBLOCK) in
     let written := os (w ++ [getfl]) setfl in
     (static_cast_int (r_ret written) = -1 -> r_errno written <> sNotAnError ->
        Socket.SetNonBlocking os (Socket.initial d, w) =
        (Throw (system_error (r_errno written)), (object, w ++ [getfl; setfl]))) /\
     (forall r, unwrapped written = Return r ->
        Socket.SetNonBlocking os (Socket.initial d, w) =
        (Return tt, (object, w ++ [getfl; setfl])))).
Proof.
  intros getfl read object.
  pose proof (SetNonBlocking_run (Socket.initial d) w) as Hrun.
  cbv zeta in Hrun. cbn [Socket.mDescriptor Socket.initial] in Hrun.
  fold getfl read object in Hrun.
  split.
  - intros Hret Herr. rewrite Hrun, (unwrapped_failed read Hret Herr). reflexivity.
  - intros flags Hflags setfl written. rewrite Hflags in Hrun.
    fold setfl written in Hrun. split.
    + intros Hret Herr. rewrite Hrun, (unwrapped_failed written Hret Herr).
      reflexivity.
    + intros r Hr. rewrite Hrun, Hr. reflexivity.
Qed.

(** X2.  [Socket(int domain, int type, int protocol)], by what the system
    answers.  When [socket] fails the constructor throws a [system_error]
    with its [errno] after that one call.  Otherwise the descriptor it
    returned is not the sentinel, and the constructor goes on to
    [fcntl(F_GETFL)]: when that fails it throws a [system_error] with its
    [errno]; otherwise it calls [fcntl(F_SETFL)] with [O_NONBLOCK] or-ed into
    the flags [F_GETFL] returned, and throws with the [errno] of that call
    when it fails, or returns an object that holds the descriptor, in
    non-blocking mode with both readiness flags clear.  Whatever the outcome
    the constructor makes no [close] call: when an [fcntl] fails after
    [socket] succeeded, the new descriptor stays open. *)
Theorem Socket_open_outcomes (domain type protocol : Z) (w : World) :
  let create := sys_socket domain type protocol in
  let created := os w create in
  (static_cast_int (r_ret created) = -1 -> r_errno created <> sNotAnError ->
     Socket.open os domain type protocol w =
     (Throw (system_error (r_errno created)), w ++ [create])) /\
  (forall d, unwrapped created = Return d ->
     d <> Socket.sInvalidSocket /\
     let getfl := sys_fcntl d F_GETFL 0 in
     let read := os (w ++ [create]) getfl in
     (static_cast_int (r_ret read) = -1 -> r_errno read <> sNotAnError ->
        Socket.open os domain type protocol w =
        (Throw (system_error (r_errno read)), w ++ [create; getfl])) /\
     (forall flags, unwrapped read = Return flags ->
        let setfl := sys_fcntl d F_SETFL (Z.lor flags O_NONBLOCK) in
        let written := os (w ++ [create; getfl]) setfl in
        (static_cast_int (r_ret written) = -1 -> r_errno written <> sNotAnError ->
           Socket.open os domain type protocol w =
           (Throw (system_error (r_errno written)), w ++ [create; getfl; setfl])) /\
        (forall r, unwrapped written = Return r ->
           Socket.open os domain type protocol w =
           (Return (Socket.set_mIsNonBlocking true (Socket.initial d)),
            w ++ [create; getfl; setfl])))) /\
  (exists o calls,
     Socket.open os domain type protocol w = (o, w ++ calls) /\
     Forall (fun call => is_close call = false) calls).
Proof.
  intros create created.
  assert (Hrun : Socket.open os domain type protocol w =
                 match unwrapped created with
                 | Return d =>
                     match Socket.SetNonBlocking os (Socket.initial d, w ++ [create]) with
                     | (Return _, (self, w')) => (Return self, w')
                     | (Throw e, (_, w')) => (Throw e, w')
                     | (Undefined, (_, w')) => (Undefined, w')
                     end
                 | Throw e => (Throw e, w ++ [create])
                 | Undefined => (Undefined, w ++ [create])
                 end).
  { unfold Socket.open, bind. rewrite SysCall_call. cbn [fst].
    rewrite Unwrap_SysCall_result_unwrapped. fold create created.
    destruct (unwrapped created); reflexivity. }
  split; [| split].
  - intros Hret Herr. rewrite Hrun, (unwrapped_failed created Hret Herr).
    reflexivity.
  - intros d Hd. rewrite Hd in Hrun.
    split.
    { destruct (unwrapped_cases created) as [(d' & Hd' & Hne & _) | (Hthrow & _)];
        [| congruence].
      rewrite Hd in Hd'. injection Hd' as ->. exact Hne. }
    intros getfl read.
    destruct (SetNonBlocking_initial_by_reply d (w ++ [create]))
      as [Hfail Hread].
    fold getfl read in Hfail, Hread.
    unfold World in Hfail, Hread, Hrun.
    split.
    + intros Hret Herr. rewrite Hrun, (Hfail Hret Herr), <- app_assoc.
      reflexivity.
    + intros flags Hflags setfl written.
      specialize (Hread flags Hflags). cbv zeta in Hread.
      rewrite <- !app_assoc in Hread. cbn [app] in Hread.
      fold setfl written in Hread. destruct Hread as [Hbad Hgood].
      split.
      * intros Hret Herr. rewrite Hrun, (Hbad Hret Herr). reflexivity.
      * intros r Hr. rewrite Hrun, (Hgood r Hr). reflexivity.
  - destruct (open_never_closes domain type protocol w)
      as (o & calls & Hopen & Hcalls & _). eauto.
Qed.

(** X3.  [Socket(Descriptor)], by what it is given and what the system
    answers.  Given the sentinel -1 it throws [invalid_argument] without a
    system call.  Given any other descriptor it calls [fcntl(F_GETFL)] on it
    and throws a [system_error] with the [errno] of that call when it fails;
    otherwise it calls [fcntl(F_SETFL)] with [O_NONBLOCK] or-ed into the
    flags [F_GETFL] returned, and throws with the [errno] of that call when
    it fails, or returns an object that holds exactly the descriptor given,
    in non-blocking mode with both readiness flags clear.  Whatever the
    outcome it never closes the descriptor it was given. *)
Theorem Socket_adopt_outcomes (descriptor : Z) (w : World) :
  let getfl := sys_fcntl descriptor F_GETFL 0 in
  let read := os w getfl in
  (descriptor = Socket.sInvalidSocket ->
     Socket.adopt os descriptor w =
       (Throw (invalid_argument "invalid socket descriptor"), w)) /\
  (descriptor <> Socket.sInvalidSocket ->
     (static_cast_int (r_ret read) = -1 -> r_errno read <> sNotAnError ->
        Socket.adopt os descriptor w =
        (Throw (system_error (r_errno read)), w ++ [getfl])) /\
     (forall flags, unwrapped read = Return flags ->
        let setfl := sys_fcntl descriptor F_SETFL (Z.lor flags O_NONBLOCK) in
        let written := os (w ++ [getfl]) setfl in
        (static_cast_int (r_ret written) = -1 -> r_errno written <> sNotAnError ->
           Socket.adopt os descriptor w =
           (Throw (system_error (r_errno written)), w ++ [getfl; setfl])) /\
        (forall r, unwrapped written = Return r ->
           Socket.adopt os descriptor w =
           (Return (Socket.set_mIsNonBlocking true (Socket.initial descriptor)),
            w ++ [getfl; setfl]))) /\
     exists o calls,
       Socket.adopt os descriptor w = (o, w ++ calls) /\
       Forall (fun call => is_close call = false) calls).
Proof.
  intros getfl read. split.
  - intros ->. reflexivity.
  - intros Hd.
    assert (Hrun : Socket.adopt os descriptor w =
                   match Socket.SetNonBlocking os (Socket.initial descriptor, w) with
                   | (Return _, (self, w')) => (Return self, w')
                   | (Throw e, (_, w')) => (Throw e, w')
                   | (Undefined, (_, w')) => (Undefined, w')
                   end).
    { unfold Socket.adopt.
      destruct (Z.eqb_spec descriptor Socket.sInvalidSocket);
        [contradiction | reflexivity]. }
    destruct (SetNonBlocking_initial_by_reply descriptor w) as [Hfail Hread].
    fold getfl read in Hfail, Hread.
    unfold World in Hfail, Hread, Hrun.
    split; [| split].
    + intros Hret Herr. rewrite Hrun, (Hfail Hret Herr). reflexivity.
    + intros flags Hflags setfl written.
      destruct (Hread flags Hflags) as [Hbad Hgood].
      fold setfl written in Hbad, Hgood. split.
      * intros Hret Herr. rewrite Hrun, (Hbad Hret Herr). reflexivity.
      * intros r Hr. rewrite Hrun, (Hgood r Hr). reflexivity.
    + destruct (proj2 (adopt_never_closes descriptor w) Hd)
        as (o & calls & Hadopt & Hcalls & _). eauto.
Qed.

End ConstructionFacts.

(** ** The mode flag and the gates *)

Section ModeFacts.
Context {platform : Platform}.
Variable os : OS.

(** X4.  [SetBlocking] clears the mode flag before it touches the
    descriptor, so the flag is clear whether the two [fcntl] calls succeed
    or one of them throws; from then on both gates are open whatever the
    cached flags are, and [TrySend] goes to the system on every call.  When
    [SetBlocking] returns, the flags it wrote back are the flags it read
    with every bit of [O_NONBLOCK] cleared and every other bit kept. *)
Theorem SetBlocking_opens_gates (s : Socket.t) (w : World) :
  exists o calls,
    Socket.SetBlocking os (s, w) =
      (o, (Socket.set_mIsNonBlocking false s, w ++ calls)) /\
    fst (Socket.GetAndResetIsReadable (Socket.set_mIsNonBlocking false s))
      = Return true /\
    fst (Socket.GetAndResetIsWritable (Socket.set_mIsNonBlocking false s))
      = Return true /\
    (forall (conn : LocalSocket.t) (buf n : Z) (w2 : World),
       LocalSocket.base conn = Socket.set_mIsNonBlocking false s ->
       snd (snd (LocalConnectorSocket.TrySend os buf n (conn, w2))) =
       w2 ++ [sys_send (Socket.mDescriptor s) buf n 0]) /\
    match o with
    | Return _ =>
        exists flags mask,
          unwrapped (os w (sys_fcntl (Socket.mDescriptor s) F_GETFL 0))
            = Return flags /\
          calls = [sys_fcntl (Socket.mDescriptor s) F_GETFL 0;
                   sys_fcntl (Socket.mDescriptor s) F_SETFL mask] /\
          forall bit, 0 <= bit ->
            Z.testbit mask bit =
            Z.testbit flags bit && negb (Z.testbit O_NONBLOCK bit)
    | Throw e => exists code, e = system_error code /\ code <> sNotAnError
    | Undefined => False
    end.
Proof.
  pose proof (SetBlocking_run os s w) as Hrun. cbv zeta in Hrun.
  assert (Hgates :
    fst (Socket.GetAndResetIsReadable (Socket.set_mIsNonBlocking false s))
      = Return true /\
    fst (Socket.GetAndResetIsWritable (Socket.set_mIsNonBlocking false s))
      = Return true /\
    (forall (conn : LocalSocket.t) (buf n : Z) (w2 : World),
       LocalSocket.base conn = Socket.set_mIsNonBlocking false s ->
       snd (snd (LocalConnectorSocket.TrySend os buf n (conn, w2))) =
       w2 ++ [sys_send (Socket.mDescriptor s) buf n 0])).
  { split; [cbn; rewrite orb_true_r; reflexivity |].
    split; [cbn; rewrite orb_true_r; reflexivity |].
    intros conn buf n w2 Hbase.
    pose proof (TrySend_gate_open os buf n conn w2) as Hsend. cbv zeta in Hsend.
    rewrite Hsend by (rewrite Hbase; cbn; apply orb_true_r).
    cbn [snd]. rewrite Hbase. reflexivity. }
  destruct Hgates as (Hr & Hw & Hsend).
  destruct (unwrapped_cases (os w (sys_fcntl (Socket.mDescriptor s) F_GETFL 0)))
    as [(flags & Hflags & _) | (Hthrow & Hcode & _)].
  - rewrite Hflags in Hrun.
    eexists _, [_; _]. split; [exact Hrun |].
    split; [exact Hr |]. split; [exact Hw |]. split; [exact Hsend |].
    match goal with
    | |- match void (unwrapped ?out) with _ => _ end =>
        destruct (void_unwrapped_cases out) as [-> | (-> & Hcode & _)]
    end.
    + exists flags, (Z.land flags (Z.lnot O_NONBLOCK)).
      split; [exact Hflags |]. split; [reflexivity |].
      intros bit Hbit. rewrite Z.land_spec, Z.lnot_spec by exact Hbit.
      reflexivity.
    + eauto.
  - rewrite Hthrow in Hrun.
    eexists _, [_]. split; [exact Hrun |].
    split; [exact Hr |]. split; [exact Hw |]. split; [exact Hsend |]. eauto.
Qed.

(** X5.  [Update] leaves the descriptor and the mode as they are and never
    clears a readiness flag, whatever it returns or throws.  It goes to the
    system only for an event with the errored bit, and then with the one
    [getsockopt] call; it throws only for such an event, and only a
    [system_error].  On every other event a second [Update] with the same
    event changes nothing and returns the same answer. *)
Theorem Update_accumulates (s : Socket.t) (res : event.Result.t) (w : World) :
  exists o s' calls,
    Socket.Update os res (s, w) = (o, (s', w ++ calls)) /\
    Socket.mDescriptor s' = Socket.mDescriptor s /\
    Socket.mIsNonBlocking s' = Socket.mIsNonBlocking s /\
    (Socket.mIsReadable s = true -> Socket.mIsReadable s' = true) /\
    (Socket.mIsWritable s = true -> Socket.mIsWritable s' = true) /\
    calls = (if event.Result.IsErrored res
             then [sys_getsockopt (Socket.mDescriptor s) SOL_SOCKET SO_ERROR]
             else []) /\
    match o with
    | Return _ =>
        event.Result.IsErrored res = false /\
        Socket.Update os res (s', w ++ calls) = (o, (s', w ++ calls))
    | Throw e =>
        event.Result.IsErrored res = true /\ exists code, e = system_error code
    | Undefined => False
    end.
Proof.
  unfold Socket.Update.
  destruct (event.Result.IsErrored res) eqn:Herr.
  - unfold bind, Socket.const_method. cbn [fst snd].
    pose proof (GetError_run os s w) as Hrun. cbv zeta in Hrun. rewrite Hrun.
    destruct (IsError _); cbn;
      eexists _, s, [_]; (split; [reflexivity |]); repeat split; eauto.
  - destruct (event.Result.IsInvalid res || event.Result.IsClosed res) eqn:Hclosed.
    + exists (Return false), s, []. rewrite app_nil_r.
      repeat split; auto.
    + destruct s as [d r wr nb].
      destruct (event.Result.IsReadable res) eqn:Hr,
               (event.Result.IsWritable res) eqn:Hw;
        cbn; eexists (Return true), _, []; rewrite app_nil_r;
        (split; [reflexivity |]); cbn; repeat split; auto;
        rewrite ?Hr, ?Hw; reflexivity.
Qed.

Lemma SysCallBlocking_result_cases (out : Reply) :
  SysCallBlocking_result (r_ret out) (r_errno out) = None \/
  (SysCallBlocking_result (r_ret out) (r_errno out)
     = Some (SysReturn_value (static_cast_int (r_ret out))) /\
   static_cast_int (r_ret out) <> -1) \/
  (SysCallBlocking_result (r_ret out) (r_errno out)
     = Some (SysReturn_code (r_errno out)) /\
   r_errno out <> EWOULDBLOCK /\ r_errno out <> EAGAIN).
Proof.
  unfold SysCallBlocking_result.
  destruct (Z.eqb_spec (static_cast_int (r_ret out)) (-1)); cbn; [| auto].
  destruct (Z.eqb_spec (r_errno out) EWOULDBLOCK); cbn; [auto |].
  destruct (Z.eqb_spec (r_errno out) EAGAIN); cbn; auto.
Qed.

(** The three ways a gated transfer can end. *)
Lemma transfer_outcome_cases (out : Reply) :
  let o := match SysCallBlocking_result (r_ret out) (r_errno out) with
           | Some r =>
               if IsError r then Throw (system_error (mCode r))
               else Return (Some (mValue r))
           | None => Return None
           end in
  o = Return None \/
  (exists k, o = Return (Some k) /\ k <> -1 /\ INT_MIN <= k <= INT_MAX) \/
  (exists e, o = Throw (system_error e) /\
             e <> sNotAnError /\ e <> EWOULDBLOCK /\ e <> EAGAIN).
Proof.
  cbv zeta.
  destruct (SysCallBlocking_result_cases out)
    as [-> | [[-> Hne] | (-> & Hwb & Hag)]]; [auto | |].
  - right. left. cbn. eexists. split; [reflexivity |].
    split; [exact Hne | apply static_cast_int_range].
  - unfold IsError, SysReturn_code. cbn.
    destruct (Z.eqb_spec (r_errno out) sNotAnError) as [H0 | Hn0]; cbn.
    + right. left. exists 0. split; [reflexivity |].
      unfold INT_MIN, INT_MAX. lia.
    + right. right. eauto.
Qed.

(** X7.  [TrySend] and [TryRecv] end in one of three ways: the empty
    optional, a count that is an [int] other than -1, or a [system_error]
    whose code is neither 0 nor a would-block code.  They make at most one
    system call.  Past the gate, a [send] or [recv] that does not return -1
    has its return passed through as the count: a short count and a count
    of 0 alike, with no second call. *)
Theorem TrySend_TryRecv_outcomes (buf n : Z) (s : LocalSocket.t) (w : World) :
  let ends (o : Outcome (option Z)) :=
    o = Return None \/
    (exists k, o = Return (Some k) /\ k <> -1 /\ INT_MIN <= k <= INT_MAX) \/
    (exists e, o = Throw (system_error e) /\
               e <> sNotAnError /\ e <> EWOULDBLOCK /\ e <> EAGAIN) in
  let send := sys_send (Socket.mDescriptor (LocalSocket.base s)) buf n 0 in
  let recv := sys_recv (Socket.mDescriptor (LocalSocket.base s)) buf n 0 in
  ends (fst (LocalConnectorSocket.TrySend os buf n (s, w))) /\
  ends (fst (LocalConnectorSocket.TryRecv os buf n (s, w))) /\
  (snd (snd (LocalConnectorSocket.TrySend os buf n (s, w))) = w \/
   snd (snd (LocalConnectorSocket.TrySend os buf n (s, w))) = w ++ [send]) /\
  (snd (snd (LocalConnectorSocket.TryRecv os buf n (s, w))) = w \/
   snd (snd (LocalConnectorSocket.TryRecv os buf n (s, w))) = w ++ [recv]) /\
  (Socket.mIsWritable (LocalSocket.base s)
   || negb (Socket.mIsNonBlocking (LocalSocket.base s)) = true ->
   static_cast_int (r_ret (os w send)) <> -1 ->
     LocalConnectorSocket.TrySend os buf n (s, w) =
     (Return (Some (static_cast_int (r_ret (os w send)))),
      ({| LocalSocket.base := Socket.set_mIsWritable false (LocalSocket.base s);
          LocalSocket.mAddress := LocalSocket.mAddress s |}, w ++ [send]))) /\
  (Socket.mIsReadable (LocalSocket.base s)
   || negb (Socket.mIsNonBlocking (LocalSocket.base s)) = true ->
   static_cast_int (r_ret (os w recv)) <> -1 ->
     LocalConnectorSocket.TryRecv os buf n (s, w) =
     (Return (Some (static_cast_int (r_ret (os w recv)))),
      ({| LocalSocket.base := Socket.set_mIsReadable false (LocalSocket.base s);
          LocalSocket.mAddress := LocalSocket.mAddress s |}, w ++ [recv]))).
Proof.
  cbv zeta.
  pose proof (TrySend_gate_open os buf n s w) as Hsend. cbv zeta in Hsend.
  pose proof (TryRecv_gate_open os buf n s w) as Hrecv. cbv zeta in Hrecv.
  assert (Hsend_closed :
    Socket.mIsWritable (LocalSocket.base s)
    || negb (Socket.mIsNonBlocking (LocalSocket.base s)) = false ->
    LocalConnectorSocket.TrySend os buf n (s, w) =
    (Return None,
     ({| LocalSocket.base := Socket.set_mIsWritable false (LocalSocket.base s);
         LocalSocket.mAddress := LocalSocket.mAddress s |}, w))).
  { intros Hgate. unfold LocalConnectorSocket.TrySend, bind,
      LocalSocket.on_base_only, LocalSocket.on_base, on_fst.
    cbn [fst snd]. rewrite GetAndResetIsWritable_run, Hgate. reflexivity. }
  assert (Hrecv_closed :
    Socket.mIsReadable (LocalSocket.base s)
    || negb (Socket.mIsNonBlocking (LocalSocket.base s)) = false ->
    LocalConnectorSocket.TryRecv os buf n (s, w) =
    (Return None,
     ({| LocalSocket.base := Socket.set_mIsReadable false (LocalSocket.base s);
         LocalSocket.mAddress := LocalSocket.mAddress s |}, w))).
  { intros Hgate. unfold LocalConnectorSocket.TryRecv, bind,
      LocalSocket.on_base_only, LocalSocket.on_base, on_fst.
    cbn [fst snd]. rewrite GetAndResetIsReadable_run, Hgate. reflexivity. }
  assert (Hvalue : forall out, static_cast_int (r_ret out) <> -1 ->
            match SysCallBlocking_result (r_ret out) (r_errno out) with
            | Some r => if IsError r then Throw (system_error (mCode r))
                        else Return (Some (mValue r))
            | None => Return None
            end = Return (Some (static_cast_int (r_ret out)))).
  { intros out Hne. unfold SysCallBlocking_result.
    destruct (Z.eqb_spec (static_cast_int (r_ret out)) (-1));
      [contradiction | reflexivity]. }
  repeat split.
  - destruct (Socket.mIsWritable _ || negb _) eqn:Hgate.
    + rewrite Hsend by reflexivity. cbn [fst]. apply transfer_outcome_cases.
    + rewrite Hsend_closed by reflexivity. left. reflexivity.
  - destruct (Socket.mIsReadable _ || negb _) eqn:Hgate.
    + rewrite Hrecv by reflexivity. cbn [fst]. apply transfer_outcome_cases.
    + rewrite Hrecv_closed by reflexivity. left. reflexivity.
  - destruct (Socket.mIsWritable _ || negb _) eqn:Hgate.
    + rewrite Hsend by reflexivity. right. reflexivity.
    + rewrite Hsend_closed by reflexivity. left. reflexivity.
  - destruct (Socket.mIsReadable _ || negb _) eqn:Hgate.
    + rewrite Hrecv by reflexivity. right. reflexivity.
    + rewrite Hrecv_closed by reflexivity. left. reflexivity.
  - intros Hgate Hne. rewrite Hsend by exact Hgate. rewrite Hvalue by exact Hne.
    reflexivity.
  - intros Hgate Hne. rewrite Hrecv by exact Hgate. rewrite Hvalue by exact Hne.
    reflexivity.
Qed.


End ModeFacts.

(** ** Construction of the socket roles *)

Section RoleFacts.
Context {platform : Platform}.
Variable os : OS.

Lemma open_run (domain type protocol : Z) (w : World) :
  Socket.open os domain type protocol w =
  match unwrapped (os w (sys_socket domain type protocol)) with
  | Return d =>
      match Socket.SetNonBlocking os
              (Socket.initial d, w ++ [sys_socket domain type protocol]) with
      | (Return _, (self, w')) => (Return self, w')
      | (Throw e, (_, w')) => (Throw e, w')
      | (Undefined, (_, w')) => (Undefined, w')
      end
  | Throw e => (Throw e, w ++ [sys_socket domain type protocol])
  | Undefined => (Undefined, w ++ [sys_socket domain type protocol])
  end.
Proof.
  unfold Socket.open, bind. rewrite SysCall_call. cbn [fst].
  rewrite Unwrap_SysCall_result_unwrapped.
  destruct (unwrapped _); reflexivity.
Qed.

(** The object a successful [Socket(int, int, int)] leaves. *)
Lemma open_returns_object (domain type protocol : Z) (w w1 : World) (b : Socket.t) :
  Socket.open os domain type protocol w = (Return b, w1) ->
  b = Socket.set_mIsNonBlocking true (Socket.initial (Socket.mDescriptor b)) /\
  Socket.mDescriptor b <> Socket.sInvalidSocket.
Proof.
  rewrite open_run.
  destruct (unwrapped_cases (os w (sys_socket domain type protocol)))
    as [(d & -> & Hd & _) | (-> & _)]; [| discriminate].
  destruct (SetNonBlocking_initial os d (w ++ [sys_socket domain type protocol]))
    as (o & calls & Hset & _ & _).
  unfold World in *. rewrite Hset.
  destruct o as [[] | e |]; try discriminate.
  intros H. injection H as <- _. split; [reflexivity | exact Hd].
Qed.

Lemma make_path_run (path : string) (w : World) :
  LocalSocket.make_path os path w =
  match Socket.open os LocalSocket.sDomain LocalSocket.sType
          LocalSocket.sProtocol w with
  | (Return b, w1) =>
      match LocalAddress.make path with
      | Return address =>
          (Return {| LocalSocket.base := b; LocalSocket.mAddress := address |}, w1)
      | Throw e => (Throw e, snd (Socket.destroy os b w1))
      | Undefined => (Undefined, w1)
      end
  | (Throw e, w1) => (Throw e, w1)
  | (Undefined, w1) => (Undefined, w1)
  end.
Proof.
  unfold LocalSocket.make_path, bind.
  destruct (Socket.open os _ _ _ w) as [[b | e |] w1]; try reflexivity.
  unfold unwind, lift_outcome.
  destruct (LocalAddress.make path) as [address | e |]; try reflexivity.
  rewrite destroy_run. reflexivity.
Qed.

(** What a successful [LocalSocket(path)] leaves: a freshly opened socket
    and the address built from the path. *)
Lemma make_path_returns (path : string) (w w1 : World) (self : LocalSocket.t) :
  LocalSocket.make_path os path w = (Return self, w1) ->
  Socket.open os LocalSocket.sDomain LocalSocket.sType LocalSocket.sProtocol w
    = (Return (LocalSocket.base self), w1) /\
  LocalAddress.make path = Return (LocalSocket.mAddress self) /\
  LocalSocket.base self =
    Socket.set_mIsNonBlocking true
      (Socket.initial (Socket.mDescriptor (LocalSocket.base self))) /\
  Socket.mDescriptor (LocalSocket.base self) <> Socket.sInvalidSocket.
Proof.
  rewrite make_path_run.
  destruct (Socket.open os _ _ _ w) as [[b | e |] w0] eqn:Hopen;
    try discriminate.
  destruct (LocalAddress.make path) as [address | e |]; try discriminate.
  intros H. injection H as <- <-. cbn [LocalSocket.base LocalSocket.mAddress].
  split; [reflexivity |]. split; [reflexivity |].
  apply (open_returns_object _ _ _ _ _ _ Hopen).
Qed.

(** A wrapped call whose value is dropped. *)
Lemma SysCall_Unwrap_void_run (call : SysOp) (w : World) :
  (p <- SysCall os call ;; _ <- Unwrap (fst p) ;; ret tt)%prog w =
  (void (unwrapped (os w call)), w ++ [call]).
Proof.
  unfold bind. rewrite SysCall_call. cbn [fst].
  rewrite Unwrap_SysCall_result_unwrapped.
  destruct (unwrapped _); reflexivity.
Qed.

Lemma Unlink_run (a : LocalAddress.t) (w : World) :
  LocalAddress.Unlink os a w =
  (Return tt, w ++ [sys_unlink (LocalAddress.GetPath a)]).
Proof. reflexivity. Qed.

(** X11.  When the address cannot be built from the path (an empty path,
    a path too long), the socket that [LocalSocket(path)] has already opened
    is closed with one call before the exception of the address leaves the
    constructor; the connector and the acceptor constructors end the same
    way, without a [connect], [unlink], [bind] or [listen]. *)
Theorem address_failure_closes_socket
  (path : string) (backlog : Z) (w w1 : World) (b : Socket.t) (e : exception) :
  Socket.open os LocalSocket.sDomain LocalSocket.sType LocalSocket.sProtocol w
    = (Return b, w1) ->
  LocalAddress.make path = Throw e ->
  LocalSocket.make_path os path w
    = (Throw e, w1 ++ [sys_close (Socket.mDescriptor b)]) /\
  LocalConnectorSocket.make_path os path w
    = (Throw e, w1 ++ [sys_close (Socket.mDescriptor b)]) /\
  LocalAcceptorSocket.make os path backlog w
    = (Throw e, w1 ++ [sys_close (Socket.mDescriptor b)]).
Proof.
  intros Hopen Hmake.
  assert (Hrun : LocalSocket.make_path os path w
                 = (Throw e, w1 ++ [sys_close (Socket.mDescriptor b)])).
  { rewrite make_path_run, Hopen, Hmake, destroy_run. cbn [snd].
    destruct (open_returns_object _ _ _ _ _ _ Hopen) as [_ Hd].
    destruct (Z.eqb_spec (Socket.mDescriptor b) Socket.sInvalidSocket);
      [contradiction | reflexivity]. }
  split; [exact Hrun |].
  unfold LocalConnectorSocket.make_path, LocalAcceptorSocket.make.
  unfold bind at 1 3. rewrite Hrun. split; reflexivity.
Qed.

(** X12.  When [LocalSocket(path)] has succeeded and [connect] does not
    return -1, the connector constructor returns that socket after the one
    [connect] call.  The connector holds a descriptor other than the
    sentinel and the address built from the path, is in non-blocking mode,
    and has both readiness flags clear: until an [Update] sets a flag,
    [TrySend] and [TryRecv] on it return the empty optional without a system
    call. *)
Theorem connector_starts_gated
  (path : string) (w w1 : World) (self : LocalSocket.t) :
  LocalSocket.make_path os path w = (Return self, w1) ->
  let connect :=
    sys_connect (Socket.mDescriptor (LocalSocket.base self))
      (LocalAddress.mAddress (LocalSocket.mAddress self))
      (LocalAddress.mSize (LocalSocket.mAddress self)) in
  static_cast_int (r_ret (os w1 connect)) <> -1 ->
  LocalConnectorSocket.make_path os path w = (Return self, w1 ++ [connect]) /\
  Socket.mDescriptor (LocalSocket.base self) <> Socket.sInvalidSocket /\
  LocalAddress.make path = Return (LocalSocket.mAddress self) /\
  forall (buf n : Z) (w2 : World),
    LocalConnectorSocket.TrySend os buf n (self, w2) = (Return None, (self, w2)) /\
    LocalConnectorSocket.TryRecv os buf n (self, w2) = (Return None, (self, w2)).
Proof.
  intros Hmake connect Hret.
  destruct (make_path_returns _ _ _ _ Hmake) as (_ & Haddr & Hbase & Hd).
  split.
  { unfold LocalConnectorSocket.make_path, bind at 1. rewrite Hmake.
    unfold bind, unwind.
    pose proof (Connect_run os self w1) as Hc. cbv zeta in Hc.
    fold connect in Hc. rewrite Hc.
    destruct (Z.eqb_spec (static_cast_int (r_ret (os w1 connect))) (-1));
      [contradiction | reflexivity]. }
  split; [exact Hd |]. split; [exact Haddr |].
  intros buf n w2. destruct self as [b a]. cbn [LocalSocket.base] in Hbase.
  rewrite Hbase. split; reflexivity.
Qed.

(** X13.  When [LocalSocket(path)] has succeeded, the acceptor constructor
    calls [unlink] on the path of the address, then [bind], then [listen],
    in that order.  What [unlink] answers is not looked at.  When [bind]
    fails, [listen] is never called; when [bind] or [listen] fails, the
    socket is closed with one call and a [system_error] with the [errno] of
    the failed call is thrown.  When neither fails the socket is returned
    and stays open. *)
Theorem acceptor_unlink_bind_listen
  (path : string) (backlog : Z) (w w1 : World) (self : LocalSocket.t) :
  LocalSocket.make_path os path w = (Return self, w1) ->
  let d := Socket.mDescriptor (LocalSocket.base self) in
  let address := LocalSocket.mAddress self in
  let unlink := sys_unlink (LocalAddress.GetPath address) in
  let bind_ := sys_bind d (LocalAddress.mAddress address) (LocalAddress.mSize address) in
  let listen := sys_listen d backlog in
  let bound := os (w1 ++ [unlink]) bind_ in
  let listening := os (w1 ++ [unlink; bind_]) listen in
  (static_cast_int (r_ret bound) = -1 -> r_errno bound <> sNotAnError ->
     LocalAcceptorSocket.make os path backlog w =
     (Throw (system_error (r_errno bound)),
      w1 ++ [unlink; bind_; sys_close d])) /\
  (static_cast_int (r_ret bound) <> -1 ->
   static_cast_int (r_ret listening) = -1 -> r_errno listening <> sNotAnError ->
     LocalAcceptorSocket.make os path backlog w =
     (Throw (system_error (r_errno listening)),
      w1 ++ [unlink; bind_; listen; sys_close d])) /\
  (static_cast_int (r_ret bound) <> -1 ->
   static_cast_int (r_ret listening) <> -1 ->
     LocalAcceptorSocket.make os path backlog w =
     (Return self, w1 ++ [unlink; bind_; listen])).
Proof.
  intros Hmake d address unlink bind_ listen bound listening.
  destruct (make_path_returns _ _ _ _ Hmake) as (_ & _ & _ & Hd).
  assert (Hrun :
    LocalAcceptorSocket.make os path backlog w =
    match void (unwrapped bound) with
    | Return _ =>
        match void (unwrapped listening) with
        | Return _ => (Return self, w1 ++ [unlink; bind_; listen])
        | Throw e => (Throw e, w1 ++ [unlink; bind_; listen; sys_close d])
        | Undefined => (Undefined, w1 ++ [unlink; bind_; listen])
        end
    | Throw e => (Throw e, w1 ++ [unlink; bind_; sys_close d])
    | Undefined => (Undefined, w1 ++ [unlink; bind_])
    end).
  { unfold LocalAcceptorSocket.make, bind at 1. rewrite Hmake.
    unfold bind at 1, unwind, bind at 1.
    unfold LocalSocket.UnlinkAddress. rewrite Unlink_run.
    unfold bind at 1, LocalSocket.Bind.
    rewrite SysCall_Unwrap_void_run.
    unfold Socket.GetDescriptor, LocalAddress.GetSize.
    fold d address unlink bind_ bound.
    destruct (void (unwrapped bound)) as [[] | e |].
    - unfold LocalSocket.Listen. rewrite SysCall_Unwrap_void_run.
      unfold Socket.GetDescriptor. fold d listen.
      rewrite <- app_assoc. cbn [app]. fold listening.
      destruct (void (unwrapped listening)) as [[] | e |].
      + rewrite <- app_assoc. reflexivity.
      + unfold LocalSocket.destroy. rewrite destroy_run. fold d.
        destruct (Z.eqb_spec d Socket.sInvalidSocket); [contradiction |].
        rewrite <- !app_assoc. reflexivity.
      + rewrite <- app_assoc. reflexivity.
    - unfold LocalSocket.destroy. rewrite destroy_run. fold d.
      destruct (Z.eqb_spec d Socket.sInvalidSocket); [contradiction |].
      rewrite <- !app_assoc. reflexivity.
    - rewrite <- app_assoc. reflexivity. }
  assert (Hfail : forall out, static_cast_int (r_ret out) = -1 ->
            r_errno out <> sNotAnError ->
            void (unwrapped out) = Throw (system_error (r_errno out))).
  { intros out Hret Herr. unfold unwrapped. rewrite Hret. cbn.
    destruct (Z.eqb_spec (r_errno out) sNotAnError); [contradiction | reflexivity]. }
  assert (Hok : forall out, static_cast_int (r_ret out) <> -1 ->
            void (unwrapped out) = Return tt).
  { intros out Hret. unfold unwrapped.
    destruct (Z.eqb_spec (static_cast_int (r_ret out)) (-1));
      [contradiction | reflexivity]. }
  rewrite Hrun. split; [| split].
  - intros Hret Herr. rewrite (Hfail _ Hret Herr). reflexivity.
  - intros Hb Hret Herr. rewrite (Hok _ Hb), (Hfail _ Hret Herr). reflexivity.
  - intros Hb Hl. rewrite (Hok _ Hb), (Hok _ Hl). reflexivity.
Qed.

End RoleFacts.

(** ** Accepting a connection *)

Section AcceptFacts.
Context {platform : Platform}.
Variable os : OS.

(** What the constructor from a descriptor other than the sentinel can do. *)
Lemma make_descriptor_cases
  (descriptor : Z) (address : LocalAddress.t) (w : World) :
  descriptor <> Socket.sInvalidSocket ->
  exists o calls,
    LocalConnectorSocket.make_descriptor os descriptor address w
      = (o, w ++ calls) /\
    match o with
    | Return self =>
        LocalAddress.IsValid address = true /\
        self = {| LocalSocket.base :=
                    Socket.set_mIsNonBlocking true (Socket.initial descriptor);
                  LocalSocket.mAddress := address |} /\
        Forall (fun call => is_close call = false) calls
    | Throw (invalid_argument what) =>
        LocalAddress.IsValid address = false /\
        exists flags,
          calls = [sys_fcntl descriptor F_GETFL 0;
                   sys_fcntl descriptor F_SETFL (Z.lor flags O_NONBLOCK);
                   sys_close descriptor]
    | Throw (system_error code) =>
        code <> sNotAnError /\
        Forall (fun call => is_close call = false) calls
    | _ => False
    end.
Proof.
  unfold LocalConnectorSocket.make_descriptor, LocalSocket.make_descriptor,
    Socket.adopt.
  intros Hd. unfold bind at 1.
  destruct (Z.eqb_spec descriptor Socket.sInvalidSocket); [contradiction |].
  destruct (SetNonBlocking_initial os descriptor w)
    as (o & calls & Hset & Hcalls & [[-> (flags & ->)] | (code & -> & Hcode)]);
    unfold World in *; rewrite Hset.
  - unfold bind, unwind. cbn [LocalSocket.mAddress].
    destruct (LocalAddress.IsValid address) eqn:Hvalid; cbn [negb].
    + eexists (Return _), _. split; [reflexivity |].
      split; [reflexivity |]. split; [reflexivity | exact Hcalls].
    + unfold throw. rewrite destroy_run.
      cbn [Socket.mDescriptor Socket.set_mIsNonBlocking Socket.initial].
      destruct (Z.eqb_spec descriptor Socket.sInvalidSocket); [contradiction |].
      eexists (Throw (invalid_argument _)), _.
      split; [rewrite <- app_assoc; reflexivity |].
      split; [reflexivity | eauto].
  - eexists (Throw (system_error code)), _. split; [reflexivity |].
    split; [exact Hcode | exact Hcalls].
Qed.

(** X10.  The constructor from an accepted descriptor, by what it is given
    and what the system answers.  Given the sentinel -1 it throws
    [invalid_argument] without a system call.  Given another descriptor it
    calls [fcntl(F_GETFL)] and [fcntl(F_SETFL)] on it; when either fails it
    throws a [system_error] with the [errno] of that call and leaves the
    descriptor open.  When both succeed it checks the family of the address:
    for a family other than the local one it closes the descriptor with one
    call and throws [invalid_argument]; for the local family it returns the
    socket, which holds that descriptor and that address, is in non-blocking
    mode and has both readiness flags clear. *)
Theorem make_descriptor_outcomes
  (descriptor : Z) (address : LocalAddress.t) (w : World) :
  let getfl := sys_fcntl descriptor F_GETFL 0 in
  let read := os w getfl in
  (descriptor = Socket.sInvalidSocket ->
     LocalConnectorSocket.make_descriptor os descriptor address w =
       (Throw (invalid_argument "invalid socket descriptor"), w)) /\
  (descriptor <> Socket.sInvalidSocket ->
     (static_cast_int (r_ret read) = -1 -> r_errno read <> sNotAnError ->
        LocalConnectorSocket.make_descriptor os descriptor address w =
        (Throw (system_error (r_errno read)), w ++ [getfl])) /\
     (forall flags, unwrapped read = Return flags ->
        let setfl := sys_fcntl descriptor F_SETFL (Z.lor flags O_NONBLOCK) in
        let written := os (w ++ [getfl]) setfl in
        (static_cast_int (r_ret written) = -1 -> r_errno written <> sNotAnError ->
           LocalConnectorSocket.make_descriptor os descriptor address w =
           (Throw (system_error (r_errno written)), w ++ [getfl; setfl])) /\
        (forall r, unwrapped written = Return r ->
         LocalAddress.IsValid address = false ->
           LocalConnectorSocket.make_descriptor os descriptor address w =
           (Throw (invalid_argument "invalid local socket address"),
            w ++ [getfl; setfl; sys_close descriptor])) /\
        (forall r, unwrapped written = Return r ->
         LocalAddress.IsValid address = true ->
           LocalConnectorSocket.make_descriptor os descriptor address w =
           (Return {| LocalSocket.base :=
                        Socket.set_mIsNonBlocking true (Socket.initial descriptor);
                      LocalSocket.mAddress := address |},
            w ++ [getfl; setfl])))).
Proof.
  intros getfl read. split.
  - intros ->. reflexivity.
  - intros Hd.
    assert (Hrun :
      LocalConnectorSocket.make_descriptor os descriptor address w =
      match Socket.SetNonBlocking os (Socket.initial descriptor, w) with
      | (Return _, (b, w1)) =>
          if LocalAddress.IsValid address
          then (Return {| LocalSocket.base := b; LocalSocket.mAddress := address |}, w1)
          else (Throw (invalid_argument "invalid local socket address"),
                snd (Socket.destroy os b w1))
      | (Throw e, (_, w1)) => (Throw e, w1)
      | (Undefined, (_, w1)) => (Undefined, w1)
      end).
    { unfold LocalConnectorSocket.make_descriptor, LocalSocket.make_descriptor,
        Socket.adopt, bind at 1.
      destruct (Z.eqb_spec descriptor Socket.sInvalidSocket); [contradiction |].
      destruct (Socket.SetNonBlocking os (Socket.initial descriptor, w))
        as [[[] | e |] [b w1]]; try reflexivity.
      unfold bind, unwind. cbn [LocalSocket.mAddress].
      destruct (LocalAddress.IsValid address); cbn [negb]; [reflexivity |].
      unfold throw. rewrite destroy_run. reflexivity. }
    destruct (SetNonBlocking_initial_by_reply os descriptor w) as [Hfail Hread].
    fold getfl read in Hfail, Hread.
    unfold World in Hfail, Hread, Hrun.
    split.
    + intros Hret Herr. rewrite Hrun, (Hfail Hret Herr). reflexivity.
    + intros flags Hflags setfl written.
      destruct (Hread flags Hflags) as [Hbad Hgood].
      fold setfl written in Hbad, Hgood. split; [| split].
      * intros Hret Herr. rewrite Hrun, (Hbad Hret Herr). reflexivity.
      * intros r Hr Hvalid. rewrite Hrun, (Hgood r Hr), Hvalid, destroy_run.
        cbn [snd Socket.mDescriptor Socket.set_mIsNonBlocking Socket.initial].
        destruct (Z.eqb_spec descriptor Socket.sInvalidSocket); [contradiction |].
        rewrite <- app_assoc. reflexivity.
      * intros r Hr Hvalid. rewrite Hrun, (Hgood r Hr), Hvalid. reflexivity.
Qed.

(** [Accept] past its gate: the [accept] call, the connector built from its
    answer, and the move into the optional. *)
Lemma Accept_gate_open (s : LocalSocket.t) (w : World) :
  Socket.mIsReadable (LocalSocket.base s)
  || negb (Socket.mIsNonBlocking (LocalSocket.base s)) = true ->
  let call := sys_accept (Socket.mDescriptor (LocalSocket.base s))
                LocalAddress.sMaxSize in
  let out := os w call in
  let address := {| LocalAddress.mSize := to_socklen_t (r_outlen out);
                    LocalAddress.mAddress := r_addr out |} in
  let s' := {| LocalSocket.base := Socket.set_mIsReadable false (LocalSocket.base s);
               LocalSocket.mAddress := LocalSocket.mAddress s |} in
  LocalAcceptorSocket.Accept os (s, w) =
  match SysCallBlocking_result (r_ret out) (r_errno out) with
  | Some desc =>
      if IsError desc then (Throw (system_error (mCode desc)), (s', w ++ [call]))
      else
        match LocalConnectorSocket.make_descriptor os (mValue desc) address
                (w ++ [call]) with
        | (Return temporary, w2) =>
            (Return (Some (fst (LocalSocket.move temporary))),
             (s', snd (LocalSocket.destroy os (snd (LocalSocket.move temporary)) w2)))
        | (Throw e, w2) => (Throw e, (s', w2))
        | (Undefined, w2) => (Undefined, (s', w2))
        end
  | None => (Return None, (s', w ++ [call]))
  end.
Proof.
  intros Hgate. cbv zeta.
  unfold LocalAcceptorSocket.Accept, bind, LocalSocket.on_base_only,
    LocalSocket.on_base, on_fst, on_snd.
  cbn [fst snd]. rewrite GetAndResetIsReadable_run, Hgate. cbn [negb get fst snd].
  rewrite SysCallBlocking_run. cbn [fst snd Socket.GetDescriptor
    LocalSocket.base Socket.mDescriptor Socket.set_mIsReadable
    LocalAddress.GetSizePtr LocalAddress.mSize].
  destruct (SysCallBlocking_result _ _) as [desc |]; [| reflexivity].
  unfold Unwrap, ThrowCode, throw, ret.
  destruct (IsError desc); [reflexivity |]. cbn [fst snd].
  destruct (LocalConnectorSocket.make_descriptor os _ _ _) as [[temporary | e |] w2];
    try reflexivity.
Qed.

(** X8.  Past its gate, when [accept] returns a descriptor and the
    connector built from it and from the peer address is returned, [Accept]
    returns that connector and makes no call besides [accept] and the two
    [fcntl] calls of the constructor: the accepted descriptor is not closed
    on the way through the optional.  The connector holds the accepted
    descriptor and the address the system stored.  The acceptor keeps its
    descriptor and has its readable flag cleared.  When the constructor
    throws, [Accept] throws the same after the same calls. *)
Theorem Accept_hands_over_descriptor (s : LocalSocket.t) (w : World) :
  Socket.mIsReadable (LocalSocket.base s)
  || negb (Socket.mIsNonBlocking (LocalSocket.base s)) = true ->
  let call := sys_accept (Socket.mDescriptor (LocalSocket.base s))
                LocalAddress.sMaxSize in
  let out := os w call in
  let accepted := static_cast_int (r_ret out) in
  let address := {| LocalAddress.mSize := to_socklen_t (r_outlen out);
                    LocalAddress.mAddress := r_addr out |} in
  let s' := {| LocalSocket.base := Socket.set_mIsReadable false (LocalSocket.base s);
               LocalSocket.mAddress := LocalSocket.mAddress s |} in
  accepted <> -1 ->
  (forall temporary w2,
     LocalConnectorSocket.make_descriptor os accepted address (w ++ [call])
       = (Return temporary, w2) ->
     LocalAcceptorSocket.Accept os (s, w) =
     (Return (Some {| LocalSocket.base := Socket.initial accepted;
                      LocalSocket.mAddress := address |}),
      (s', w2))) /\
  (forall e w2,
     LocalConnectorSocket.make_descriptor os accepted address (w ++ [call])
       = (Throw e, w2) ->
     LocalAcceptorSocket.Accept os (s, w) = (Throw e, (s', w2))).
Proof.
  intros Hgate call out accepted address s' Hacc.
  pose proof (Accept_gate_open s w Hgate) as Hrun. cbv zeta in Hrun.
  fold call out address s' in Hrun.
  assert (Hres : SysCallBlocking_result (r_ret out) (r_errno out)
                 = Some (SysReturn_value accepted)).
  { unfold SysCallBlocking_result. fold accepted.
    destruct (Z.eqb_spec accepted (-1)); [contradiction | reflexivity]. }
  rewrite Hres in Hrun. cbn [IsError SysReturn_value mCode mValue] in Hrun.
  change (negb (sNotAnError =? sNotAnError)) with false in Hrun.
  cbv iota in Hrun.
  split.
  - intros temporary w2 Hmake. rewrite Hrun.
    destruct (make_descriptor_cases accepted address (w ++ [call]) Hacc)
      as (o & calls & Hmd & Ho).
    unfold World in *. rewrite Hmake in Hmd. injection Hmd as <- ->.
    destruct Ho as (_ & -> & _). rewrite Hmake.
    unfold LocalSocket.move, Socket.move. cbn [fst snd LocalSocket.base
      LocalSocket.mAddress Socket.mDescriptor Socket.set_mIsNonBlocking
      Socket.initial Socket.set_mDescriptor].
    unfold LocalSocket.destroy. rewrite destroy_run. reflexivity.
  - intros e w2 Hmake. rewrite Hrun. unfold World in *. rewrite Hmake.
    reflexivity.
Qed.

(** X9.  The connector [Accept] returns was move-constructed, and the move
    constructor of [Socket] takes the descriptor only: the connector has
    both readiness flags clear and its mode flag clear, although its
    descriptor was put into non-blocking mode.  Its gates are therefore
    always open: [TrySend] and [TryRecv] on it go to the system on every
    call, cached readiness or not. *)
Theorem accepted_connector_is_ungated
  (st st' : LocalSocket.t * World) (conn : LocalConnectorSocket.t) :
  LocalAcceptorSocket.Accept os st = (Return (Some conn), st') ->
  Socket.mIsReadable (LocalSocket.base conn) = false /\
  Socket.mIsWritable (LocalSocket.base conn) = false /\
  Socket.mIsNonBlocking (LocalSocket.base conn) = false /\
  forall (buf n : Z) (w : World),
    snd (snd (LocalConnectorSocket.TrySend os buf n (conn, w))) =
      w ++ [sys_send (Socket.mDescriptor (LocalSocket.base conn)) buf n 0] /\
    snd (snd (LocalConnectorSocket.TryRecv os buf n (conn, w))) =
      w ++ [sys_recv (Socket.mDescriptor (LocalSocket.base conn)) buf n 0].
Proof.
  intros Haccept.
  pose proof (Accept_returns_moved_connector os st st' conn Haccept) as Hbase.
  unfold LocalConnectorSocket.t in *.
  destruct conn as [b a]. cbn [LocalSocket.base] in *.
  destruct b as [d r wr nb]. cbn [Socket.mDescriptor] in *.
  injection Hbase as -> -> ->.
  split; [reflexivity |]. split; [reflexivity |]. split; [reflexivity |].
  intros buf n w.
  pose proof (TrySend_gate_open os buf n
                {| LocalSocket.base := Socket.initial d;
                   LocalSocket.mAddress := a |} w eq_refl) as Hsend.
  pose proof (TryRecv_gate_open os buf n
                {| LocalSocket.base := Socket.initial d;
                   LocalSocket.mAddress := a |} w eq_refl) as Hrecv.
  cbv zeta in Hsend, Hrecv. unfold Socket.initial in *.
  rewrite Hsend, Hrecv. split; reflexivity.
Qed.

End AcceptFacts.

(** ** Using the poll list *)

Section PollerFacts.
Context {platform : Platform}.

Lemma At_lookup (p : event.Poller.t) (idx : Z) (entry : pollfd_t) :
  INT_MIN <= idx <= INT_MAX -> 0 <= idx ->
  event.Poller.mPollList p !! Z.to_nat idx = Some entry ->
  event.Poller.At idx p = (Return (event.Result.Result (revents entry)), p).
Proof.
  intros Hint Hpos Hentry. unfold event.Poller.At.
  rewrite to_size_t_int by exact Hint.
  destruct (Z.ltb_spec idx 0); [lia |]. rewrite Hentry. reflexivity.
Qed.

Lemma At_None (p : event.Poller.t) (idx : Z) :
  INT_MIN <= idx <= INT_MAX ->
  Z.of_nat (length (event.Poller.mPollList p)) <= INT_MAX ->
  ~ (0 <= idx < Z.of_nat (length (event.Poller.mPollList p))) ->
  event.Poller.At idx p = (Throw out_of_range, p).
Proof.
  intros Hint Hlen Hout. unfold event.Poller.At.
  rewrite to_size_t_int by exact Hint.
  rewrite (proj2 (lookup_ge_None _ _)); [reflexivity |].
  unfold INT_MIN, INT_MAX in *. destruct (Z.ltb_spec idx 0); lia.
Qed.

(** X14.  For an [int] index and a list whose size is an [int], [At]
    returns exactly when the index is inside [0, GetSize()), and what it
    returns then is the returned-events word stored in the entry at that
    index; the list is not changed. *)
Theorem At_returns_iff_in_range (p : event.Poller.t) (idx : Z) :
  INT_MIN <= idx <= INT_MAX ->
  Z.of_nat (length (event.Poller.mPollList p)) <= INT_MAX ->
  ((exists r, event.Poller.At idx p = (Return r, p)) <->
   0 <= idx < event.Poller.GetSize p) /\
  (0 <= idx < event.Poller.GetSize p ->
   exists entry,
     event.Poller.mPollList p !! Z.to_nat idx = Some entry /\
     event.Poller.At idx p = (Return (event.Result.Result (revents entry)), p)).
Proof.
  intros Hint Hlen. rewrite GetSize_length by exact Hlen.
  assert (Hin : 0 <= idx < Z.of_nat (length (event.Poller.mPollList p)) ->
                exists entry,
                  event.Poller.mPollList p !! Z.to_nat idx = Some entry /\
                  event.Poller.At idx p
                  = (Return (event.Result.Result (revents entry)), p)).
  { intros [Hlo Hhi].
    destruct (lookup_lt_is_Some_2 (event.Poller.mPollList p) (Z.to_nat idx))
      as [entry Hentry]; [lia |].
    exists entry. split; [exact Hentry | apply At_lookup; assumption]. }
  split; [| exact Hin]. split.
  - intros [r Hr].
    destruct (decide (0 <= idx < Z.of_nat (length (event.Poller.mPollList p))))
      as [Hok | Hout]; [exact Hok |].
    rewrite (At_None p idx Hint Hlen Hout) in Hr. discriminate Hr.
  - intros Hrange. destruct (Hin Hrange) as (entry & _ & Hat). eauto.
Qed.


Lemma Remove_in_range (p : event.Poller.t) (idx : Z) :
  0 <= idx < Z.of_nat (length (event.Poller.mPollList p)) ->
  event.Poller.Remove idx p =
  (Return tt,
   {| event.Poller.mPollList := delete (Z.to_nat idx) (event.Poller.mPollList p) |}).
Proof.
  intros [Hlo Hhi]. unfold event.Poller.Remove.
  destruct (Z.leb_spec 0 idx); [| lia].
  destruct (Z.ltb_spec idx (Z.of_nat (length (event.Poller.mPollList p))));
    [reflexivity | lia].
Qed.

(** X16.  Removing two entries by index depends on the order.  For two
    indices [j < i] inside the list, removing [i] and then [j] drops the two
    entries that sat at [i] and [j], and so does removing [j] and then
    [i - 1].  After removing [j] first, the entry that sat at [i] sits at
    [i - 1]: a second [Remove] with the stale index [i] leaves it in the list
    and drops the entry that sat at [i + 1], or, when [i] was the last
    index, has no defined behaviour. *)
Theorem Remove_order_matters (p : event.Poller.t) (i j : Z) :
  0 <= j < i ->
  i < Z.of_nat (length (event.Poller.mPollList p)) ->
  let l := event.Poller.mPollList p in
  let high_first :=
    {| event.Poller.mPollList := delete (Z.to_nat j) (delete (Z.to_nat i) l) |} in
  let low_removed := {| event.Poller.mPollList := delete (Z.to_nat j) l |} in
  (event.Poller.Remove j (snd (event.Poller.Remove i p)) = (Return tt, high_first) /\
   event.Poller.Remove (i - 1) (snd (event.Poller.Remove j p))
     = (Return tt, high_first)) /\
  (forall k : nat,
     event.Poller.mPollList high_first !! k =
     l !! (if (k <? Z.to_nat j)%nat then k
           else if (k <? Z.to_nat i - 1)%nat then S k else S (S k))) /\
  snd (event.Poller.Remove j p) = low_removed /\
  event.Poller.mPollList low_removed !! Z.to_nat (i - 1) = l !! Z.to_nat i /\
  (i + 1 < Z.of_nat (length l) ->
     exists p',
       event.Poller.Remove i low_removed = (Return tt, p') /\
       event.Poller.mPollList p' !! Z.to_nat (i - 1) = l !! Z.to_nat i /\
       event.Poller.mPollList p' !! Z.to_nat i = l !! Z.to_nat (i + 2)) /\
  (i + 1 = Z.of_nat (length l) ->
     event.Poller.Remove i low_removed = (Undefined, low_removed)).
Proof.
  intros Hji Hi' l high_first low_removed.
  assert (Hi : i < Z.of_nat (length l)) by exact Hi'.
  assert (Hlen_i : length (delete (Z.to_nat i) l) = (length l - 1)%nat).
  { rewrite length_delete; [lia |]. apply lookup_lt_is_Some_2. lia. }
  assert (Hlen_j : length (delete (Z.to_nat j) l) = (length l - 1)%nat).
  { rewrite length_delete; [lia |]. apply lookup_lt_is_Some_2. lia. }
  assert (Hlookup : forall k : nat,
            delete (Z.to_nat j) (delete (Z.to_nat i) l) !! k =
            l !! (if (k <? Z.to_nat j)%nat then k
                  else if (k <? Z.to_nat i - 1)%nat then S k else S (S k))).
  { intros k. destruct (Nat.ltb_spec k (Z.to_nat j)).
    - rewrite list_lookup_delete_lt by lia. apply list_lookup_delete_lt. lia.
    - rewrite list_lookup_delete_ge by lia.
      destruct (Nat.ltb_spec k (Z.to_nat i - 1)).
      + apply list_lookup_delete_lt. lia.
      + apply list_lookup_delete_ge. lia. }
  assert (Hcomm : delete (Z.to_nat (i - 1)) (delete (Z.to_nat j) l)
                  = delete (Z.to_nat j) (delete (Z.to_nat i) l)).
  { apply list_eq. intros k. rewrite Hlookup.
    destruct (Nat.ltb_spec k (Z.to_nat j)).
    - rewrite list_lookup_delete_lt by lia. apply list_lookup_delete_lt. lia.
    - destruct (Nat.ltb_spec k (Z.to_nat i - 1)).
      + rewrite list_lookup_delete_lt by lia. apply list_lookup_delete_ge. lia.
      + rewrite list_lookup_delete_ge by lia. apply list_lookup_delete_ge. lia. }
  split; [split |].
  - rewrite (Remove_in_range p i) by lia. cbn [snd].
    rewrite Remove_in_range
      by (cbn [event.Poller.mPollList]; fold l; rewrite Hlen_i; lia).
    reflexivity.
  - rewrite (Remove_in_range p j) by lia. cbn [snd].
    rewrite Remove_in_range
      by (cbn [event.Poller.mPollList]; fold l; rewrite Hlen_j; lia).
    cbn [event.Poller.mPollList]. fold l. rewrite Hcomm. reflexivity.
  - split; [exact Hlookup |].
    split; [rewrite (Remove_in_range p j) by lia; reflexivity |].
    split.
    { cbn [event.Poller.mPollList low_removed].
      rewrite list_lookup_delete_ge by lia. f_equal. lia. }
    split.
    + intros Hnext. eexists. split.
      { apply Remove_in_range. cbn [event.Poller.mPollList low_removed].
        rewrite Hlen_j. lia. }
      cbn [event.Poller.mPollList low_removed]. split.
      * rewrite list_lookup_delete_lt by lia.
        rewrite list_lookup_delete_ge by lia. f_equal. lia.
      * rewrite list_lookup_delete_ge by lia.
        rewrite list_lookup_delete_ge by lia. f_equal. lia.
    + intros Hlast. unfold event.Poller.Remove.
      cbn [event.Poller.mPollList low_removed]. rewrite Hlen_j.
      destruct (Z.ltb_spec i (Z.of_nat (length l - 1))); [lia |].
      rewrite andb_false_r. reflexivity.
Qed.

Section Polling.
Variable os : OS.

Lemma length_write_revents (fds : list pollfd_t) (rs : list Z) :
  length (event.Poller.write_revents fds rs) = length fds.
Proof.
  revert rs. induction fds as [| f fds IH]; intros [| r rs]; cbn; auto.
Qed.

Lemma lookup_write_revents (fds : list pollfd_t) (rs : list Z) (i : nat) :
  event.Poller.write_revents fds rs !! i =
  match fds !! i with
  | Some entry =>
      Some {| fd := fd entry; events := events entry;
              revents := match rs !! i with
                         | Some r => r
                         | None => revents entry
                         end |}
  | None => None
  end.
Proof.
  revert rs i. induction fds as [| f fds IH]; intros rs i.
  - destruct rs; reflexivity.
  - destruct rs as [| r rs].
    + cbn [event.Poller.write_revents]. rewrite lookup_nil.
      destruct ((f :: fds) !! i) as [[a b c] |]; reflexivity.
    + destruct i as [| i]; [reflexivity |]. cbn. apply IH.
Qed.

(** X17.  [Poll] makes one [poll] call with the list as it is and the
    timeout it was given.  It returns, or it throws a [system_error] with
    the non-zero [errno] of a call that returned -1, an interrupted wait
    included.  Either way the list has the same entries with the same
    descriptors and interest masks in the same places; only the returned
    events change, and [At] reads for every entry the word the system
    stored for it. *)
Theorem Poll_keeps_watch_list (timeoutMs : Z) (p : event.Poller.t) (w : World) :
  let call := sys_poll (event.Poller.mPollList p) timeoutMs in
  let out := os w call in
  exists o p',
    event.Poller.Poll os timeoutMs (p, w) = (o, (p', w ++ [call])) /\
    (o = Return tt \/
     (o = Throw (system_error (r_errno out)) /\ r_errno out <> sNotAnError /\
      static_cast_int (r_ret out) = -1)) /\
    map fd (event.Poller.mPollList p') = map fd (event.Poller.mPollList p) /\
    map events (event.Poller.mPollList p') = map events (event.Poller.mPollList p) /\
    forall (i : nat) (r : Z),
      (i < length (event.Poller.mPollList p))%nat ->
      Z.of_nat i <= INT_MAX ->
      r_revents out !! i = Some r ->
      event.Poller.At (Z.of_nat i) p' = (Return (event.Result.Result r), p').
Proof.
  intros call out.
  exists (void (unwrapped out)),
    {| event.Poller.mPollList :=
         event.Poller.write_revents (event.Poller.mPollList p) (r_revents out) |}.
  split.
  { unfold event.Poller.Poll, bind, on_fst, on_snd, get, put. cbn [fst snd].
    rewrite SysCall_call. cbn [fst snd]. fold call out.
    rewrite Unwrap_SysCall_result_unwrapped.
    destruct (unwrapped out); reflexivity. }
  split; [apply void_unwrapped_cases |].
  cbn [event.Poller.mPollList].
  split; [| split].
  - apply list_eq. intros i. rewrite !list_lookup_fmap, lookup_write_revents.
    destruct (event.Poller.mPollList p !! i); reflexivity.
  - apply list_eq. intros i. rewrite !list_lookup_fmap, lookup_write_revents.
    destruct (event.Poller.mPollList p !! i); reflexivity.
  - intros i r Hi Hint Hr.
    destruct (lookup_lt_is_Some_2 (event.Poller.mPollList p) i Hi) as [entry He].
    replace r with
      (revents {| fd := fd entry; events := events entry; revents := r |})
      by reflexivity.
    apply At_lookup.
    + unfold INT_MIN. lia.
    + lia.
    + cbn [event.Poller.mPollList]. rewrite Nat2Z.id, lookup_write_revents, He, Hr.
      reflexivity.
Qed.

End Polling.
End PollerFacts.

(** ** No descriptor is lost *)

Section LeakFacts.
Context {platform : Platform}.
Variable os : OS.

(** A descriptor held before an action is held after it, unless the action
    closed it. *)
Lemma step_conserves (a : Lifetime.Action)
  (objs objs1 : gmap nat Socket.t) (w w1 : World) (d : Z) :
  Lifetime.step os a (objs, w) = (Return tt, (objs1, w1)) ->
  Lifetime.holds objs d ->
  Lifetime.holds objs1 d \/ w1 = w ++ [sys_close d].
Proof.
  intros Hstep [Hd (i & s & Hi & Hs)].
  destruct a as [target source | target source | object]; cbn in Hstep.
  - destruct (objs !! source) as [other |] eqn:Hsrc; [| discriminate].
    destruct (objs !! target) as [? |] eqn:Htgt; [discriminate |].
    injection Hstep as <- <-. left. split; [exact Hd |].
    destruct (decide (i = source)) as [-> | Hne].
    + exists target, (Socket.initial (Socket.mDescriptor other)).
      rewrite lookup_insert_eq. split; [reflexivity |]. cbn. congruence.
    + exists i, s. rewrite lookup_insert_ne by congruence.
      rewrite lookup_insert_ne by congruence. auto.
  - destruct (objs !! target) as [self |] eqn:Htgt; [| discriminate].
    destruct (objs !! source) as [rhs |] eqn:Hsrc; [| discriminate].
    injection Hstep as <- <-. left. split; [exact Hd |].
    destruct (decide (i = target)) as [-> | Hnt].
    + destruct (decide (target = source)) as [-> | Hts].
      * exists source. eexists. rewrite lookup_insert_eq.
        split; [reflexivity |]. cbn. congruence.
      * exists source. eexists. rewrite lookup_insert_ne by congruence.
        rewrite lookup_insert_eq. split; [reflexivity |]. cbn. congruence.
    + destruct (decide (i = source)) as [-> | Hns].
      * exists target. eexists. rewrite lookup_insert_eq.
        split; [reflexivity |]. cbn. congruence.
      * exists i, s. rewrite lookup_insert_ne by congruence.
        rewrite lookup_insert_ne by congruence. auto.
  - destruct (objs !! object) as [self |] eqn:Hobj; [| discriminate].
    rewrite destroy_run in Hstep. injection Hstep as <- <-.
    destruct (decide (i = object)) as [-> | Hne].
    + right. assert (self = s) as -> by congruence. rewrite Hs.
      destruct (Z.eqb_spec d Socket.sInvalidSocket); [contradiction | reflexivity].
    + left. split; [exact Hd |]. exists i, s.
      rewrite lookup_delete_ne by congruence. auto.
Qed.

(** X18.  Moves lose no descriptor.  Over every run of move constructions,
    move assignments and destructions on live objects that start with no
    descriptor held twice, the calls made are closes of distinct
    descriptors, and a descriptor was held at the start exactly when it has
    been closed or is still held at the end.  So once every object has been
    destroyed, every descriptor held at the start has been closed exactly
    once. *)
Theorem moves_lose_no_descriptor
  (actions : list Lifetime.Action) (objs objs' : gmap nat Socket.t) (w w' : World) :
  Lifetime.exclusive objs ->
  Lifetime.run os actions (objs, w) = (Return tt, (objs', w')) ->
  exists closed,
    w' = w ++ map sys_close closed /\
    NoDup closed /\
    (forall d, Lifetime.holds objs d <-> d ∈ closed \/ Lifetime.holds objs' d) /\
    (objs' = ∅ -> forall d, Lifetime.holds objs d <-> d ∈ closed).
Proof.
  intros Hex Hrun.
  assert (Hmain : exists closed,
            w' = w ++ map sys_close closed /\
            NoDup closed /\
            (forall d, Lifetime.holds objs d <->
                       d ∈ closed \/ Lifetime.holds objs' d)).
  { revert objs w Hex Hrun.
    induction actions as [| a actions IH]; intros objs w Hex Hrun.
    - injection Hrun as <- <-. exists [].
      split; [symmetry; apply app_nil_r |]. split; [constructor |].
      intros d. split; [auto |]. intros [Hin | H]; [inversion Hin | exact H].
    - cbn [Lifetime.run] in Hrun. unfold bind in Hrun.
      destruct (Lifetime.step os a (objs, w)) as [[[] | e |] [objs1 w1]] eqn:Hstep;
        try discriminate.
      destruct (step_invariant os _ _ _ _ _ Hex Hstep) as (Hex1 & Hmono & Hcall).
      pose proof (fun d => step_conserves _ _ _ _ _ d Hstep) as Hcons.
      destruct (IH _ _ Hex1 Hrun) as (closed & Hw & Hnodup & Hacc).
      destruct Hcall as [-> | (d0 & -> & Hheld & Hgone)].
      + exists closed. split; [exact Hw |]. split; [exact Hnodup |].
        intros d. rewrite <- Hacc. split.
        * intros Hd. destruct (Hcons d Hd) as [H1 | Hbad]; [exact H1 |].
          exfalso. apply (f_equal length) in Hbad.
          rewrite length_app in Hbad. cbn in Hbad. lia.
        * apply Hmono.
      + exists (d0 :: closed).
        split; [rewrite Hw, <- app_assoc; reflexivity |].
        split.
        * constructor; [| exact Hnodup]. intros Hin. apply Hgone.
          apply Hacc. left. exact Hin.
        * intros d. rewrite elem_of_cons. split.
          -- intros Hd. destruct (Hcons d Hd) as [H1 | Hclose].
             ++ apply Hacc in H1. tauto.
             ++ apply app_inv_head in Hclose. injection Hclose as ->. auto.
          -- intros [[-> | Hin] | Hend]; [exact Hheld | |];
               apply Hmono, Hacc; auto. }
  destruct Hmain as (closed & Hw & Hnodup & Hacc).
  exists closed. split; [exact Hw |]. split; [exact Hnodup |].
  split; [exact Hacc |].
  intros -> d. rewrite Hacc. split; [| auto].
  intros [Hin | [_ (i & s & Hi & _)]]; [exact Hin |].
  rewrite lookup_empty in Hi. discriminate.
Qed.

End LeakFacts.

(** ** Layout of the address record *)

Section LayoutFacts.
Context {platform : Platform}.

(** X19.  For a path of at least one and at most [capacity] bytes the
    record built has [sun_path] at its full size, holding the path up to its
    first NUL byte and NUL bytes from there to the end, and the local family
    tag.  The size kept for [bind] and [connect] is the header plus the
    whole length of the path plus one, also when a NUL byte inside the path
    makes the string in the record shorter. *)
Theorem address_record_layout (path : string) :
  path <> EmptyString ->
  Z.of_nat (String.length path) <= LocalAddress.capacity ->
  exists a,
    LocalAddress.make path = Return a /\
    LocalAddress.GetSize a
      = LocalAddress.sPathOffset + Z.of_nat (String.length path) + 1 /\
    sun_family (LocalAddress.mAddress a) = AF_UNIX /\
    Z.of_nat (length (sun_path (LocalAddress.mAddress a))) = sizeof_sun_path /\
    (forall (i : nat) c,
       list_ascii_of_string (until_nul path) !! i = Some c ->
       sun_path (LocalAddress.mAddress a) !! i = Some c) /\
    (forall i : nat,
       (String.length (until_nul path) <= i)%nat ->
       Z.of_nat i < sizeof_sun_path ->
       sun_path (LocalAddress.mAddress a) !! i = Some NUL).
Proof.
  intros Hne Hcap.
  assert (Hpos : (0 < String.length path)%nat)
    by (destruct path; [contradiction | cbn; lia]).
  pose proof (make_run path Hpos Hcap) as Hrun. cbv zeta in Hrun.
  pose proof (length_until_nul path) as Hu.
  pose proof sockaddr_un_layout as (H1 & H2 & H3).
  rewrite capacity_eq in Hcap.
  eexists. split; [exact Hrun |].
  cbn [LocalAddress.GetSize LocalAddress.mSize LocalAddress.mAddress
       sun_family sun_path].
  split; [reflexivity |]. split; [reflexivity |].
  split.
  { rewrite length_app, length_list_ascii_of_string. cbn [length].
    rewrite length_replicate. lia. }
  split.
  - intros i c Hc. apply lookup_app_l_Some, Hc.
  - intros i Hi Hlt.
    rewrite lookup_app_r by (rewrite length_list_ascii_of_string; exact Hi).
    rewrite length_list_ascii_of_string.
    apply (lookup_replicate_2 (S _) NUL). lia.
Qed.

End LayoutFacts.

(** ** What the calls leave alone *)

Section IdentityFacts.
Context {platform : Platform}.
Variable os : OS.

Lemma perform_keeps_identity (c : Caller.Call) (st : LocalSocket.t * World) :
  let st' := Caller.perform os c st in
  Socket.mDescriptor (LocalSocket.base (fst st'))
    = Socket.mDescriptor (LocalSocket.base (fst st)) /\
  Socket.mIsNonBlocking (LocalSocket.base (fst st'))
    = Socket.mIsNonBlocking (LocalSocket.base (fst st)) /\
  LocalSocket.mAddress (fst st') = LocalSocket.mAddress (fst st).
Proof.
  cbv zeta. destruct st as [s w].
  destruct c as [res | buf n | buf n |]; unfold Caller.perform.
  - unfold LocalSocket.on_base. cbn [fst snd].
    pose proof (Update_object os res (LocalSocket.base s) w) as (Hd & Hnb & _).
    destruct (Socket.Update os res (LocalSocket.base s, w)) as [o [b w']].
    cbn in *. auto.
  - rewrite TrySend_object. destruct s as [[d r wr nb] a]. cbn. auto.
  - rewrite TryRecv_object. destruct s as [[d r wr nb] a]. cbn. auto.
  - rewrite Accept_object. destruct s as [[d r wr nb] a]. cbn. auto.
Qed.

(** X20.  No sequence of [Update], [TrySend], [TryRecv] and [Accept] calls,
    whatever they return or throw, changes the descriptor the socket holds,
    its mode flag or its address: the calls touch the two readiness flags
    and nothing else of the object. *)
Theorem calls_keep_identity
  (calls : list Caller.Call) (st : LocalSocket.t * World) :
  let st' := Caller.perform_all os calls st in
  Socket.mDescriptor (LocalSocket.base (fst st'))
    = Socket.mDescriptor (LocalSocket.base (fst st)) /\
  Socket.mIsNonBlocking (LocalSocket.base (fst st'))
    = Socket.mIsNonBlocking (LocalSocket.base (fst st)) /\
  LocalSocket.mAddress (fst st') = LocalSocket.mAddress (fst st).
Proof.
  cbv zeta. revert st. induction calls as [| c calls IH]; intros st.
  - auto.
  - cbn [Caller.perform_all fold_left].
    destruct (IH (Caller.perform os c st)) as (Hd & Hnb & Ha).
    destruct (perform_keeps_identity c st) as (Hd1 & Hnb1 & Ha1).
    unfold Caller.perform_all in *.
    rewrite Hd, Hnb, Ha. auto.
Qed.

End IdentityFacts.

(** * Further worked instances *)

(** X1 on a [listen] that reports [EAGAIN]: the wrapped call throws. *)
Lemma SysCall_Unwrap_never_sentinel_witness :
  bind (SysCall Systems.os_would_block (sys_listen 3 1))
    (fun p => Unwrap (fst p)) [] =
  (Throw (system_error 11), [sys_listen 3 1]).
Proof.
  destruct (SysCall_Unwrap_never_sentinel (platform := linux)
              Systems.os_would_block (sys_listen 3 1) [])
    as (o & Hrun & _ & Hblock).
  unfold World in *. rewrite Hrun, Hblock;
    [reflexivity | reflexivity | discriminate].
Defined.

(** X2 on a system whose [socket] yields 3: with [fcntl(F_GETFL)] failing
    the constructor throws and descriptor 3 is not closed; with
    [fcntl(F_SETFL)] failing likewise; with both succeeding it returns. *)
Lemma Socket_open_outcomes_witness :
  Socket.open (platform := linux) Faults.os_fcntl_fails 1 5 0 []
    = (Throw (system_error 9), [sys_socket 1 5 0; sys_fcntl 3 3 0]) /\
  Socket.open (platform := linux) Faults.os_setfl_fails 1 5 0 []
    = (Throw (system_error 22),
       [sys_socket 1 5 0; sys_fcntl 3 3 0; sys_fcntl 3 4 2050]) /\
  Socket.open (platform := linux) Systems.os_ready 1 5 0 []
    = (Return (Socket.set_mIsNonBlocking true (Socket.initial 3)),
       [sys_socket 1 5 0; sys_fcntl 3 3 0; sys_fcntl 3 4 2048]).
Proof.
  split; [| split].
  - pose proof (Socket_open_outcomes (platform := linux) Faults.os_fcntl_fails
                  1 5 0 []) as H.
    cbv zeta in H. destruct H as (_ & H & _).
    destruct (H 3 eq_refl) as (_ & Hfail & _).
    apply Hfail; [reflexivity | discriminate].
  - pose proof (Socket_open_outcomes (platform := linux) Faults.os_setfl_fails
                  1 5 0 []) as H.
    cbv zeta in H. destruct H as (_ & H & _).
    destruct (H 3 eq_refl) as (_ & _ & Hread).
    destruct (Hread 2 eq_refl) as [Hfail _].
    apply Hfail; [reflexivity | discriminate].
  - pose proof (Socket_open_outcomes (platform := linux) Systems.os_ready
                  1 5 0 []) as H.
    cbv zeta in H. destruct H as (_ & H & _).
    destruct (H 3 eq_refl) as (_ & _ & Hread).
    destruct (Hread 0 eq_refl) as [_ Hok].
    apply (Hok 0). reflexivity.
Defined.

(** X3 on the sentinel, and on descriptor 4 with a failing [fcntl(F_GETFL)],
    a failing [fcntl(F_SETFL)] and neither. *)
Lemma Socket_adopt_outcomes_witness :
  Socket.adopt (platform := linux) Systems.os_ready (-1) []
    = (Throw (invalid_argument "invalid socket descriptor"), []) /\
  Socket.adopt (platform := linux) Faults.os_fcntl_fails 4 []
    = (Throw (system_error 9), [sys_fcntl 4 3 0]) /\
  Socket.adopt (platform := linux) Faults.os_setfl_fails 4 []
    = (Throw (system_error 22), [sys_fcntl 4 3 0; sys_fcntl 4 4 2050]) /\
  Socket.adopt (platform := linux) Systems.os_ready 4 []
    = (Return (Socket.set_mIsNonBlocking true (Socket.initial 4)),
       [sys_fcntl 4 3 0; sys_fcntl 4 4 2048]).
Proof.
  split; [| split; [| split]].
  - apply (Socket_adopt_outcomes (platform := linux) Systems.os_ready (-1) []).
    reflexivity.
  - pose proof (Socket_adopt_outcomes (platform := linux) Faults.os_fcntl_fails
                  4 []) as H.
    cbv zeta in H. destruct H as [_ H].
    destruct (H ltac:(discriminate)) as (Hfail & _).
    apply Hfail; [reflexivity | discriminate].
  - pose proof (Socket_adopt_outcomes (platform := linux) Faults.os_setfl_fails
                  4 []) as H.
    cbv zeta in H. destruct H as [_ H].
    destruct (H ltac:(discriminate)) as (_ & Hread & _).
    destruct (Hread 2 eq_refl) as [Hfail _].
    apply Hfail; [reflexivity | discriminate].
  - pose proof (Socket_adopt_outcomes (platform := linux) Systems.os_ready
                  4 []) as H.
    cbv zeta in H. destruct H as [_ H].
    destruct (H ltac:(discriminate)) as (_ & Hread & _).
    destruct (Hread 0 eq_refl) as [_ Hok].
    apply (Hok 0). reflexivity.
Defined.

(** X4 on an idle socket: after [SetBlocking] the gates are open. *)
Lemma SetBlocking_opens_gates_witness :
  fst (Socket.GetAndResetIsReadable
         (Socket.set_mIsNonBlocking false (LocalSocket.base (Systems.idle 3))))
    = Return true /\
  snd (snd (LocalConnectorSocket.TrySend (platform := linux) Systems.os_ready 0 4
              ({| LocalSocket.base :=
                    Socket.set_mIsNonBlocking false
                      (LocalSocket.base (Systems.idle 3));
                  LocalSocket.mAddress := LocalSocket.mAddress (Systems.idle 3) |},
               []))) = [sys_send 3 0 4 0].
Proof.
  destruct (SetBlocking_opens_gates (platform := linux) Systems.os_ready
              (LocalSocket.base (Systems.idle 3)) [])
    as (o & calls & _ & Hr & _ & Hsend & _).
  split; [exact Hr |].
  apply (Hsend _ 0 4 []). reflexivity.
Defined.

(** X5 on the event [POLLIN|POLLOUT]: the second [Update] changes nothing. *)
Lemma Update_accumulates_witness :
  exists o st1,
    Socket.Update (platform := linux) Systems.os_ready (event.Result.Result 5)
      (Socket.initial 3, []) = (o, st1) /\
    Socket.Update (platform := linux) Systems.os_ready (event.Result.Result 5) st1
      = (o, st1).
Proof.
  destruct (Update_accumulates (platform := linux) Systems.os_ready
              (Socket.initial 3) (event.Result.Result 5) [])
    as (o & s' & calls & Hrun & _ & _ & _ & _ & _ & Ho).
  exists o, (s', [] ++ calls). split; [exact Hrun |].
  destruct o as [b | e |].
  - apply Ho.
  - destruct Ho as [Herr _]. discriminate Herr.
  - contradiction.
Defined.


(** X7 on a [send] that moves four bytes. *)
Lemma TrySend_TryRecv_outcomes_witness :
  fst (LocalConnectorSocket.TrySend (platform := linux) Systems.os_ready 0 4
         (Systems.ready 3, [])) = Return (Some 4).
Proof.
  pose proof (TrySend_TryRecv_outcomes (platform := linux) Systems.os_ready
                0 4 (Systems.ready 3) []) as H.
  cbv zeta in H. destruct H as (_ & _ & _ & _ & Hsend & _).
  unfold World in *. rewrite Hsend; [reflexivity | reflexivity | discriminate].
Defined.

(** X8 on an acceptor that was reported readable. *)
Lemma Accept_hands_over_descriptor_witness :
  fst (LocalAcceptorSocket.Accept (platform := linux) Systems.os_ready
         (Systems.ready 3, [])) = Return (Some Faults.accepted) /\
  snd (snd (LocalAcceptorSocket.Accept (platform := linux) Systems.os_ready
              (Systems.ready 3, [])))
    = [sys_accept 3 110; sys_fcntl 4 3 0; sys_fcntl 4 4 2048].
Proof.
  pose proof (Accept_hands_over_descriptor (platform := linux) Systems.os_ready
                (Systems.ready 3) [] eq_refl) as H.
  cbv zeta in H. destruct (H ltac:(discriminate)) as [Hok _].
  unfold World in *. rewrite (Hok _ _ eq_refl). split; reflexivity.
Defined.

(** X9 on the connector accepted above. *)
Lemma accepted_connector_is_ungated_witness :
  Socket.mIsReadable (LocalSocket.base Faults.accepted) = false /\
  snd (snd (LocalConnectorSocket.TryRecv (platform := linux) Systems.os_ready 0 4
              (Faults.accepted, []))) = [sys_recv 4 0 4 0].
Proof.
  destruct (accepted_connector_is_ungated (platform := linux) Systems.os_ready
              (Systems.ready 3, []) _ Faults.accepted eq_refl)
    as (Hr & _ & _ & Hcalls).
  split; [exact Hr |]. apply (Hcalls 0 4 []).
Defined.

(** X10 on the sentinel, and on descriptor 4: with a failing [fcntl], with
    an address the system left zeroed, and with a local address. *)
Lemma make_descriptor_outcomes_witness :
  LocalConnectorSocket.make_descriptor (platform := linux)
    Faults.os_unnamed_peer (-1) (LocalAddress.empty (platform := linux)) []
    = (Throw (invalid_argument "invalid socket descriptor"), []) /\
  LocalConnectorSocket.make_descriptor (platform := linux)
    Faults.os_fcntl_fails 4 Faults.peer_address []
    = (Throw (system_error 9), [sys_fcntl 4 3 0]) /\
  LocalConnectorSocket.make_descriptor (platform := linux)
    Faults.os_setfl_fails 4 Faults.peer_address []
    = (Throw (system_error 22), [sys_fcntl 4 3 0; sys_fcntl 4 4 2050]) /\
  LocalConnectorSocket.make_descriptor (platform := linux)
    Faults.os_unnamed_peer 4 (LocalAddress.empty (platform := linux)) []
    = (Throw (invalid_argument "invalid local socket address"),
       [sys_fcntl 4 3 0; sys_fcntl 4 4 2048; sys_close 4]) /\
  LocalConnectorSocket.make_descriptor (platform := linux)
    Systems.os_ready 4 Faults.peer_address []
    = (Return {| LocalSocket.base :=
                   Socket.set_mIsNonBlocking true (Socket.initial 4);
                 LocalSocket.mAddress := Faults.peer_address |},
       [sys_fcntl 4 3 0; sys_fcntl 4 4 2048]).
Proof.
  split; [| split; [| split; [| split]]].
  - apply (make_descriptor_outcomes (platform := linux)). reflexivity.
  - pose proof (make_descriptor_outcomes (platform := linux) Faults.os_fcntl_fails
                  4 Faults.peer_address []) as H.
    cbv zeta in H. destruct H as [_ H].
    destruct (H ltac:(discriminate)) as (Hfail & _).
    apply Hfail; [reflexivity | discriminate].
  - pose proof (make_descriptor_outcomes (platform := linux) Faults.os_setfl_fails
                  4 Faults.peer_address []) as H.
    cbv zeta in H. destruct H as [_ H].
    destruct (H ltac:(discriminate)) as (_ & Hread).
    destruct (Hread 2 eq_refl) as (Hfail & _).
    apply Hfail; [reflexivity | discriminate].
  - pose proof (make_descriptor_outcomes (platform := linux) Faults.os_unnamed_peer
                  4 (LocalAddress.empty (platform := linux)) []) as H.
    cbv zeta in H. destruct H as [_ H].
    destruct (H ltac:(discriminate)) as (_ & Hread).
    destruct (Hread 0 eq_refl) as (_ & Hinvalid & _).
    apply (Hinvalid 0); reflexivity.
  - pose proof (make_descriptor_outcomes (platform := linux) Systems.os_ready
                  4 Faults.peer_address []) as H.
    cbv zeta in H. destruct H as [_ H].
    destruct (H ltac:(discriminate)) as (_ & Hread).
    destruct (Hread 0 eq_refl) as (_ & _ & Hvalid).
    apply (Hvalid 0); reflexivity.
Defined.

(** X11 on the empty path. *)
Lemma address_failure_closes_socket_witness :
  LocalConnectorSocket.make_path (platform := linux) Systems.os_ready "" []
  = (Throw (invalid_argument "path empty"),
     [sys_socket 1 5 0; sys_fcntl 3 3 0; sys_fcntl 3 4 2048; sys_close 3]).
Proof.
  apply (address_failure_closes_socket (platform := linux) Systems.os_ready
           "" 1 [] _ _ _ eq_refl eq_refl).
Defined.

(** X12 on the path /tmp/x.sock. *)
Lemma connector_starts_gated_witness :
  exists self w1,
    LocalConnectorSocket.make_path (platform := linux) Systems.os_ready
      "/tmp/x.sock" [] = (Return self, w1) /\
    LocalConnectorSocket.TrySend (platform := linux) Systems.os_ready 0 4 (self, w1)
      = (Return None, (self, w1)).
Proof.
  pose proof (connector_starts_gated (platform := linux) Systems.os_ready
                "/tmp/x.sock" [] _ _ eq_refl) as H.
  cbv zeta in H. destruct H as (Hmake & _ & _ & Hgate);
    [vm_compute; discriminate |].
  eexists _, _. split; [exact Hmake | apply Hgate].
Defined.

(** X13 on a path that is taken, on a system that cannot listen, and on one
    where all goes well. *)
Lemma acceptor_unlink_bind_listen_witness :
  fst (LocalAcceptorSocket.make (platform := linux) Faults.os_address_in_use
         "/tmp/x.sock" 1 []) = Throw (system_error 98) /\
  fst (LocalAcceptorSocket.make (platform := linux) Faults.os_no_listen
         "/tmp/x.sock" 1 []) = Throw (system_error 95) /\
  exists self,
    fst (LocalAcceptorSocket.make (platform := linux) Systems.os_ready
           "/tmp/x.sock" 1 []) = Return self.
Proof.
  split; [| split].
  - pose proof (acceptor_unlink_bind_listen (platform := linux)
                  Faults.os_address_in_use "/tmp/x.sock" 1 [] _ _ eq_refl) as H.
    cbv zeta in H. destruct H as (Hbind & _).
    rewrite Hbind; [reflexivity | vm_compute; reflexivity | vm_compute; discriminate].
  - pose proof (acceptor_unlink_bind_listen (platform := linux)
                  Faults.os_no_listen "/tmp/x.sock" 1 [] _ _ eq_refl) as H.
    cbv zeta in H. destruct H as (_ & Hlisten & _).
    rewrite Hlisten;
      [reflexivity | vm_compute; discriminate | vm_compute; reflexivity
       | vm_compute; discriminate].
  - pose proof (acceptor_unlink_bind_listen (platform := linux)
                  Systems.os_ready "/tmp/x.sock" 1 [] _ _ eq_refl) as H.
    cbv zeta in H. destruct H as (_ & _ & Hok).
    eexists. rewrite Hok; [reflexivity | vm_compute; discriminate
                           | vm_compute; discriminate].
Defined.

(** X14 on a list of two entries, at index 1. *)
Lemma At_returns_iff_in_range_witness :
  exists r, event.Poller.At 1 Faults.watched = (Return r, Faults.watched).
Proof.
  apply (proj1 (At_returns_iff_in_range Faults.watched 1
                  ltac:(vm_compute; split; discriminate)
                  ltac:(vm_compute; discriminate))).
  vm_compute. split; [discriminate | reflexivity].
Defined.


(** X16 on a list of three entries, removing the indices 0 and 2. *)
Lemma Remove_order_matters_witness :
  event.Poller.Remove 0 (snd (event.Poller.Remove 2 Faults.watched_three))
    = (Return tt,
       {| event.Poller.mPollList := [{| fd := 4; events := 5; revents := 0 |}] |}) /\
  event.Poller.Remove 2 (snd (event.Poller.Remove 0 Faults.watched_three))
    = (Undefined, snd (event.Poller.Remove 0 Faults.watched_three)).
Proof.
  pose proof (Remove_order_matters Faults.watched_three 2 0
                ltac:(lia) ltac:(vm_compute; reflexivity)) as H.
  cbv zeta in H.
  destruct H as ([Hhigh _] & _ & Hlow & _ & _ & Hlast).
  split; [exact Hhigh |].
  rewrite Hlow. apply Hlast. reflexivity.
Defined.

(** X17 on a [poll] that reports two ready entries. *)
Lemma Poll_keeps_watch_list_witness :
  exists o p',
    event.Poller.Poll Faults.os_poll_ready 100 (Faults.watched, [])
      = (o, (p', [sys_poll (event.Poller.mPollList Faults.watched) 100])) /\
    map fd (event.Poller.mPollList p') = [3; 4] /\
    event.Poller.At 0 p' = (Return (event.Result.Result 1), p') /\
    event.Poller.At 1 p' = (Return (event.Result.Result 4), p').
Proof.
  destruct (Poll_keeps_watch_list Faults.os_poll_ready 100
              Faults.watched [])
    as (o & p' & Hrun & _ & Hfd & _ & Hat).
  exists o, p'. split; [exact Hrun |]. split; [exact Hfd |].
  split.
  - apply (Hat 0%nat 1); [cbn; lia | vm_compute; discriminate | reflexivity].
  - apply (Hat 1%nat 4); [cbn; lia | vm_compute; discriminate | reflexivity].
Defined.

(** X18 on two sockets holding 3 and 4, all destroyed at the end. *)
Lemma moves_lose_no_descriptor_witness :
  exists closed,
    [sys_close 3; sys_close 4] = [] ++ map sys_close closed /\
    NoDup closed /\
    forall d, Lifetime.holds Systems.two_sockets d <-> d ∈ closed.
Proof.
  destruct (moves_lose_no_descriptor Systems.os_ready
              [Lifetime.MoveAssign 0 1; Lifetime.MoveConstruct 2 0;
               Lifetime.Destroy 1; Lifetime.Destroy 0; Lifetime.Destroy 2]
              Systems.two_sockets ∅ [] [sys_close 3; sys_close 4]
              two_sockets_exclusive ltac:(vm_compute; reflexivity))
    as (closed & Hw & Hnodup & _ & Hall).
  exists closed. split; [exact Hw |]. split; [exact Hnodup |].
  apply Hall. reflexivity.
Defined.

(** X19 on the path 'a', NUL, 'b': the size counts three bytes, the record
    holds the one-byte string. *)
Lemma address_record_layout_witness :
  exists a,
    LocalAddress.make (platform := linux) Faults.nul_path = Return a /\
    LocalAddress.GetSize a = 6 /\
    sun_path (LocalAddress.mAddress a) !! 0%nat = Some "a"%char /\
    sun_path (LocalAddress.mAddress a) !! 2%nat = Some NUL.
Proof.
  destruct (address_record_layout (platform := linux) Faults.nul_path
              ltac:(discriminate) ltac:(vm_compute; discriminate))
    as (a & Hmake & Hsize & _ & _ & Hprefix & Hpad).
  exists a. split; [exact Hmake |]. split; [exact Hsize |].
  split.
  - apply Hprefix. reflexivity.
  - apply Hpad; [cbn; lia | vm_compute; reflexivity].
Defined.
